(** * Claimable-fee aggregation and refresh pipeline

    A shallow embedding of the fee-claim application:
    - [server/contracts.ts]: token metadata, batched fee reads, amount
      formatting, aggregation and the claim-call builders;
    - [server/routes.ts]: the per-wallet result cache of [GET /api/tokens]
      and the demo wallet of [POST /api/wallet/connect];
    - the [Home] page: [refreshClaimableRewards], the single-flight
      refresh and poll controller, and the handlers that connect a wallet
      and claim;
    - the Farcaster hook: the SDK start, [connectWallet],
      [sendTransaction] and [waitForTransaction].

    Conventions.  A JavaScript string is a [string] of ASCII characters
    (addresses are hexadecimal texts).  A [bigint] is a [Z].  A [Map] whose
    iteration order is observed is an insertion-ordered association list
    ([JsMap]); a [Map] that is only looked up is a [gmap].  The network is an
    explicit world that every request threads through; code that can throw
    runs in a state-and-exception monad. *)

From Stdlib Require Import ZArith QArith Qround Qpower Qabs String Ascii List Lia Lqa.
From Stdlib Require Import Decimal DecimalString DecimalPos.
From Stdlib Require HexadecimalString.
From stdpp Require Import base option list gmap strings.

Local Open Scope Z_scope.
Local Open Scope string_scope.
Local Open Scope list_scope.

(* ===================================================================== *)
(** * JavaScript strings *)
(* ===================================================================== *)

Module JsString.

(** [c.toLowerCase()] on one ASCII character. *)
Definition lower_ascii (c : ascii) : ascii :=
  let n := nat_of_ascii c in
  if (65 <=? n)%nat && (n <=? 90)%nat then ascii_of_nat (n + 32) else c.

(** [s.toLowerCase()]. *)
Fixpoint toLowerCase (s : string) : string :=
  match s with
  | EmptyString => EmptyString
  | String c s' => String (lower_ascii c) (toLowerCase s')
  end.

(** [s.slice(from, to)] for [0 <= from] and [0 <= to]. *)
Definition slice (from to : nat) (s : string) : string :=
  String.substring from (to - from) s.

(** [s.slice(from)]. *)
Definition slice_from (from : nat) (s : string) : string :=
  String.substring from (String.length s - from) s.

(** [n] copies of the character [c]. *)
Fixpoint replicate (n : nat) (c : ascii) : string :=
  match n with
  | O => EmptyString
  | S n' => String c (replicate n' c)
  end.

(** [s.padStart(n, "0")]. *)
Definition padStart0 (n : nat) (s : string) : string :=
  (replicate (n - String.length s) "0"%char ++ s)%string.

(** The characters of [s], last first. *)
Fixpoint rev (s : string) : string :=
  match s with
  | EmptyString => EmptyString
  | String c s' => (rev s' ++ String c EmptyString)%string
  end.

(** [s] without its leading ["0"] characters. *)
Fixpoint drop_leading_zeros (s : string) : string :=
  match s with
  | String "0"%char s' => drop_leading_zeros s'
  | _ => s
  end.

(** [s.replace(/(0+)$/, "")]: [s] without its trailing zeros. *)
Definition strip_trailing_zeros (s : string) : string :=
  rev (drop_leading_zeros (rev s)).

(** JavaScript truthiness of a string. *)
Definition truthy (s : string) : bool :=
  match s with EmptyString => false | _ => true end.

End JsString.

(* ===================================================================== *)
(** * bigint *)
(* ===================================================================== *)

Module BigInt.

(** [value.toString()] of a bigint: decimal digits, ["-"] first when
    negative. *)
Definition toString (value : Z) : string :=
  NilZero.string_of_int (Z.to_int value).

End BigInt.

(* ===================================================================== *)
(** * Insertion-ordered [Map<string, V>] *)
(* ===================================================================== *)

Module JsMap.

Definition t (V : Type) : Type := list (string * V).

Definition empty {V : Type} : t V := [].

(** [m.get(k)]; [None] is [undefined]. *)
Fixpoint get {V : Type} (k : string) (m : t V) : option V :=
  match m with
  | [] => None
  | (k', v) :: m' => if String.eqb k' k then Some v else get k m'
  end.

(** [m.set(k, v)]: a key already present keeps its place and takes the
    new value, a new key goes last. *)
Fixpoint set {V : Type} (k : string) (v : V) (m : t V) : t V :=
  match m with
  | [] => [(k, v)]
  | (k', v') :: m' =>
      if String.eqb k' k then (k', v) :: m' else (k', v') :: set k v m'
  end.

(** The keys in iteration order. *)
Definition keys {V : Type} (m : t V) : list string := map fst m.

(** [m.forEach((v, k) => ...)] visits [entries m] from left to right. *)
Definition entries {V : Type} (m : t V) : list (string * V) := m.

End JsMap.

(* ===================================================================== *)
(** * JavaScript numbers *)
(* ===================================================================== *)

Module JsNumber.

(** A Number value: a finite IEEE-754 double held as the rational it
    denotes (the two zeros are one value), an infinity, or [NaN]. *)
Inductive t : Type :=
| Finite (q : Q)
| PosInfinity
| NegInfinity
| NaN.

Definition pow2 (e : Z) : Q := Qpower 2 e.
Definition pow10 (e : Z) : Q := Qpower 10 e.

(** [floor (log2 x)] for [0 < x]. *)
Definition ilog2 (x : Q) : Z :=
  let c := Z.log2 (Qnum x) - Z.log2 (Zpos (Qden x)) in
  if Qle_bool (pow2 c) x then c else c - 1.

(** The integer nearest to [x], the even one of two. *)
Definition round_half_even (x : Q) : Z :=
  let f := Qfloor x in
  match Qcompare (x - inject_Z f)%Q (1 # 2)%Q with
  | Lt => f
  | Gt => f + 1
  | Eq => if Z.even f then f else f + 1
  end.

(** The integer nearest to [x], the larger one of two. *)
Definition round_half_up (x : Q) : Z := Qfloor (x + (1 # 2))%Q.

(** The exponent of the unit in the last place of the binary64 numbers
    around [x], for [0 < x]: 52 below the exponent of [x], and that of the
    subnormal numbers under [2 ^ -1022]. *)
Definition ulp_exponent (x : Q) : Z := Z.max (ilog2 x) (-1022) - 52.

(** The multiple of the unit in the last place nearest to [x], the even
    one of two, for [0 < x]. *)
Definition rounded (x : Q) : Q :=
  (inject_Z (round_half_even (x / pow2 (ulp_exponent x))) * pow2 (ulp_exponent x))%Q.

(** Round to nearest, ties to even, of a rational [0 < x] to binary64:
    [rounded x], or infinity from [2 ^ 1024] on. *)
Definition round_pos (x : Q) : t :=
  if Qle_bool (pow2 1024) (rounded x) then PosInfinity else Finite (rounded x).

Definition neg (n : t) : t :=
  match n with
  | Finite q => Finite (- q)%Q
  | PosInfinity => NegInfinity
  | NegInfinity => PosInfinity
  | NaN => NaN
  end.

(** The Number value for the real number [x]. *)
Definition of_rational (x : Q) : t :=
  match Qcompare x 0%Q with
  | Eq => Finite 0%Q
  | Gt => round_pos x
  | Lt => neg (round_pos (- x)%Q)
  end.

(** [a < b]. *)
Definition lt (a b : t) : bool :=
  match a, b with
  | NaN, _ | _, NaN => false
  | _, NegInfinity => false
  | PosInfinity, _ => false
  | NegInfinity, _ => true
  | Finite _, PosInfinity => true
  | Finite x, Finite y => match Qcompare x y with Lt => true | _ => false end
  end.

(** [a === 0]. *)
Definition is_zero (a : t) : bool :=
  match a with
  | Finite x => Qeq_bool x 0%Q
  | _ => false
  end.

Definition is_digit (c : ascii) : bool :=
  let n := nat_of_ascii c in (48 <=? n)%nat && (n <=? 57)%nat.

(** The longest prefix of decimal digits, and what follows it. *)
Fixpoint span_digits (s : string) : string * string :=
  match s with
  | EmptyString => (EmptyString, EmptyString)
  | String c s' =>
      if is_digit c
      then let '(d, r) := span_digits s' in (String c d, r)
      else (EmptyString, s)
  end.

(** The number a string of decimal digits writes, after the digits [acc]. *)
Fixpoint digits_value (acc : Z) (s : string) : Z :=
  match s with
  | EmptyString => acc
  | String c s' => digits_value (10 * acc + (Z.of_nat (nat_of_ascii c) - 48)) s'
  end.

(** Whether the text is made of decimal digits. *)
Fixpoint all_digits (s : string) : bool :=
  match s with
  | EmptyString => true
  | String c s' => is_digit c && all_digits s'
  end.

(** The sign a numeric text starts with (whether it is negative), and the
    text after it. *)
Definition split_sign (s : string) : bool * string :=
  match s with
  | String "-"%char r => (true, r)
  | String "+"%char r => (false, r)
  | _ => (false, s)
  end.

(** The digits after the point, when the text starts with a point. *)
Definition fraction_digits (s : string) : string :=
  match s with
  | String "."%char r => fst (span_digits r)
  | _ => EmptyString
  end.

(** [parseFloat(s)] on the decimal literals without exponent: an optional
    sign, digits, an optional point and digits; the mathematical value of
    the longest such prefix is rounded to the nearest double.  No digit at
    all gives [NaN]. *)
Definition parseFloat (s : string) : t :=
  let '(negative, s1) := split_sign s in
  let '(int, s2) := span_digits s1 in
  let frac := fraction_digits s2 in
  match (int ++ frac)%string with
  | EmptyString => NaN
  | ds =>
      let mv := (inject_Z (digits_value 0 ds)
                 / inject_Z (10 ^ Z.of_nat (String.length frac)))%Q in
      if negative then neg (of_rational mv) else of_rational mv
  end.

(** The decimal digits of a natural number. *)
Definition digits (n : Z) : string :=
  NilZero.string_of_uint (N.to_uint (Z.to_N n)).

(** [floor (log10 x)] for [0 < x]. *)
Definition ilog10 (x : Q) : Z :=
  let c := Z.of_nat (String.length (digits (Qnum x)))
           - Z.of_nat (String.length (digits (Zpos (Qden x)))) in
  if Qle_bool (pow10 c) x then c else c - 1.

(** The text of a value that is not finite. *)
Definition nonfinite_toString (n : t) : string :=
  match n with
  | PosInfinity => "Infinity"
  | NegInfinity => "-Infinity"
  | _ => "NaN"
  end.

(** [num.toFixed(f)] for [|num| < 10 ^ 21] (ECMA-262, 21.1.3.3): the
    integer [n] nearest to [num * 10 ^ f], the larger of two, written
    with [f] digits after the point. *)
Definition toFixed (f : nat) (num : t) : string :=
  match num with
  | Finite x =>
      let s := if Qle_bool 0%Q x then EmptyString else "-" in
      let x := Qabs x in
      let n := round_half_up (x * pow10 (Z.of_nat f))%Q in
      let m := if (n =? 0)%Z then "0" else digits n in
      let m :=
        match f with
        | O => m
        | _ =>
            let m := if (String.length m <=? f)%nat
                     then (JsString.replicate (f + 1 - String.length m) "0"%char ++ m)%string
                     else m in
            let k := String.length m in
            (JsString.slice 0 (k - f) m ++ "." ++ JsString.slice_from (k - f) m)%string
        end in
      (s ++ m)%string
  | _ => nonfinite_toString num
  end.

(** [num.toExponential(f)] (ECMA-262, 21.1.3.2): [n] of [f + 1] digits
    and [e] with [n * 10 ^ (e - f)] nearest to [num], the larger of two. *)
Definition toExponential (f : nat) (num : t) : string :=
  match num with
  | Finite x =>
      let s := if Qle_bool 0%Q x then EmptyString else "-" in
      let x := Qabs x in
      let '(n, e) :=
        if Qeq_bool x 0%Q then (0, 0)
        else
          let e0 := ilog10 x in
          let n0 := round_half_up (x / pow10 (e0 - Z.of_nat f))%Q in
          if (n0 =? 10 ^ (Z.of_nat f + 1))%Z then (10 ^ Z.of_nat f, e0 + 1) else (n0, e0) in
      let m := if (n =? 0)%Z then JsString.replicate (f + 1) "0"%char else digits n in
      let m :=
        match f with
        | O => m
        | _ => (JsString.slice 0 1 m ++ "." ++ JsString.slice_from 1 m)%string
        end in
      let c := if (e <? 0)%Z then "-" else "+" in
      (s ++ m ++ "e" ++ c ++ digits (Z.abs e))%string
  | _ => nonfinite_toString num
  end.

End JsNumber.

(* ===================================================================== *)
(** * The outside world *)
(* ===================================================================== *)

(** One entry of the [contracts] array handed to viem: target address,
    function name and arguments (the ABI is fixed by the function name). *)
Record ContractCall : Type := {
  call_address : string;
  call_functionName : string;
  call_args : list string;
}.

(** One entry of a multicall result under [allowFailure: true]. *)
Inductive MulticallResult : Type :=
| Success (result : Z)
| Failure.

(** The chain behind [publicClient].  Every request takes the world to a new
    one.  [multicall] answers [None] when the request as a whole throws, and
    otherwise the outcome of the call at each index of [contracts]: viem
    returns one result per contract, in order.  [readSymbol] and
    [readDecimals] are [readContract] on the ERC-20 functions [symbol] and
    [decimals]; [None] is a rejected promise. *)
Class Chain : Type := {
  World : Type;
  multicall : World -> list ContractCall -> World * option (nat -> MulticallResult);
  readSymbol : World -> string -> World * option string;
  readDecimals : World -> string -> World * option nat;
}.

(** [new Intl.NumberFormat(locale, { maximumFractionDigits }).format(num)]:
    the locale data and the rounding of the host's Intl are not part of the
    program. *)
Class Intl : Type := {
  NumberFormat_format : string -> nat -> JsNumber.t -> string;
}.

(* ===================================================================== *)
(** * server/contracts.ts *)
(* ===================================================================== *)

Module Contracts.

Definition CLANKER_FEE_LOCKER_ADDRESS : string :=
  "0xf3622742b1e446d92e45e22923ef11c2fcd55d68".
Definition WETH_ADDRESS : string :=
  "0x4200000000000000000000000000000000000006".
Definition MULTICALL3_ADDRESS : string :=
  "0xcA11bde05977b3631167028862bE2a173976CA11".

Definition MULTICALL_BATCH_SIZE : nat := 500.

Record TokenMetadata : Type := {
  symbol : string;
  decimals : nat;
}.

(** [RewardAsset] of the shared schema. *)
Record RewardAsset : Type := {
  address : string;
  reward_symbol : string;
  reward_decimals : nat;
  amount : string;
  formattedAmount : string;
}.

Record TotalClaimable : Type := {
  rewards : list RewardAsset;
  tokenAddresses : list string;
}.

(** A request sent through [publicClient]. *)
Inductive Request : Type :=
| MulticallRequest (contracts : list ContractCall)
| ReadContractRequest (target : string) (functionName : string).

(** How a computation ends: with a value, or with a thrown error. *)
Inductive Completion (A : Type) : Type :=
| Normal (a : A)
| Throw (error : string).
Arguments Normal {A} a.
Arguments Throw {A} error.

Section WithChain.
Context `{Chain}.

(** The module's state: the world, the module-level
    [tokenMetadataCache], and the requests sent so far, oldest first
    (a ghost field; the code keeps no such list). *)
Record State : Type := {
  world : World;
  tokenMetadataCache : gmap string TokenMetadata;
  requests : list Request;
}.

Definition M (A : Type) : Type := State -> Completion A * State.

Definition ret {A : Type} (a : A) : M A := fun st => (Normal a, st).

Definition bind {A B : Type} (m : M A) (k : A -> M B) : M B :=
  fun st =>
    match m st with
    | (Normal a, st') => k a st'
    | (Throw e, st') => (Throw e, st')
    end.

Definition throw {A : Type} (e : string) : M A := fun st => (Throw e, st).

(** [try { body } catch (error) { handler }]. *)
Definition try_catch {A : Type} (body : M A) (handler : string -> M A) : M A :=
  fun st =>
    match body st with
    | (Normal a, st') => (Normal a, st')
    | (Throw e, st') => handler e st'
    end.

(** [await Promise.all([a, b])]: both requests are sent, first [a];
    the promise rejects when one of them does. *)
Definition Promise_all {A B : Type} (a : M A) (b : M B) : M (A * B) :=
  fun st =>
    let '(ra, st1) := a st in
    let '(rb, st2) := b st1 in
    match ra, rb with
    | Normal x, Normal y => (Normal (x, y), st2)
    | Throw e, _ => (Throw e, st2)
    | _, Throw e => (Throw e, st2)
    end.

Definition get_cache : M (gmap string TokenMetadata) :=
  fun st => (Normal (tokenMetadataCache st), st).

(** [tokenMetadataCache.set(key, metadata)]. *)
Definition cache_set (key : string) (metadata : TokenMetadata) : M unit :=
  fun st =>
    (Normal tt,
     {| world := world st;
        tokenMetadataCache := <[key := metadata]> (tokenMetadataCache st);
        requests := requests st |}).

(** [publicClient.multicall({ contracts, allowFailure: true })]. *)
Definition publicClient_multicall (contracts : list ContractCall)
  : M (list MulticallResult) :=
  fun st =>
    let '(w, r) := multicall (world st) contracts in
    let st' := {| world := w;
                  tokenMetadataCache := tokenMetadataCache st;
                  requests := requests st ++ [MulticallRequest contracts] |} in
    match r with
    | Some outcome => (Normal (map outcome (seq 0 (length contracts))), st')
    | None => (Throw "multicall", st')
    end.

(** [publicClient.readContract({ address, abi: ERC20_ABI, functionName: "symbol" })]. *)
Definition publicClient_readSymbol (target : string) : M string :=
  fun st =>
    let '(w, r) := readSymbol (world st) target in
    let st' := {| world := w;
                  tokenMetadataCache := tokenMetadataCache st;
                  requests := requests st ++ [ReadContractRequest target "symbol"] |} in
    match r with
    | Some v => (Normal v, st')
    | None => (Throw "readContract", st')
    end.

(** [publicClient.readContract({ address, abi: ERC20_ABI, functionName: "decimals" })]. *)
Definition publicClient_readDecimals (target : string) : M nat :=
  fun st =>
    let '(w, r) := readDecimals (world st) target in
    let st' := {| world := w;
                  tokenMetadataCache := tokenMetadataCache st;
                  requests := requests st ++ [ReadContractRequest target "decimals"] |} in
    match r with
    | Some v => (Normal v, st')
    | None => (Throw "readContract", st')
    end.

Definition getTokenMetadata (address : string) : M TokenMetadata :=
  bind get_cache (fun cache =>
  match cache !! JsString.toLowerCase address with
  | Some cached => ret cached
  | None =>
      if String.eqb (JsString.toLowerCase address)
                    (JsString.toLowerCase WETH_ADDRESS)
      then
        let metadata := {| symbol := "WETH"; decimals := 18 |} in
        bind (cache_set (JsString.toLowerCase address) metadata) (fun _ =>
        ret metadata)
      else
        try_catch
          (bind (Promise_all (publicClient_readSymbol address)
                             (publicClient_readDecimals address))
             (fun '(symbol, decimals) =>
                let metadata := {| symbol := symbol; decimals := decimals |} in
                bind (cache_set (JsString.toLowerCase address) metadata) (fun _ =>
                ret metadata)))
          (fun error =>
             ret {| symbol := JsString.slice 0 8 address; decimals := 18 |})
  end).

Definition getFeesForAddressesMulticall
    (feeOwner : string) (tokenAddresses : list string) : M (JsMap.t Z) :=
  let results : JsMap.t Z := JsMap.empty in
  if (length tokenAddresses =? 0)%nat then ret results
  else
    let contracts :=
      map (fun tokenAddress =>
             {| call_address := CLANKER_FEE_LOCKER_ADDRESS;
                call_functionName := "availableFees";
                call_args := [feeOwner; tokenAddress] |})
          tokenAddresses in
    try_catch
      (bind (publicClient_multicall contracts) (fun multicallResults =>
       ret (fold_left
              (fun results i =>
                 match multicallResults !! i, tokenAddresses !! i with
                 | Some result, Some tokenAddress =>
                     match result with
                     | Success r => JsMap.set tokenAddress r results
                     | Failure => JsMap.set tokenAddress 0 results
                     end
                 | _, _ => results
                 end)
              (seq 0 (length multicallResults))
              results)))
      (fun error =>
         ret (fold_left (fun results addr => JsMap.set addr 0 results)
                        tokenAddresses results)).

End WithChain.

(** The calls a chunk is read with. *)
Definition availableFees_calls (feeOwner : string) (chunk : list string) : list ContractCall :=
  map (fun tokenAddress =>
         {| call_address := CLANKER_FEE_LOCKER_ADDRESS;
            call_functionName := "availableFees";
            call_args := [feeOwner; tokenAddress] |})
      chunk.

(** The amount the reader records for one multicall result. *)
Definition recorded_amount (result : MulticallResult) : Z :=
  match result with
  | Success r => r
  | Failure => 0
  end.

(** The amounts the reader records for a chunk, index by index, given the
    answer of the multicall. *)
Definition recorded_amounts (answer : option (nat -> MulticallResult)) (n : nat) : list Z :=
  match answer with
  | Some outcome => map (fun i => recorded_amount (outcome i)) (seq 0 n)
  | None => replicate n 0
  end.

(** viem's [formatUnits(value, decimals)]: the decimal expansion of
    [value / 10 ^ decimals] without trailing zeros. *)
Definition formatUnits (value : Z) (decimals : nat) : string :=
  let display := BigInt.toString value in
  let negative := String.prefix "-" display in
  let display := if negative then JsString.slice_from 1 display else display in
  let display := JsString.padStart0 decimals display in
  let integer := JsString.slice 0 (String.length display - decimals) display in
  let fraction := JsString.slice_from (String.length display - decimals) display in
  let fraction := JsString.strip_trailing_zeros fraction in
  ((if negative then "-" else EmptyString)
     ++ (if JsString.truthy integer then integer else "0")
     ++ (if JsString.truthy fraction then "." ++ fraction else EmptyString))%string.

(** The number literals of [formatTokenAmount]. *)
Definition lit_0_0001 : JsNumber.t := JsNumber.of_rational (1 # 10000)%Q.
Definition lit_1 : JsNumber.t := JsNumber.of_rational 1%Q.
Definition lit_1000 : JsNumber.t := JsNumber.of_rational 1000%Q.

Definition formatTokenAmount `{Intl} (amount : Z) (decimals : nat) : string :=
  let formatted := formatUnits amount decimals in
  let num := JsNumber.parseFloat formatted in
  if JsNumber.is_zero num then "0"
  else if JsNumber.lt num lit_0_0001 then JsNumber.toExponential 4 num
  else if JsNumber.lt num lit_1 then JsNumber.toFixed 6 num
  else if JsNumber.lt num lit_1000 then JsNumber.toFixed 4 num
  else NumberFormat_format "en-US" 2 num.

(** The hard-coded metadata of the wrapped-native token. *)
Definition WETH_METADATA : TokenMetadata := {| symbol := "WETH"; decimals := 18 |}.

(** The metadata returned when a contract call fails. *)
Definition fallback_metadata (address : string) : TokenMetadata :=
  {| symbol := JsString.slice 0 8 address; decimals := 18 |}.

(** A cache that holds nothing but the hard-coded value for the
    wrapped-native token, as every cache the module builds does. *)
Definition weth_consistent (cache : gmap string TokenMetadata) : Prop :=
  forall m, cache !! JsString.toLowerCase WETH_ADDRESS = Some m -> m = WETH_METADATA.

Section Aggregation.
Context `{Chain} `{Intl}.

(** The callback of [batchResults.forEach]: an address with a positive
    amount is recorded in [feesPerAddress] and pushed on
    [addressesWithFees]. *)
Definition record_fees (acc : JsMap.t Z * list string) (entry : string * Z)
  : JsMap.t Z * list string :=
  let '(feesPerAddress, addressesWithFees) := acc in
  let '(address, fees) := entry in
  if (fees >? 0)%Z
  then (JsMap.set address fees feesPerAddress, addressesWithFees ++ [address])
  else acc.

(** [for (let i = ...; i < allAddresses.length; i += MULTICALL_BATCH_SIZE)]
    from the index [i] on.  The loop is run with enough [fuel] for every
    batch; running out of it is an error of its own. *)
Fixpoint batch_loop (fuel : nat) (feeOwner : string) (allAddresses : list string)
    (i : nat) (acc : JsMap.t Z * list string) : M (JsMap.t Z * list string) :=
  match fuel with
  | O =>
      if (i <? length allAddresses)%nat then throw "out of fuel" else ret acc
  | S fuel' =>
      if (i <? length allAddresses)%nat then
        let batch := take MULTICALL_BATCH_SIZE (drop i allAddresses) in
        bind (getFeesForAddressesMulticall feeOwner batch) (fun batchResults =>
        batch_loop fuel' feeOwner allAddresses (i + MULTICALL_BATCH_SIZE)
          (fold_left record_fees (JsMap.entries batchResults) acc))
      else ret acc
  end.

(** [for (const address of addressesWithFees)]: one reward per address. *)
Fixpoint build_rewards (feesPerAddress : JsMap.t Z)
    (addressesWithFees : list string) (rewards : list RewardAsset)
  : M (list RewardAsset) :=
  match addressesWithFees with
  | [] => ret rewards
  | address :: rest =>
      bind (getTokenMetadata address) (fun metadata =>
      match JsMap.get address feesPerAddress with
      | Some amount =>
          build_rewards feesPerAddress rest
            (rewards ++
             [{| address := address;
                 reward_symbol := symbol metadata;
                 reward_decimals := decimals metadata;
                 amount := BigInt.toString amount;
                 formattedAmount := formatTokenAmount amount (decimals metadata) |}])
      | None => throw "TypeError: amount is undefined"
      end)
  end.

Definition getTotalClaimable (feeOwner : string) (tokenAddresses : list string)
  : M TotalClaimable :=
  let allAddresses := tokenAddresses ++ [WETH_ADDRESS] in
  bind (batch_loop (length allAddresses) feeOwner allAddresses 0 (JsMap.empty, []))
    (fun '(feesPerAddress, addressesWithFees) =>
  bind (build_rewards feesPerAddress addressesWithFees []) (fun rewards =>
  ret {| rewards := rewards; tokenAddresses := addressesWithFees |})).

(** The batches the loop of [getTotalClaimable] reads, from the index [i]
    on: [allAddresses.slice(i, i + MULTICALL_BATCH_SIZE)], then the batches
    from [i + MULTICALL_BATCH_SIZE] on. *)
Fixpoint batches (fuel : nat) (allAddresses : list string) (i : nat) : list (list string) :=
  match fuel with
  | O => []
  | S fuel' =>
      if (i <? length allAddresses)%nat
      then take MULTICALL_BATCH_SIZE (drop i allAddresses)
           :: batches fuel' allAddresses (i + MULTICALL_BATCH_SIZE)
      else []
  end.

(** The result maps of reading the given batches one after the other, and
    the state left (the reading stops at a batch whose read throws). *)
Fixpoint read_batches (feeOwner : string) (bs : list (list string)) (st : State)
  : list (JsMap.t Z) * State :=
  match bs with
  | [] => ([], st)
  | batch :: bs' =>
      match getFeesForAddressesMulticall feeOwner batch st with
      | (Normal batchResults, st1) =>
          let '(maps, st2) := read_batches feeOwner bs' st1 in
          (batchResults :: maps, st2)
      | (Throw _, st1) => ([], st1)
      end
  end.

(** What the loop of [getTotalClaimable] does with one result map. *)
Definition absorb (acc : JsMap.t Z * list string) (batchResults : JsMap.t Z)
  : JsMap.t Z * list string :=
  fold_left record_fees (JsMap.entries batchResults) acc.

(** The multicall requests among the requests sent. *)
Definition multicalls (sent : list Request) : list (list ContractCall) :=
  omap (fun r => match r with
                 | MulticallRequest contracts => Some contracts
                 | ReadContractRequest _ _ => None
                 end) sent.

End Aggregation.

(** Whether the map gives the address an amount, and in how many of the
    maps the address is given one. *)
Definition assigned (a : string) (m : JsMap.t Z) : bool :=
  match JsMap.get a m with
  | Some _ => true
  | None => false
  end.

Definition assignments (a : string) (maps : list (JsMap.t Z)) : nat :=
  length (List.filter (assigned a) maps).

(** The invariant of [feesPerAddress] and [addressesWithFees]: every address
    pushed has an amount recorded, and every amount recorded is positive. *)
Definition positive_fees (acc : JsMap.t Z * list string) : Prop :=
  (forall a, a ∈ snd acc -> is_Some (JsMap.get a (fst acc)))
  /\ (forall a z, JsMap.get a (fst acc) = Some z -> 0 < z).

(** What the claim-call builders return. *)
Record ClaimCall : Type := {
  to : string;
  data : string;
  functionName : string;
  args : string * string;
}.

Definition getClaimCalldata (feeOwner tokenAddress : string) : ClaimCall :=
  {| to := CLANKER_FEE_LOCKER_ADDRESS;
     functionName := "claim";
     args := (feeOwner, tokenAddress);
     data := EmptyString |}.

Definition getClaimWethCalldata (feeOwner : string) : ClaimCall :=
  {| to := CLANKER_FEE_LOCKER_ADDRESS;
     functionName := "claim";
     args := (feeOwner, WETH_ADDRESS);
     data := EmptyString |}.

Definition is_hex_digit (c : ascii) : bool :=
  let n := nat_of_ascii c in
  ((48 <=? n) && (n <=? 57) || (65 <=? n) && (n <=? 70) || (97 <=? n) && (n <=? 102))%nat.

Fixpoint all_hex (s : string) : bool :=
  match s with
  | EmptyString => true
  | String c s' => is_hex_digit c && all_hex s'
  end.

(** The shape of an ABI-encoded function call, as a wallet provider takes
    it in the [data] field of a transaction: ["0x"], then whole bytes in
    hexadecimal, the first four of them the function selector. *)
Definition is_encoded_call (payload : string) : bool :=
  String.prefix "0x" payload
  && all_hex (JsString.slice_from 2 payload)
  && (8 <=? String.length payload - 2)%nat
  && Nat.even (String.length payload - 2).

End Contracts.

(* ===================================================================== *)
(** * The shared schema *)
(* ===================================================================== *)

(** [TokensResponse]; the schema's [Token] is left open. *)
Record TokensResponse (Token : Type) : Type := {
  tokens : list Token;
  totalClaimable : Contracts.TotalClaimable;
}.
Arguments tokens {Token} _.
Arguments totalClaimable {Token} _.

(** The body the server answers with when it has nothing to report. *)
Definition empty_response {Token : Type} : TokensResponse Token :=
  {| tokens := [];
     totalClaimable := {| Contracts.rewards := []; Contracts.tokenAddresses := [] |} |}.

(* ===================================================================== *)
(** * server/routes.ts *)
(* ===================================================================== *)

(** What the routes see of the rest of the server: the clock, and
    [fetchTokensByCreator] of [./clanker], which answers [None] when its
    promise rejects. *)
Class Host : Type := {
  HostWorld : Type;
  Token : Type;
  Date_now : HostWorld -> HostWorld * Z;
  fetchTokensByCreator : HostWorld -> string -> HostWorld * option (TokensResponse Token);
}.

Module Routes.

Definition CACHE_TTL : Z := 60000.

(** A field of a JSON request body: absent, a string, or another value,
    of which a handler sees the truthiness alone ([null], [false] and [0]
    are falsy; other numbers, [true], arrays and objects are truthy, and
    none of them has a [toLowerCase] to call). *)
Inductive BodyField : Type :=
| FieldAbsent
| FieldString (s : string)
| FieldOther (truthy : bool).

Section WithHost.
Context `{Host}.

Record CacheEntry : Type := {
  entry_data : TokensResponse Token;
  timestamp : Z;
}.

(** The module's state: the world, the module-level [tokenCache], and
    the wallets [fetchTokensByCreator] was called with, oldest first (a
    ghost field). *)
Record State : Type := {
  world : HostWorld;
  tokenCache : gmap string CacheEntry;
  recomputations : list string;
}.

Definition set_world (w : HostWorld) (st : State) : State :=
  {| world := w; tokenCache := tokenCache st; recomputations := recomputations st |}.

Definition set_tokenCache (c : gmap string CacheEntry) (st : State) : State :=
  {| world := world st; tokenCache := c; recomputations := recomputations st |}.

(** The cache phase of [GET /api/tokens]: the cached body when the
    handler returns it, or the state the handler goes on with. *)
Definition cache_phase (forceRefresh : bool) (key : string) (st : State)
  : TokensResponse Token * State + State :=
  if negb forceRefresh then
    match tokenCache st !! key with
    | Some cached =>
        let '(w, now) := Date_now (world st) in
        if (now - timestamp cached <? CACHE_TTL)%Z
        then inl (entry_data cached, set_world w st)
        else inr (set_world w st)
    | None => inr st
    end
  else inr (set_tokenCache (delete key (tokenCache st)) st).

(** [app.get("/api/tokens", ...)] on the query fields [wallet] and
    [refresh] ([None]: the field is absent): the JSON body sent and the
    state left. *)
Definition get_api_tokens (wallet refresh : option string) (st : State)
  : TokensResponse Token * State :=
  let forceRefresh :=
    match refresh with
    | Some r => String.eqb r "true"
    | None => false
    end in
  match wallet with
  | None => (empty_response, st)
  | Some walletAddress =>
      if negb (JsString.truthy walletAddress) then (empty_response, st)
      else
        match cache_phase forceRefresh (JsString.toLowerCase walletAddress) st with
        | inl hit => hit
        | inr st1 =>
            let '(w, r) := fetchTokensByCreator (world st1) walletAddress in
            let st2 :=
              {| world := w;
                 tokenCache := tokenCache st1;
                 recomputations := recomputations st1 ++ [walletAddress] |} in
            match r with
            | Some data =>
                let '(w', now) := Date_now w in
                (data,
                 {| world := w';
                    tokenCache :=
                      <[JsString.toLowerCase walletAddress :=
                          {| entry_data := data; timestamp := now |}]>
                        (tokenCache st2);
                    recomputations := recomputations st2 |})
            | None => (empty_response, st2)
            end
        end
  end.

(** [app.post("/api/cache/invalidate", ...)] on [req.body] ([None]: there
    is no body to destructure): the body sent, [{ success: true }], or the
    [TypeError] thrown before anything is sent. *)
Definition post_cache_invalidate (body : option BodyField) (st : State)
  : Contracts.Completion bool * State :=
  match body with
  | None =>
      (Contracts.Throw "TypeError: Cannot destructure property 'walletAddress'", st)
  | Some FieldAbsent => (Contracts.Normal true, st)
  | Some (FieldString w) =>
      if JsString.truthy w
      then (Contracts.Normal true,
            set_tokenCache (delete (JsString.toLowerCase w) (tokenCache st)) st)
      else (Contracts.Normal true, st)
  | Some (FieldOther truthy) =>
      if truthy
      then (Contracts.Throw "TypeError: walletAddress.toLowerCase is not a function", st)
      else (Contracts.Normal true, st)
  end.

End WithHost.

End Routes.

(* ===================================================================== *)
(** * The Home page: the refresh and poll controller *)
(* ===================================================================== *)

Module Home.

Definition hex_digit (n : nat) : ascii :=
  if (n <? 10)%nat then ascii_of_nat (48 + n) else ascii_of_nat (55 + n).

(** The characters [encodeURIComponent] leaves as they are. *)
Definition is_unreserved (c : ascii) : bool :=
  let n := nat_of_ascii c in
  ((48 <=? n) && (n <=? 57) || (65 <=? n) && (n <=? 90) || (97 <=? n) && (n <=? 122))%nat
  || existsb (Ascii.eqb c) ["-"; "_"; "."; "!"; "~"; "*"; "'"; "("; ")"]%char.

Fixpoint encodeURIComponent (s : string) : string :=
  match s with
  | EmptyString => EmptyString
  | String c s' =>
      if is_unreserved c then String c (encodeURIComponent s')
      else
        let n := nat_of_ascii c in
        String "%" (String (hex_digit (n / 16)) (String (hex_digit (n mod 16))
          (encodeURIComponent s')))
  end.

(** The [options] argument; [None] is a field left out, which takes its
    default. *)
Record Options : Type := {
  forceRefresh : option bool;
  pollForZero : option bool;
  maxRetries : option Z;
  intervalMs : option Z;
}.

Definition no_options : Options :=
  {| forceRefresh := None; pollForZero := None; maxRetries := None; intervalMs := None |}.

Section WithToken.
Context {Token : Type}.

(** How one [fetch] of the tokens URL ends: the promise rejects (or the
    body is no JSON), the response is not [ok], or it carries a body. *)
Inductive FetchOutcome : Type :=
| FetchRejected
| ResponseNotOk
| ResponseOk (body : TokensResponse Token).

(** What a refresh does that is seen outside it. *)
Inductive Event : Type :=
| SetQueryData (value : option (TokensResponse Token))
| Fetched (url : string)
| Waited (ms : Z).

(** The component's state: [wallet?.address], the single-flight guard
    [refreshLockRef.current], the [isRefreshing] state, the answers the
    coming fetches will get (none left: the fetch rejects), and the
    events so far, oldest first, each with the value the guard had when
    it happened (a ghost field). *)
Record State : Type := {
  wallet_address : option string;
  refreshLockRef : bool;
  isRefreshing : bool;
  network : list FetchOutcome;
  trace : list (Event * bool);
}.

Definition emit (e : Event) (st : State) : State :=
  {| wallet_address := wallet_address st;
     refreshLockRef := refreshLockRef st;
     isRefreshing := isRefreshing st;
     network := network st;
     trace := trace st ++ [(e, refreshLockRef st)] |}.

Definition set_refreshing (b : bool) (st : State) : State :=
  {| wallet_address := wallet_address st;
     refreshLockRef := b;
     isRefreshing := b;
     network := network st;
     trace := trace st |}.

(** [await fetch(url)], the [response.ok] test and [await response.json()]:
    [None] when one of them throws. *)
Definition fetch_json (url : string) (st : State)
  : option (TokensResponse Token) * State :=
  let st' :=
    emit (Fetched url)
      {| wallet_address := wallet_address st;
         refreshLockRef := refreshLockRef st;
         isRefreshing := isRefreshing st;
         network := tail (network st);
         trace := trace st |} in
  match network st with
  | ResponseOk body :: _ => (Some body, st')
  | _ => (None, st')
  end.

(** [for (let attempt = ...; attempt <= attempts; attempt++)] with
    [remaining] iterations to go from [attempt] on, that is
    [attempts - attempt + 1] of them when that is positive; the value is
    what the [try] block returns, or [Throw]. *)
Fixpoint attempts_loop (remaining : nat) (attempt attempts : Z)
    (forceRefresh pollForZero : bool) (intervalMs : Z) (address : string)
    (lastResult : option (TokensResponse Token)) (st : State)
  : Contracts.Completion (option (TokensResponse Token)) * State :=
  match remaining with
  | O => (Contracts.Normal lastResult, st)
  | S remaining' =>
      let refreshParam := if forceRefresh then "&refresh=true" else EmptyString in
      let url := ("/api/tokens?wallet=" ++ encodeURIComponent address ++ refreshParam)%string in
      match fetch_json url st with
      | (None, st1) => (Contracts.Throw "Failed to fetch tokens", st1)
      | (Some data, st1) =>
          let st2 := emit (SetQueryData (Some data)) st1 in
          if pollForZero then
            if (length (Contracts.rewards (totalClaimable data)) =? 0)%nat
            then (Contracts.Normal (Some data), st2)
            else
              let st3 := if (attempt <? attempts)%Z then emit (Waited intervalMs) st2 else st2 in
              attempts_loop remaining' (attempt + 1) attempts
                forceRefresh pollForZero intervalMs address (Some data) st3
          else (Contracts.Normal (Some data), st2)
      end
  end.

(** [refreshClaimableRewards(options)]: the value the promise resolves
    to ([None] is [null]) and the state left. *)
Definition refreshClaimableRewards (options : Options) (st : State)
  : option (TokensResponse Token) * State :=
  let forceRefresh := default false (forceRefresh options) in
  let pollForZero := default false (pollForZero options) in
  let maxRetries := default 6 (maxRetries options) in
  let intervalMs := default 2500 (intervalMs options) in
  match wallet_address st with
  | None => (None, st)
  | Some address =>
      if negb (JsString.truthy address) then (None, st)
      else if refreshLockRef st then (None, st)
      else
        let st1 := emit (SetQueryData None) (set_refreshing true st) in
        let attempts := if pollForZero then maxRetries else 1 in
        let '(r, st2) :=
          attempts_loop (Z.to_nat attempts) 1 attempts
            forceRefresh pollForZero intervalMs address None st1 in
        let result :=
          match r with
          | Contracts.Normal v => v
          | Contracts.Throw _ => None
          end in
        (result, set_refreshing false st2)
  end.

(** The fetches and the waits among the events [tr], in order. *)
Definition schedule (tr : list (Event * bool)) : list Event :=
  List.filter
    (fun e => match e with SetQueryData _ => false | _ => true end)
    (map fst tr).

(** [k] fetches of [url], with a wait of [ms] between one and the next. *)
Fixpoint separated (k : nat) (url : string) (ms : Z) : list Event :=
  match k with
  | O => []
  | S k' =>
      match k' with
      | O => [Fetched url]
      | S _ => Fetched url :: Waited ms :: separated k' url ms
      end
  end.

(** The URL a refresh of [address] fetches. *)
Definition tokens_url (forceRefresh : bool) (address : string) : string :=
  ("/api/tokens?wallet=" ++ encodeURIComponent address
   ++ (if forceRefresh then "&refresh=true" else EmptyString))%string.

End WithToken.

Arguments FetchOutcome : clear implicits.
Arguments Event : clear implicits.
Arguments State : clear implicits.

End Home.

(* ===================================================================== *)
(** * More of JavaScript's strings *)
(* ===================================================================== *)

Module JsText.

(** [s.includes(sub)]. *)
Fixpoint includes (sub s : string) : bool :=
  String.prefix sub s
  || match s with
     | EmptyString => false
     | String _ s' => includes sub s'
     end.

(** [parts.join(sep)]. *)
Fixpoint join (sep : string) (parts : list string) : string :=
  match parts with
  | [] => EmptyString
  | p :: rest =>
      match rest with
      | [] => p
      | _ => (p ++ sep ++ join sep rest)%string
      end
  end.

(** [s.slice(-n)] for [0 < n]: the last [n] characters, or all of [s]. *)
Definition slice_last (n : nat) (s : string) : string :=
  JsString.slice_from (String.length s - n) s.

(** The text of a length or an index in a template literal. *)
Definition of_nat (n : nat) : string := JsNumber.digits (Z.of_nat n).

End JsText.

(* ===================================================================== *)
(** * The Farcaster hook *)
(* ===================================================================== *)

(** What a rejected promise or a [throw] carries: an [Error] with its
    message, or a value that is no [Error]. *)
Inductive Thrown : Type :=
| ErrorObject (message : string)
| OtherValue.

(** How an awaited call ends. *)
Inductive Outcome (A : Type) : Type :=
| Resolved (a : A)
| Rejected (e : Thrown).
Arguments Resolved {A} a.
Arguments Rejected {A} e.

(** [Wallet] of the shared schema. *)
Record Wallet : Type := {
  wallet_address : string;
  isConnected : bool;
  balance : Z;
}.

(** The object handed to [eth_sendTransaction]. *)
Record TransactionRequest : Type := {
  tx_from : string;
  tx_to : string;
  tx_data : string;
  tx_value : string;
  tx_chainId : string;
}.

(** The [params] of [sendTransaction]; [None] is a [value] left out. *)
Record TransactionParams : Type := {
  params_to : string;
  params_data : string;
  params_value : option string;
}.

(** [sdk.wallet.ethProvider] as [getEthereumProvider] finds it: reading
    it throws, it is missing, or it is there, with a [request] that is a
    function or not. *)
Inductive SdkProvider : Type :=
| ProviderThrows
| ProviderMissing
| ProviderPresent (request_is_function : bool).

(** What the page sees of the frame, the wallet provider and the browser.
    The provider answers each method with the type EIP-1193 gives it
    ([None] among the accounts is [null]); [waitForTransactionReceipt]
    answers the [status] of the receipt; [post_wallet_connect] is the
    [fetch] of [/api/wallet/connect] with its [response.json()];
    [buildBatchClaimTransaction] is the encoder of [@/lib/contracts]. *)
Class Client : Type := {
  ClientWorld : Type;
  FrameContext : Type;
  sdk_context : ClientWorld -> ClientWorld * Outcome (option FrameContext);
  sdk_actions_ready : ClientWorld -> ClientWorld * Outcome unit;
  mounted : ClientWorld -> bool;
  sdk_wallet_ethProvider : ClientWorld -> SdkProvider;
  eth_requestAccounts : ClientWorld -> ClientWorld * Outcome (option (list string));
  eth_chainId : ClientWorld -> ClientWorld * Outcome string;
  wallet_switchEthereumChain : ClientWorld -> string -> ClientWorld * Outcome unit;
  eth_sendTransaction : ClientWorld -> TransactionRequest -> ClientWorld * Outcome string;
  waitForTransactionReceipt : ClientWorld -> string -> ClientWorld * Outcome string;
  post_wallet_connect : ClientWorld -> ClientWorld * Outcome Wallet;
  crypto_randomUUID : ClientWorld -> ClientWorld * Outcome string;
  Date_toISOString : ClientWorld -> ClientWorld * string;
  buildBatchClaimTransaction : string -> list string -> Outcome TransactionParams;
}.

Module Farcaster.

(** A request that leaves the page through the hook. *)
Inductive Call : Type :=
| RequestAccounts
| ChainId
| SwitchEthereumChain (chainId : string)
| SendTransaction (tx : TransactionRequest)
| WaitForReceipt (hash : string)
| PostWalletConnect.

(** [TransactionResult], in the two shapes the hook builds:
    [{ success: true, txHash }] and [{ success: false, error }]. *)
Inductive TransactionResult : Type :=
| TxSuccess (txHash : string)
| TxFailure (error : string).

(** What [connectWallet] resolves to: the wallet, [{ error }], or [null]. *)
Inductive ConnectResult : Type :=
| Connected (wallet : Wallet)
| ConnectError (error : string)
| ConnectNull.

Definition baseChainId : string := "0x2105".

Section WithClient.
Context `{Client}.

(** [FarcasterState]. *)
Record FarcasterState : Type := {
  isSDKLoaded : bool;
  isInFrame : bool;
  context : option FrameContext;
  wallet : option Wallet;
  isConnecting : bool;
  error : option string;
}.

(** The hook at work: the world, its state, and the calls made so far,
    oldest first (a ghost field). *)
Record Session : Type := {
  world : ClientWorld;
  state : FarcasterState;
  calls : list Call;
}.

Definition setState (f : FarcasterState -> FarcasterState) (s : Session) : Session :=
  {| world := world s; state := f (state s); calls := calls s |}.

(** One awaited call: the world moves on and the call is noted. *)
Definition await {A : Type} (c : Call) (run : ClientWorld -> ClientWorld * Outcome A)
    (s : Session) : Outcome A * Session :=
  let '(w, r) := run (world s) in
  (r, {| world := w; state := state s; calls := calls s ++ [c] |}).

Definition getEthereumProvider (s : Session) : option bool :=
  match sdk_wallet_ethProvider (world s) with
  | ProviderPresent request_is_function => Some request_is_function
  | ProviderMissing => None
  | ProviderThrows => None
  end.

(** [error instanceof Error ? error.message : fallback]. *)
Definition message_or (fallback : string) (e : Thrown) : string :=
  match e with
  | ErrorObject message => message
  | OtherValue => fallback
  end.

(** The [catch] of [initializeSDK]. *)
Definition initializeSDK_failed (e : Thrown) (s : Session) : Session :=
  if negb (mounted (world s)) then s
  else
    setState (fun _ =>
      {| isSDKLoaded := true;
         isInFrame := false;
         context := None;
         wallet := None;
         isConnecting := false;
         error := Some (message_or "Failed to initialize Farcaster SDK" e) |}) s.

Definition initializeSDK (s : Session) : Session :=
  let '(w1, r) := sdk_context (world s) in
  let s1 := {| world := w1; state := state s; calls := calls s |} in
  match r with
  | Rejected e => initializeSDK_failed e s1
  | Resolved ctx =>
      if negb (mounted w1) then s1
      else
        match ctx with
        | Some c =>
            let '(w2, ready) := sdk_actions_ready w1 in
            let s2 := {| world := w2; state := state s; calls := calls s |} in
            match ready with
            | Rejected e => initializeSDK_failed e s2
            | Resolved _ =>
                setState (fun _ =>
                  {| isSDKLoaded := true;
                     isInFrame := true;
                     context := Some c;
                     wallet := None;
                     isConnecting := false;
                     error := None |}) s2
            end
        | None =>
            setState (fun _ =>
              {| isSDKLoaded := true;
                 isInFrame := false;
                 context := None;
                 wallet := None;
                 isConnecting := false;
                 error := None |}) s1
        end
  end.

(** [setState(prev => ({ ...prev, isConnecting: false, error: errorMsg }))]. *)
Definition connect_failed (errorMsg : string) (prev : FarcasterState) : FarcasterState :=
  {| isSDKLoaded := isSDKLoaded prev;
     isInFrame := isInFrame prev;
     context := context prev;
     wallet := wallet prev;
     isConnecting := false;
     error := Some errorMsg |}.

(** [setState(prev => ({ ...prev, wallet, isConnecting: false }))]. *)
Definition connect_done (w : option Wallet) (prev : FarcasterState) : FarcasterState :=
  {| isSDKLoaded := isSDKLoaded prev;
     isInFrame := isInFrame prev;
     context := context prev;
     wallet := w;
     isConnecting := false;
     error := error prev |}.

(** [connectWallet()], in a render whose [state] is that of [s]. *)
Definition connectWallet (s : Session) : ConnectResult * Session :=
  let s0 :=
    setState (fun prev =>
      {| isSDKLoaded := isSDKLoaded prev;
         isInFrame := isInFrame prev;
         context := context prev;
         wallet := wallet prev;
         isConnecting := true;
         error := None |}) s in
  if isInFrame (state s) then
    let unavailable (s' : Session) :=
      let errorMsg := "Farcaster wallet not available" in
      (ConnectError errorMsg, setState (connect_failed errorMsg) s') in
    match getEthereumProvider s0 with
    | Some true =>
        let '(r, s1) := await RequestAccounts eth_requestAccounts s0 in
        match r with
        | Rejected e =>
            let errorMsg := message_or "Failed to connect wallet" e in
            (ConnectError errorMsg, setState (connect_failed errorMsg) s1)
        | Resolved (Some (account :: _)) =>
            let wallet := {| wallet_address := account; isConnected := true; balance := 0 |} in
            (Connected wallet, setState (connect_done (Some wallet)) s1)
        | Resolved _ => unavailable s1
        end
    | _ => unavailable s0
    end
  else
    let '(r, s1) := await PostWalletConnect post_wallet_connect s0 in
    match r with
    | Resolved data => (Connected data, setState (connect_done (Some data)) s1)
    | Rejected _ => (ConnectNull, setState (connect_failed "Failed to connect wallet") s1)
    end.

Definition disconnectWallet (s : Session) : Session :=
  setState (fun prev =>
    {| isSDKLoaded := isSDKLoaded prev;
       isInFrame := isInFrame prev;
       context := context prev;
       wallet := None;
       isConnecting := isConnecting prev;
       error := error prev |}) s.

(** The outer [catch] of [sendTransaction]. *)
Definition transaction_failed (e : Thrown) : TransactionResult :=
  match e with
  | ErrorObject message =>
      if JsText.includes "rejected" message
         || JsText.includes "denied" message
         || JsText.includes "cancelled" message
      then TxFailure "Transaction rejected by user"
      else if JsText.includes "revert" message then TxFailure message
      else TxFailure message
  | OtherValue => TxFailure "Transaction failed"
  end.

(** [sendTransaction(params)], in a render whose [state] is that of [s]. *)
Definition sendTransaction (params : TransactionParams) (s : Session)
  : TransactionResult * Session :=
  match isInFrame (state s), wallet (state s) with
  | true, Some connected =>
      match getEthereumProvider s with
      | Some true =>
          let '(r1, s1) := await ChainId eth_chainId s in
          match r1 with
          | Rejected e => (transaction_failed e, s1)
          | Resolved currentChainId =>
              let send (s' : Session) :=
                let tx :=
                  {| tx_from := wallet_address connected;
                     tx_to := params_to params;
                     tx_data := params_data params;
                     tx_value :=
                       match params_value params with
                       | Some v => if JsString.truthy v then v else "0x0"
                       | None => "0x0"
                       end;
                     tx_chainId := baseChainId |} in
                let '(r3, s3) := await (SendTransaction tx) (fun w => eth_sendTransaction w tx) s' in
                match r3 with
                | Resolved txHash => (TxSuccess txHash, s3)
                | Rejected e => (transaction_failed e, s3)
                end in
              if negb (String.eqb currentChainId baseChainId) then
                let '(r2, s2) :=
                  await (SwitchEthereumChain baseChainId)
                    (fun w => wallet_switchEthereumChain w baseChainId) s1 in
                match r2 with
                | Rejected _ => (TxFailure "Please switch to Base network to claim rewards", s2)
                | Resolved _ => send s2
                end
              else send s1
          end
      | _ => (TxFailure "Ethereum provider not available", s)
      end
  | _, _ => (TxFailure "Wallet not connected or not in Farcaster frame", s)
  end.

(** [waitForTransaction(txHash)]. *)
Definition waitForTransaction (txHash : string) (s : Session) : bool * Session :=
  if negb (isInFrame (state s)) then (false, s)
  else
    let '(r, s1) :=
      await (WaitForReceipt txHash) (fun w => waitForTransactionReceipt w txHash) s in
    match r with
    | Resolved status => (String.eqb status "success", s1)
    | Rejected _ => (false, s1)
    end.

End WithClient.

End Farcaster.

(* ===================================================================== *)
(** * The Home page: connecting and claiming *)
(* ===================================================================== *)

Module Claiming.

(** [Transaction] of the shared schema, as the page builds it. *)
Record Transaction : Type := {
  id : string;
  type : string;
  rewards : list Contracts.RewardAsset;
  tokensClaimed : list string;
  poolAddresses : list string;
  timestamp : string;
  txHash : string;
}.

(** The argument of [toast]; [destructive] is [variant: "destructive"]. *)
Record Toast : Type := {
  title : string;
  description : string;
  destructive : bool;
}.

Section WithClient.
Context `{Client} {Token : Type}.

(** The page: the hook, the refresh controller, the query data, the
    claim state, the history, and (ghost fields) the toasts shown and the
    refreshes handed to [setTimeout] with their delays, oldest first.  The
    page has one wallet, the hook's; [Home.wallet_address] of [home] is
    not read. *)
Record Page : Type := {
  session : Farcaster.Session;
  home : Home.State Token;
  tokensData : option (TokensResponse Token);
  isClaiming : bool;
  claimStatus : option string;
  transactions : list Transaction;
  toasts : list Toast;
  timeouts : list (Z * Home.Options);
}.

Definition set_session (s : Farcaster.Session) (p : Page) : Page :=
  {| session := s; home := home p; tokensData := tokensData p;
     isClaiming := isClaiming p; claimStatus := claimStatus p;
     transactions := transactions p; toasts := toasts p; timeouts := timeouts p |}.

Definition set_home (h : Home.State Token) (p : Page) : Page :=
  {| session := session p; home := h; tokensData := tokensData p;
     isClaiming := isClaiming p; claimStatus := claimStatus p;
     transactions := transactions p; toasts := toasts p; timeouts := timeouts p |}.

Definition setIsClaiming (b : bool) (p : Page) : Page :=
  {| session := session p; home := home p; tokensData := tokensData p;
     isClaiming := b; claimStatus := claimStatus p;
     transactions := transactions p; toasts := toasts p; timeouts := timeouts p |}.

Definition setClaimStatus (status : option string) (p : Page) : Page :=
  {| session := session p; home := home p; tokensData := tokensData p;
     isClaiming := isClaiming p; claimStatus := status;
     transactions := transactions p; toasts := toasts p; timeouts := timeouts p |}.

Definition setTransactions (f : list Transaction -> list Transaction) (p : Page) : Page :=
  {| session := session p; home := home p; tokensData := tokensData p;
     isClaiming := isClaiming p; claimStatus := claimStatus p;
     transactions := f (transactions p); toasts := toasts p; timeouts := timeouts p |}.

Definition toast (t : Toast) (p : Page) : Page :=
  {| session := session p; home := home p; tokensData := tokensData p;
     isClaiming := isClaiming p; claimStatus := claimStatus p;
     transactions := transactions p; toasts := toasts p ++ [t]; timeouts := timeouts p |}.

Definition setTimeout (options : Home.Options) (ms : Z) (p : Page) : Page :=
  {| session := session p; home := home p; tokensData := tokensData p;
     isClaiming := isClaiming p; claimStatus := claimStatus p;
     transactions := transactions p; toasts := toasts p;
     timeouts := timeouts p ++ [(ms, options)] |}.

(** [wallet] of the hook. *)
Definition wallet (p : Page) : option Wallet :=
  Farcaster.wallet (Farcaster.state (session p)).

Definition isInFrame (p : Page) : bool :=
  Farcaster.isInFrame (Farcaster.state (session p)).

(** [tokensData?.totalClaimable ?? { rewards: [], tokenAddresses: [] }]. *)
Definition page_totalClaimable (p : Page) : Contracts.TotalClaimable :=
  match tokensData p with
  | Some data => totalClaimable data
  | None => {| Contracts.rewards := []; Contracts.tokenAddresses := [] |}
  end.

(** Whether [handleClaimAll] goes on to claim: a wallet with an address,
    rewards and addresses to claim, a frame, and no claim or refresh
    under way. *)
Definition claimable (p : Page) : bool :=
  match wallet p with
  | Some connected =>
      JsString.truthy (wallet_address connected)
      && negb (length (Contracts.rewards (page_totalClaimable p)) =? 0)%nat
      && isInFrame p
      && negb (isClaiming p || Home.isRefreshing (home p))
      && negb (length (Contracts.tokenAddresses (page_totalClaimable p)) =? 0)%nat
  | None => false
  end.

(** [refreshClaimableRewards(options)] of the page: the controller run
    with the wallet of the hook. *)
Definition refreshClaimableRewards (options : Home.Options) (p : Page)
  : option (TokensResponse Token) * Page :=
  let '(result, h) :=
    Home.refreshClaimableRewards options
      {| Home.wallet_address := option_map wallet_address (wallet p);
         Home.refreshLockRef := Home.refreshLockRef (home p);
         Home.isRefreshing := Home.isRefreshing (home p);
         Home.network := Home.network (home p);
         Home.trace := Home.trace (home p) |} in
  (result, set_home h p).

Definition handleConnect (p : Page) : Page :=
  let '(result, s) := Farcaster.connectWallet (session p) in
  let p1 := set_session s p in
  match result with
  | Farcaster.ConnectError error =>
      toast {| title := "Connection Failed"; description := error; destructive := true |} p1
  | Farcaster.Connected connected =>
      let p2 :=
        toast
          {| title := "Wallet Connected";
             description :=
               if isInFrame p
               then "Connected via Farcaster Frame"
               else ("Connected to " ++ JsString.slice 0 6 (wallet_address connected)
                     ++ "..." ++ JsText.slice_last 4 (wallet_address connected))%string;
             destructive := false |} p1 in
      setTimeout
        {| Home.forceRefresh := Some true; Home.pollForZero := None;
           Home.maxRetries := None; Home.intervalMs := None |}
        100 p2
  | Farcaster.ConnectNull => p1
  end.

Definition handleDisconnect (p : Page) : Page :=
  toast
    {| title := "Wallet Disconnected";
       description := "Your wallet has been disconnected.";
       destructive := false |}
    (set_session (Farcaster.disconnectWallet (session p)) p).

(** The [catch] of [handleClaimAll]. *)
Definition claim_error (e : Thrown) (p : Page) : Page :=
  setClaimStatus None
    (setIsClaiming false
       (toast
          {| title := "Claim Failed";
             description := Farcaster.message_or "Failed to complete claim" e;
             destructive := true |} p)).

Definition handleClaimAll (p : Page) : Page :=
  match wallet p with
  | None => p
  | Some connected =>
      if negb (JsString.truthy (wallet_address connected)) then p
      else if (length (Contracts.rewards (page_totalClaimable p)) =? 0)%nat then
        toast {| title := "Nothing to Claim";
                 description := "You don't have any fees to claim.";
                 destructive := true |} p
      else if negb (isInFrame p) then
        toast {| title := "Claiming Unavailable";
                 description := "Real claims require a Farcaster wallet. Please open this app in a Farcaster frame.";
                 destructive := true |} p
      else if isClaiming p || Home.isRefreshing (home p) then p
      else
        let claimableAddresses := Contracts.tokenAddresses (page_totalClaimable p) in
        if (length claimableAddresses =? 0)%nat then
          toast {| title := "Nothing to Claim";
                   description := "No tokens with claimable fees found.";
                   destructive := true |} p
        else
          let p := setIsClaiming true p in
          let preclaimRewards := Contracts.rewards (page_totalClaimable p) in
          let count := JsText.of_nat (length claimableAddresses) in
          let p :=
            setClaimStatus
              (Some ("Claiming " ++ count ++ " tokens in one transaction...")%string) p in
          match buildBatchClaimTransaction (wallet_address connected) claimableAddresses with
          | Rejected e => claim_error e p
          | Resolved tx =>
              let p :=
                toast {| title := "Confirm Transaction";
                         description := ("Claiming fees from " ++ count ++ " tokens")%string;
                         destructive := false |} p in
              let '(result, s) := Farcaster.sendTransaction tx (session p) in
              let p := set_session s p in
              match result with
              | Farcaster.TxFailure error =>
                  let p :=
                    if JsText.includes "rejected" error || JsText.includes "cancelled" error
                    then
                      toast {| title := "Claim Cancelled";
                               description := "You cancelled the claim operation.";
                               destructive := true |} p
                    else
                      toast {| title := "Claim Failed";
                               description :=
                                 if JsString.truthy error then error else "Transaction failed";
                               destructive := true |} p in
                  setClaimStatus None (setIsClaiming false p)
              | Farcaster.TxSuccess hash =>
                  let p := setClaimStatus (Some "Waiting for confirmation...") p in
                  let '(confirmed, s) := Farcaster.waitForTransaction hash (session p) in
                  let p := set_session s p in
                  if confirmed then
                    let p := setClaimStatus (Some "Refreshing balances...") p in
                    let '(_, p) :=
                      refreshClaimableRewards
                        {| Home.forceRefresh := Some true; Home.pollForZero := Some true;
                           Home.maxRetries := None; Home.intervalMs := None |} p in
                    let p := setClaimStatus None (setIsClaiming false p) in
                    let claimedSymbols := map Contracts.reward_symbol preclaimRewards in
                    let '(w1, uuid) := crypto_randomUUID (Farcaster.world (session p)) in
                    let p :=
                      set_session
                        {| Farcaster.world := w1;
                           Farcaster.state := Farcaster.state (session p);
                           Farcaster.calls := Farcaster.calls (session p) |} p in
                    match uuid with
                    | Rejected e => claim_error e p
                    | Resolved uuid =>
                        let '(w2, now) := Date_toISOString (Farcaster.world (session p)) in
                        let p :=
                          set_session
                            {| Farcaster.world := w2;
                               Farcaster.state := Farcaster.state (session p);
                               Farcaster.calls := Farcaster.calls (session p) |} p in
                        let newTransaction :=
                          {| id := uuid;
                             type := "batch";
                             rewards := preclaimRewards;
                             tokensClaimed := claimedSymbols;
                             poolAddresses := claimableAddresses;
                             timestamp := now;
                             txHash := hash |} in
                        let p := setTransactions (fun prev => newTransaction :: prev) p in
                        let rewardsSummary :=
                          JsText.join ", "
                            (map (fun r => (Contracts.formattedAmount r ++ " "
                                            ++ Contracts.reward_symbol r)%string)
                                 preclaimRewards) in
                        toast {| title := "Claim Complete";
                                 description :=
                                   ("Successfully claimed " ++ rewardsSummary)%string;
                                 destructive := false |} p
                    end
                  else
                    toast {| title := "Claim Failed";
                             description := "Transaction was not confirmed. Please try again.";
                             destructive := true |}
                      (setClaimStatus None (setIsClaiming false p))
              end
          end
  end.

End WithClient.

Arguments Page {_} Token.

End Claiming.

(* ===================================================================== *)
(** * server/routes.ts: the demo wallet *)
(* ===================================================================== *)

(** What the demo wallet route sees of the engine: [Math.random()], a
    double held as the rational it denotes. *)
Class Engine : Type := {
  EngineWorld : Type;
  Math_random : EngineWorld -> EngineWorld * Q;
}.

Module WalletRoute.

(** [n.toString(16)] of an integer [n]. *)
Definition toString16 (n : Z) : string :=
  ((if (n <? 0)%Z then "-" else EmptyString)
   ++ HexadecimalString.NilZero.string_of_uint (N.to_hex_uint (Z.abs_N n)))%string.

Section WithEngine.
Context `{Engine}.

(** [Array(count).fill(0).map(() => Math.floor(Math.random() * 16).toString(16))]:
    the product by 16 of a double under 1 is exact. *)
Fixpoint random_digits (count : nat) (w : EngineWorld) : list string * EngineWorld :=
  match count with
  | O => ([], w)
  | S count' =>
      let '(w1, r) := Math_random w in
      let digit := toString16 (Qfloor (r * 16)%Q) in
      let '(rest, w2) := random_digits count' w1 in
      (digit :: rest, w2)
  end.

(** [app.post("/api/wallet/connect", ...)]: the JSON body sent. *)
Definition post_api_wallet_connect (w : EngineWorld) : Wallet * EngineWorld :=
  let '(digits, w') := random_digits 40 w in
  ({| wallet_address := ("0x" ++ JsText.join EmptyString digits)%string;
      isConnected := true;
      balance := 0 |}, w').

End WithEngine.

End WalletRoute.

(* ===================================================================== *)
(** * Sample data *)
(* ===================================================================== *)

(** Concrete values on which the statements below are run. *)
Module Samples.
Import Contracts.

Definition owner : string := "0xabcdef1111111111111111111111111111111111".

Definition weth_reward : RewardAsset :=
  {| address := WETH_ADDRESS;
     reward_symbol := "WETH";
     reward_decimals := 18;
     amount := "500000000000000000";
     formattedAmount := "0.500000" |}.

(** A response with one reward left, and one with none. *)
Definition one_reward : TokensResponse unit :=
  {| tokens := [tt];
     totalClaimable := {| rewards := [weth_reward]; tokenAddresses := [WETH_ADDRESS] |} |}.

Definition no_reward : TokensResponse unit :=
  {| tokens := [tt];
     totalClaimable := {| rewards := []; tokenAddresses := [] |} |}.

(** The page of a connected wallet, with the guard as given and the
    coming answers of the server. *)
Definition home (lock : bool) (answers : list (Home.FetchOutcome unit)) : Home.State unit :=
  {| Home.wallet_address := Some owner;
     Home.refreshLockRef := lock;
     Home.isRefreshing := lock;
     Home.network := answers;
     Home.trace := [] |}.

(** The same wallet as the wallet provider may spell it. *)
Definition owner_mixed_case : string := "0xABCdef1111111111111111111111111111111111".

(** A host whose clock reads the world and moves it on by one second, and
    whose discovery always returns [one_reward]. *)
Definition host : Host :=
  {| HostWorld := Z;
     Token := unit;
     Date_now := fun w => (w + 1000, w);
     fetchTokensByCreator := fun w _ => (w, Some one_reward) |}.

(** The server as it starts: nothing cached. *)
Definition fresh_server : Routes.State (H := host) :=
  @Routes.Build_State host 0 ∅ [].

(** A chain on which the wrapped-native token has half an ether of fees
    for every owner and no other token has any; every token reads as
    ["TKN"] with 18 decimals. *)
Definition chain : Chain :=
  {| World := unit;
     multicall := fun w contracts =>
       (w, Some (fun i =>
                   match contracts !! i with
                   | Some call =>
                       match call_args call with
                       | [_; token] =>
                           if String.eqb token WETH_ADDRESS
                           then Success 500000000000000000
                           else Success 0
                       | _ => Failure
                       end
                   | None => Failure
                   end));
     readSymbol := fun w _ => (w, Some "TKN");
     readDecimals := fun w _ => (w, Some 18%nat) |}.

(** Digits in groups of three, from the right. *)
Fixpoint group3 (reversed : string) (n : nat) : string :=
  match reversed with
  | EmptyString => EmptyString
  | String c s' =>
      match n with
      | 3%nat => String "," (String c (group3 s' 1))
      | _ => String c (group3 s' (S n))
      end
  end.

(** An [Intl] that formats as ECMA-402 describes for [en-US]: the value
    rounded to the fraction digits, half away from zero; the integer digits
    in groups of three; the fraction without trailing zeros. *)
Definition en_US_format (maximumFractionDigits : nat) (num : JsNumber.t) : string :=
  match num with
  | JsNumber.Finite x =>
      let scale := 10 ^ Z.of_nat maximumFractionDigits in
      let n := JsNumber.round_half_up (Qabs x * inject_Z scale)%Q in
      let integer := JsString.rev (group3 (JsString.rev (JsNumber.digits (n / scale))) 0) in
      let fraction :=
        JsString.strip_trailing_zeros
          (JsString.padStart0 maximumFractionDigits (JsNumber.digits (n mod scale))) in
      ((if Qle_bool 0%Q x then EmptyString else "-")
       ++ integer
       ++ (if JsString.truthy fraction then "." ++ fraction else EmptyString))%string
  | JsNumber.PosInfinity => "Infinity"
  | JsNumber.NegInfinity => "-Infinity"
  | JsNumber.NaN => "NaN"
  end.

Definition intl : Intl := {| NumberFormat_format := fun _ => en_US_format |}.

(** The contracts module as it starts: nothing cached, nothing sent. *)
Definition fresh_contracts : Contracts.State (H := chain) :=
  @Contracts.Build_State chain tt ∅ [].

(** 499 token addresses, none of them the wrapped-native one. *)
Definition other_tokens : list string :=
  map (fun i => ("0x" ++ JsString.padStart0 3 (JsNumber.digits (Z.of_nat i))
                 ++ JsString.replicate 37 "0"%char)%string)
      (seq 1 499).

(** 600 token addresses, none of them the wrapped-native one: with it
    they fill two batches. *)
Definition many_tokens : list string :=
  map (fun i => ("0x" ++ JsString.padStart0 3 (JsNumber.digits (Z.of_nat i))
                 ++ JsString.replicate 37 "0"%char)%string)
      (seq 1 600).

(** Whether no text of the list is repeated. *)
Fixpoint distinct (l : list string) : bool :=
  match l with
  | [] => true
  | a :: l' => negb (existsb (String.eqb a) l') && distinct l'
  end.

(** Three token addresses, none of them the wrapped-native one. *)
Definition few_tokens : list string :=
  ["0x0010000000000000000000000000000000000000";
   "0x0020000000000000000000000000000000000000";
   "0x0030000000000000000000000000000000000000"].

(** The options of the refresh after a claim, with three attempts. *)
Definition poll_three : Home.Options :=
  {| Home.forceRefresh := Some true;
     Home.pollForZero := Some true;
     Home.maxRetries := Some 3;
     Home.intervalMs := None |}.

(** A host like [host] whose discovery always fails. *)
Definition failing_host : Host :=
  {| HostWorld := Z;
     Token := unit;
     Date_now := fun w => (w + 1000, w);
     fetchTokensByCreator := fun w _ => (w, None) |}.

(** The server of [host] when its clock reads 60000 and its cache holds,
    for [owner], the snapshot [no_reward] stored at the time 0. *)
Definition stale_server : Routes.State (H := host) :=
  @Routes.Build_State host 60000
    {[ JsString.toLowerCase owner
       := @Routes.Build_CacheEntry host no_reward 0 ]} [].

(** The server of [failing_host] as it starts. *)
Definition failing_server : Routes.State (H := failing_host) :=
  @Routes.Build_State failing_host 0 ∅ [].

(** A chain that cannot be reached: every request fails. *)
Definition unreachable_chain : Chain :=
  {| World := unit;
     multicall := fun w _ => (w, None);
     readSymbol := fun w _ => (w, None);
     readDecimals := fun w _ => (w, None) |}.

(** The call the sample encoder builds, whatever the tokens. *)
Definition batch_call : TransactionParams :=
  {| params_to := Contracts.MULTICALL3_ADDRESS;
     params_data := "0x82ad56cb";
     params_value := None |}.

(** A client in a frame, on Base, whose wallet answers a transaction
    with [sent]; receipts report success. *)
Definition client (sent : Outcome string) : Client :=
  {| ClientWorld := unit;
     FrameContext := unit;
     sdk_context := fun w => (w, Resolved (Some tt));
     sdk_actions_ready := fun w => (w, Resolved tt);
     mounted := fun _ => true;
     sdk_wallet_ethProvider := fun _ => ProviderPresent true;
     eth_requestAccounts := fun w => (w, Resolved (Some [owner]));
     eth_chainId := fun w => (w, Resolved "0x2105");
     wallet_switchEthereumChain := fun w _ => (w, Resolved tt);
     eth_sendTransaction := fun w _ => (w, sent);
     waitForTransactionReceipt := fun w _ => (w, Resolved "success");
     post_wallet_connect :=
       fun w => (w, Resolved {| wallet_address := owner;
                                isConnected := true;
                                balance := 0 |});
     crypto_randomUUID := fun w => (w, Resolved "7b0e3b0a-5c1d-4a57-9d0e-2f4b8c6a1e00");
     Date_toISOString := fun w => (w, "2025-01-01T00:00:00.000Z");
     buildBatchClaimTransaction := fun _ _ => Resolved batch_call |}.

(** A wallet that refuses to sign. *)
Definition denying_client : Client :=
  client (Rejected (ErrorObject "User denied transaction signature")).

(** The page of [owner], connected, with one reward on display. *)
Definition claim_page (c : Client) (inFrame : bool) (w : @ClientWorld c)
  : @Claiming.Page c unit :=
  @Claiming.Build_Page c unit
    (@Farcaster.Build_Session c w
       (@Farcaster.Build_FarcasterState c true inFrame None
          (Some {| wallet_address := owner; isConnected := true; balance := 0 |})
          false None)
       [])
    (home false [])
    (Some one_reward)
    false None [] [] [].

(** An engine whose random numbers run through the sixteenths. *)
Definition engine : Engine :=
  {| EngineWorld := Z;
     Math_random := fun w => ((w + 1)%Z, (inject_Z (w mod 16) / 16)%Q) |}.

End Samples.

(* ===================================================================== *)
(** * The claim-call builders *)
(* ===================================================================== *)

Section ClaimBuilders.
Import Contracts.

(** C1, as amended.  For every owner and token address, the claim-call
    builder is a pure function of its two arguments that returns the call
    described, not encoded: [to] is the fee-locker address, [functionName]
    is ["claim"], [args] is the pair of owner and token, and [data] is the
    empty string. *)
Theorem getClaimCalldata_describes_call (feeOwner tokenAddress : string) :
  let call := getClaimCalldata feeOwner tokenAddress in
  to call = CLANKER_FEE_LOCKER_ADDRESS
  /\ functionName call = "claim"
  /\ args call = (feeOwner, tokenAddress)
  /\ data call = EmptyString.
Proof. cbn. repeat split. Qed.

(** C1, as stated, fails: the [data] of a built call is not an encoded
    payload (it is empty, whatever the owner and the token). *)
Lemma getClaimCalldata_data_not_encoded :
  let call := getClaimCalldata "0x1111111111111111111111111111111111111111" WETH_ADDRESS in
  to call = CLANKER_FEE_LOCKER_ADDRESS
  /\ data call = EmptyString
  /\ is_encoded_call (data call) = false.
Proof. cbn. repeat split. Qed.

(** C10.  The WETH claim builder is the generic builder at the
    wrapped-native token address. *)
Theorem getClaimWethCalldata_is_getClaimCalldata (feeOwner : string) :
  getClaimWethCalldata feeOwner = getClaimCalldata feeOwner WETH_ADDRESS.
Proof. reflexivity. Qed.

End ClaimBuilders.

(* ===================================================================== *)
(** * The single-flight guard and the poll loop *)
(* ===================================================================== *)

Section HomeFacts.
Import Home.
Context {Token : Type}.

Implicit Types (st : Home.State Token) (options : Options).

Lemma fetch_json_frame url st :
  let st' := snd (fetch_json url st) in
  wallet_address st' = wallet_address st
  /\ refreshLockRef st' = refreshLockRef st
  /\ isRefreshing st' = isRefreshing st
  /\ network st' = tail (network st)
  /\ trace st' = trace st ++ [(Fetched url, refreshLockRef st)].
Proof.
  unfold fetch_json. destruct (network st) as [|[| |body] rest]; cbn; auto.
Qed.

(** The loop leaves the wallet, the guard and [isRefreshing] alone, and
    each of its events happens under the guard it started with. *)
Lemma attempts_loop_frame remaining :
  forall attempt attempts fr pz ms addr last st r st',
    attempts_loop remaining attempt attempts fr pz ms addr last st = (r, st') ->
    wallet_address st' = wallet_address st
    /\ refreshLockRef st' = refreshLockRef st
    /\ isRefreshing st' = isRefreshing st
    /\ exists events,
         trace st' = trace st ++ events
         /\ Forall (fun e => snd e = refreshLockRef st) events.
Proof.
  induction remaining as [|remaining IH]; intros attempt attempts fr pz ms addr last st r st' Hrun.
  - cbn in Hrun. inversion Hrun; subst. repeat split; auto.
    exists []. rewrite app_nil_r. auto.
  - cbn [attempts_loop] in Hrun.
    set (url := ("/api/tokens?wallet=" ++ encodeURIComponent addr
                 ++ (if fr then "&refresh=true" else EmptyString))%string) in *.
    destruct (fetch_json_frame url st) as (Hw & Hl & Hr & _ & Ht).
    destruct (fetch_json url st) as [[data|] st1] eqn:Hfetch; cbn [snd] in *.
    + assert (Hdone : forall stx,
                 wallet_address stx = wallet_address st ->
                 refreshLockRef stx = refreshLockRef st ->
                 isRefreshing stx = isRefreshing st ->
                 (exists evs, trace stx = trace st ++ evs
                              /\ Forall (fun e => snd e = refreshLockRef st) evs) ->
                 (r, st') = (Contracts.Normal (Some data), stx) ->
                 wallet_address st' = wallet_address st
                 /\ refreshLockRef st' = refreshLockRef st
                 /\ isRefreshing st' = isRefreshing st
                 /\ exists events, trace st' = trace st ++ events
                      /\ Forall (fun e => snd e = refreshLockRef st) events).
      { intros stx ? ? ? ? Heq. inversion Heq; subst. auto. }
      assert (H2 : exists evs,
                 trace (emit (SetQueryData (Some data)) st1) = trace st ++ evs
                 /\ Forall (fun e => snd e = refreshLockRef st) evs).
      { exists [(Fetched url, refreshLockRef st);
                (SetQueryData (Some data), refreshLockRef st)].
        cbn. rewrite Ht, Hl, <- app_assoc. split; [reflexivity|].
        repeat constructor. }
      destruct pz.
      * destruct (length (Contracts.rewards (totalClaimable data)) =? 0)%nat.
        -- apply (Hdone (emit (SetQueryData (Some data)) st1)); auto.
        -- apply IH in Hrun. destruct Hrun as (Hw' & Hl' & Hr' & evs & Ht' & Hall).
           destruct (attempt <? attempts)%Z; cbn in Hw', Hl', Hr', Ht', Hall;
             rewrite ?Hw, ?Hl, ?Hr in *; repeat split; auto.
           ++ exists ([(Fetched url, refreshLockRef st);
                       (SetQueryData (Some data), refreshLockRef st);
                       (Waited ms, refreshLockRef st)] ++ evs).
              rewrite Ht', Ht. rewrite <- !app_assoc. split; [reflexivity|].
              apply Forall_app. split; [repeat constructor | exact Hall].
           ++ exists ([(Fetched url, refreshLockRef st);
                       (SetQueryData (Some data), refreshLockRef st)] ++ evs).
              rewrite Ht', Ht. rewrite <- !app_assoc. split; [reflexivity|].
              apply Forall_app. split; [repeat constructor | exact Hall].
      * apply (Hdone (emit (SetQueryData (Some data)) st1)); auto.
    + inversion Hrun; subst. repeat split; auto.
      exists [(Fetched url, refreshLockRef st)]. split; [exact Ht|].
      repeat constructor.
Qed.

(** C3.  While the single-flight guard is set, a call of
    [refreshClaimableRewards] returns null at once: no fetch, no event,
    the state as it was, so whatever an earlier call stored is untouched.
    A call that finds the guard free leaves it free on every exit path,
    whatever the fetches answer (a body, a response that is not ok, a
    rejection, poll exhaustion), and everything it did happened with the
    guard set. *)
Theorem refresh_single_flight options st :
  (refreshLockRef st = true ->
     refreshClaimableRewards options st = (None, st))
  /\ (refreshLockRef st = false ->
        forall result st',
          refreshClaimableRewards options st = (result, st') ->
          refreshLockRef st' = false
          /\ exists events,
               trace st' = trace st ++ events
               /\ Forall (fun e => snd e = true) events).
Proof.
  split.
  - intros Hlock. unfold refreshClaimableRewards.
    destruct (wallet_address st) as [address|]; [|reflexivity].
    destruct (JsString.truthy address); cbn [negb]; [|reflexivity].
    rewrite Hlock. reflexivity.
  - intros Hlock result st' Hrun. unfold refreshClaimableRewards in Hrun.
    destruct (wallet_address st) as [address|].
    2:{ inversion Hrun; subst. split; [exact Hlock|].
        exists []. rewrite app_nil_r. auto. }
    destruct (JsString.truthy address); cbn [negb] in Hrun.
    2:{ inversion Hrun; subst. split; [exact Hlock|].
        exists []. rewrite app_nil_r. auto. }
    rewrite Hlock in Hrun.
    match type of Hrun with
    | (let '(_, _) := ?loop in _) = _ => destruct loop as [r st2] eqn:Hloop
    end.
    apply attempts_loop_frame in Hloop.
    destruct Hloop as (_ & _ & _ & evs & Ht & Hall). cbn in Ht, Hall.
    inversion Hrun; subst. cbn. split; [reflexivity|].
    exists ((SetQueryData None, true) :: evs).
    rewrite Ht, <- app_assoc. split; [reflexivity|].
    constructor; [reflexivity | exact Hall].
Qed.

End HomeFacts.

Section PollLoop.
Import Home.
Context {Token : Type}.

Implicit Types (st : Home.State Token) (options : Options).
Implicit Types (data : TokensResponse Token).

Lemma schedule_app (a b : list (Event Token * bool)) :
  schedule (a ++ b) = schedule a ++ schedule b.
Proof. unfold schedule. rewrite map_app, List.filter_app. reflexivity. Qed.

Lemma separated_snoc (k : nat) (url : string) (ms : Z) :
  concat (replicate k [Fetched (Token := Token) url; Waited ms]) ++ [Fetched url]
  = separated (S k) url ms.
Proof.
  induction k as [|k IH]; [reflexivity|].
  change (Fetched url :: Waited ms
          :: (concat (replicate k [Fetched (Token := Token) url; Waited ms]) ++ [Fetched url])
          = Fetched url :: Waited ms :: separated (S k) url ms).
  rewrite IH. reflexivity.
Qed.

(** One attempt that fetches a snapshot with rewards left. *)
Lemma attempts_loop_nonzero_step remaining attempt attempts fr ms addr lastResult st data rest :
  network st = ResponseOk data :: rest ->
  Contracts.rewards (totalClaimable data) <> [] ->
  exists st3,
    attempts_loop (S remaining) attempt attempts fr true ms addr lastResult st
    = attempts_loop remaining (attempt + 1) attempts fr true ms addr (Some data) st3
    /\ network st3 = rest
    /\ wallet_address st3 = wallet_address st
    /\ refreshLockRef st3 = refreshLockRef st
    /\ isRefreshing st3 = isRefreshing st
    /\ exists evs,
         trace st3 = trace st ++ evs
         /\ schedule evs
            = Fetched (tokens_url fr addr)
                :: (if (attempt <? attempts)%Z then [Waited ms] else []).
Proof.
  intros Hnet Hnz. cbn [attempts_loop]. unfold fetch_json. rewrite Hnet.
  destruct (Contracts.rewards (totalClaimable data)) as [|r0 rs] eqn:Hr; [congruence|].
  cbn [length Nat.eqb].
  eexists. split; [reflexivity|].
  destruct (attempt <? attempts)%Z; cbn; repeat split; auto.
  - eexists. rewrite <- !app_assoc. split; [reflexivity|]. reflexivity.
  - eexists. rewrite <- !app_assoc. split; [reflexivity|]. reflexivity.
Qed.

(** Attempts that all fetch snapshots with rewards left, with at least one
    attempt to go after them: each is followed by a wait. *)
Lemma attempts_loop_nonzero_prefix (nonzero : list (TokensResponse Token)) :
  forall remaining attempt attempts fr ms addr lastResult st rest,
    Forall (fun data => Contracts.rewards (totalClaimable data) <> []) nonzero ->
    network st = map ResponseOk nonzero ++ rest ->
    (length nonzero < remaining)%nat ->
    attempts - attempt + 1 = Z.of_nat remaining ->
    exists st_k,
      attempts_loop remaining attempt attempts fr true ms addr lastResult st
      = attempts_loop (remaining - length nonzero)
          (attempt + Z.of_nat (length nonzero)) attempts fr true ms addr
          (match last nonzero with Some d => Some d | None => lastResult end) st_k
      /\ network st_k = rest
      /\ wallet_address st_k = wallet_address st
      /\ refreshLockRef st_k = refreshLockRef st
      /\ isRefreshing st_k = isRefreshing st
      /\ exists evs,
           trace st_k = trace st ++ evs
           /\ schedule evs
              = concat (replicate (length nonzero)
                          [Fetched (tokens_url fr addr); Waited ms]).
Proof.
  induction nonzero as [|d nz IH];
    intros remaining attempt attempts fr ms addr lastResult st rest Hall Hnet Hlen Hinv.
  - exists st. cbn [length last]. rewrite Nat.sub_0_r, Z.add_0_r.
    repeat split; auto. exists []. rewrite app_nil_r. auto.
  - inversion Hall as [|? ? Hd Hnz]; subst.
    destruct remaining as [|remaining]; [cbn in Hlen; lia|].
    cbn [map app] in Hnet.
    destruct (attempts_loop_nonzero_step remaining attempt attempts fr ms addr
                lastResult st d _ Hnet Hd)
      as (st3 & Hstep & Hnet3 & Hw3 & Hl3 & Hr3 & evs3 & Ht3 & Hs3).
    assert (Hlt : (attempt <? attempts)%Z = true).
    { apply Z.ltb_lt. cbn [length] in Hlen. lia. }
    rewrite Hlt in Hs3.
    destruct (IH remaining (attempt + 1) attempts fr ms addr (Some d) st3 rest
                Hnz Hnet3 ltac:(cbn [length] in Hlen; lia) ltac:(lia))
      as (st_k & Hloop & Hnetk & Hwk & Hlk & Hrk & evs & Htk & Hsk).
    exists st_k. rewrite Hstep, Hloop. cbn [length].
    replace (S remaining - S (length nz))%nat with (remaining - length nz)%nat by lia.
    replace (attempt + 1 + Z.of_nat (length nz)) with (attempt + Z.of_nat (S (length nz))) by lia.
    rewrite last_cons.
    split.
    { destruct (last nz); reflexivity. }
    repeat split; try congruence.
    exists (evs3 ++ evs). rewrite Htk, Ht3, <- app_assoc. split; [reflexivity|].
    rewrite schedule_app, Hs3, Hsk. reflexivity.
Qed.

(** Whatever the fetches answer, a poll is at most [remaining] fetches
    with a wait between one and the next. *)
Lemma attempts_loop_schedule remaining :
  forall attempt attempts fr ms addr lastResult st r st',
    ((0 < remaining)%nat -> attempts - attempt + 1 = Z.of_nat remaining) ->
    attempts_loop remaining attempt attempts fr true ms addr lastResult st = (r, st') ->
    exists evs k,
      trace st' = trace st ++ evs
      /\ schedule evs = separated k (tokens_url fr addr) ms
      /\ (k <= remaining)%nat
      /\ ((0 < remaining)%nat -> (0 < k)%nat).
Proof.
  induction remaining as [|remaining IH];
    intros attempt attempts fr ms addr lastResult st r st' Hinv Hrun.
  - cbn in Hrun. inversion Hrun; subst. exists [], 0%nat.
    rewrite app_nil_r. repeat split; auto; lia.
  - specialize (Hinv ltac:(lia)).
    destruct (network st) as [|[| |data] rest] eqn:Hnet.
    1-3: cbn [attempts_loop] in Hrun; unfold fetch_json in Hrun; rewrite Hnet in Hrun;
         inversion Hrun; subst; cbn;
         exists [(Fetched (tokens_url fr addr), refreshLockRef st)], 1%nat;
         repeat split; auto; lia.
    destruct (Contracts.rewards (totalClaimable data)) as [|r0 rs] eqn:Hr.
    + cbn [attempts_loop] in Hrun. unfold fetch_json in Hrun. rewrite Hnet, Hr in Hrun.
      cbn in Hrun. inversion Hrun; subst. cbn.
      eexists. exists 1%nat. rewrite <- app_assoc. split; [reflexivity|].
      repeat split; auto; lia.
    + destruct (attempts_loop_nonzero_step remaining attempt attempts fr ms addr
                  lastResult st data rest Hnet ltac:(rewrite Hr; discriminate))
        as (st3 & Hstep & Hnet3 & Hw3 & Hl3 & Hr3 & evs3 & Ht3 & Hs3).
      rewrite Hstep in Hrun.
      apply IH in Hrun; [|lia].
      destruct Hrun as (evs & k & Ht & Hs & Hk & Hpos).
      exists (evs3 ++ evs). rewrite Ht, Ht3, <- app_assoc, schedule_app, Hs3, Hs.
      destruct (attempt <? attempts)%Z eqn:Hlt.
      * apply Z.ltb_lt in Hlt.
        exists (S k). split; [reflexivity|].
        specialize (Hpos ltac:(lia)).
        destruct k as [|k]; [lia|].
        repeat split; auto; lia.
      * apply Z.ltb_ge in Hlt.
        assert (remaining = 0)%nat by lia. subst remaining.
        assert (k = 0)%nat by lia. subst k.
        exists 1%nat. repeat split; auto; lia.
Qed.

(** What an admitted refresh runs. *)
Lemma refresh_admitted options st address :
  wallet_address st = Some address ->
  JsString.truthy address = true ->
  refreshLockRef st = false ->
  refreshClaimableRewards options st
  = let attempts := if default false (pollForZero options)
                    then default 6 (maxRetries options) else 1 in
    let '(r, st2) :=
      attempts_loop (Z.to_nat attempts) 1 attempts
        (default false (forceRefresh options)) (default false (pollForZero options))
        (default 2500 (intervalMs options)) address None
        (emit (SetQueryData None) (set_refreshing true st)) in
    (match r with Contracts.Normal v => v | Contracts.Throw _ => None end,
     set_refreshing false st2).
Proof.
  intros Hw Ht Hl. unfold refreshClaimableRewards. rewrite Hw, Ht, Hl. reflexivity.
Qed.

(** C4.  In poll-until-zero mode an admitted refresh makes at most
    [maxRetries] fetches (6 when the option is left out) with one wait of
    [intervalMs] (2500 when left out) between a fetch and the next; it
    returns the first fetched snapshot without rewards as soon as it is
    fetched; and when all [maxRetries] fetches bring snapshots with rewards
    it returns the last of them, not null.  With 3 attempts and the third
    snapshot empty this is 3 fetches and 2 waits
    ([poll_three_attempts_scenario]). *)
Theorem poll_until_zero options st address (nonzero : list (TokensResponse Token)) :
  pollForZero options = Some true ->
  wallet_address st = Some address ->
  JsString.truthy address = true ->
  refreshLockRef st = false ->
  Forall (fun data => Contracts.rewards (totalClaimable data) <> []) nonzero ->
  let maxAttempts := default 6 (maxRetries options) in
  let ms := default 2500 (intervalMs options) in
  let url := tokens_url (default false (forceRefresh options)) address in
  (forall result st',
      refreshClaimableRewards options st = (result, st') ->
      exists events k,
        trace st' = trace st ++ events
        /\ schedule events = separated k url ms
        /\ Z.of_nat k <= Z.max 0 maxAttempts)
  /\ (forall zero rest,
        Contracts.rewards (totalClaimable zero) = [] ->
        Z.of_nat (length nonzero) < maxAttempts ->
        network st = map ResponseOk nonzero ++ ResponseOk zero :: rest ->
        exists st' events,
          refreshClaimableRewards options st = (Some zero, st')
          /\ trace st' = trace st ++ events
          /\ schedule events = separated (length nonzero + 1) url ms
          /\ network st' = rest
          /\ refreshLockRef st' = false)
  /\ (forall rest,
        Z.of_nat (length nonzero) = maxAttempts ->
        network st = map ResponseOk nonzero ++ rest ->
        exists st' events,
          refreshClaimableRewards options st = (last nonzero, st')
          /\ trace st' = trace st ++ events
          /\ schedule events = separated (length nonzero) url ms
          /\ network st' = rest
          /\ refreshLockRef st' = false).
Proof.
  intros Hpoll Hw Htruthy Hlock Hnz maxAttempts ms url.
  pose proof (refresh_admitted options st address Hw Htruthy Hlock) as Hrun.
  rewrite Hpoll in Hrun.
  change (default false (Some true)) with true in Hrun. cbv beta iota zeta in Hrun.
  fold maxAttempts ms in Hrun.
  set (fr := default false (forceRefresh options)) in *.
  set (st1 := emit (SetQueryData None) (set_refreshing true st)) in *.
  assert (Ht1 : trace st1 = trace st ++ [(SetQueryData None, true)]) by reflexivity.
  assert (Hn1 : network st1 = network st) by reflexivity.
  repeat split.
  - intros result st' Hres. rewrite Hrun in Hres.
    destruct (attempts_loop (Z.to_nat maxAttempts) 1 maxAttempts fr true ms address None st1)
      as [r st2] eqn:Hloop.
    apply attempts_loop_schedule in Hloop; [|lia].
    destruct Hloop as (evs & k & Ht & Hs & Hk & _).
    inversion Hres; subst.
    change (trace (set_refreshing false st2)) with (trace st2).
    exists ((SetQueryData None, true) :: evs), k.
    rewrite Ht, Ht1, <- app_assoc. split; [reflexivity|].
    split; [exact Hs | lia].
  - intros zero rest Hzero Hlen Hnet.
    destruct (attempts_loop_nonzero_prefix nonzero (Z.to_nat maxAttempts) 1 maxAttempts
                fr ms address None st1 (ResponseOk zero :: rest) Hnz
                ltac:(rewrite Hn1; exact Hnet) ltac:(lia) ltac:(lia))
      as (st_k & Hloop & Hnetk & Hwk & Hlk & Hrk & evs & Htk & Hsk).
    rewrite Hloop in Hrun.
    destruct (Z.to_nat maxAttempts - length nonzero)%nat as [|remaining] eqn:Hrem; [lia|].
    cbn [attempts_loop] in Hrun. unfold fetch_json in Hrun.
    rewrite Hnetk, Hzero in Hrun. cbn in Hrun.
    eexists. exists ((SetQueryData None, true) :: evs
                     ++ [(Fetched (tokens_url fr address), refreshLockRef st_k);
                         (SetQueryData (Some zero), refreshLockRef st_k)]).
    split; [exact Hrun|]. cbn.
    rewrite Htk, Ht1, <- !app_assoc. split; [reflexivity|].
    split; [|auto].
    change (schedule (evs ++ [(Fetched (tokens_url fr address), refreshLockRef st_k);
                              (SetQueryData (Some zero), refreshLockRef st_k)])
            = separated (length nonzero + 1) url ms).
    rewrite schedule_app, Hsk, Nat.add_1_r. apply separated_snoc.
  - intros rest Hlen Hnet.
    destruct nonzero as [|d0 nz0] using rev_ind.
    + cbn [length] in Hlen. cbn [map app] in Hnet.
      assert (Hz : Z.to_nat maxAttempts = 0%nat) by lia.
      rewrite Hz in Hrun. cbn in Hrun.
      eexists. exists [(SetQueryData None, true)].
      split; [exact Hrun|]. cbn. repeat split; auto.
    + clear IHnz0. apply Forall_app in Hnz. destruct Hnz as [Hinit Hd].
      inversion Hd as [|? ? Hd0 _]; subst.
      rewrite length_app in Hlen. cbn [length] in Hlen.
      rewrite map_app, <- app_assoc in Hnet. cbn [map app] in Hnet.
      destruct (attempts_loop_nonzero_prefix nz0 (Z.to_nat maxAttempts) 1 maxAttempts
                  fr ms address None st1 (ResponseOk d0 :: rest) Hinit
                  ltac:(rewrite Hn1; exact Hnet) ltac:(lia) ltac:(lia))
        as (st_k & Hloop & Hnetk & Hwk & Hlk & Hrk & evs & Htk & Hsk).
      rewrite Hloop in Hrun.
      replace (Z.to_nat maxAttempts - length nz0)%nat with 1%nat in Hrun by lia.
      destruct (attempts_loop_nonzero_step 0 (1 + Z.of_nat (length nz0)) maxAttempts fr ms
                  address (match last nz0 with Some d => Some d | None => None end)
                  st_k d0 rest Hnetk Hd0)
        as (st3 & Hstep & Hnet3 & Hw3 & Hl3 & Hr3 & evs3 & Ht3 & Hs3).
      rewrite Hstep in Hrun. cbn [attempts_loop] in Hrun.
      assert (Hge : (1 + Z.of_nat (length nz0) <? maxAttempts)%Z = false)
        by (apply Z.ltb_ge; lia).
      rewrite Hge in Hs3.
      eexists. exists ((SetQueryData None, true) :: evs ++ evs3).
      rewrite last_snoc. split; [exact Hrun|].
      change (trace (set_refreshing false st3)) with (trace st3).
      change (network (set_refreshing false st3)) with (network st3).
      change (refreshLockRef (set_refreshing false st3)) with false.
      rewrite Ht3, Htk, Ht1, <- !app_assoc. split; [reflexivity|].
      split; [|auto].
      change (schedule (evs ++ evs3) = separated (length (nz0 ++ [d0])) url ms).
      rewrite schedule_app, Hsk, Hs3, length_app, Nat.add_1_r. apply separated_snoc.
Qed.

End PollLoop.

(** C3 on sample states: a refresh that meets the guard set returns null
    and changes nothing; refreshes whose fetch is rejected, is not ok, or
    succeeds all leave the guard free. *)
Lemma refresh_single_flight_sample :
  Home.refreshClaimableRewards Home.no_options
    (Samples.home true [Home.ResponseOk Samples.one_reward])
  = (None, Samples.home true [Home.ResponseOk Samples.one_reward])
  /\ Home.refreshLockRef
       (snd (Home.refreshClaimableRewards Home.no_options
               (Samples.home false [Home.FetchRejected]))) = false
  /\ Home.refreshLockRef
       (snd (Home.refreshClaimableRewards Home.no_options
               (Samples.home false [Home.ResponseNotOk]))) = false
  /\ Home.refreshLockRef
       (snd (Home.refreshClaimableRewards Home.no_options
               (Samples.home false [Home.ResponseOk Samples.one_reward]))) = false.
Proof.
  split; [|split; [|split]].
  - exact (proj1 (refresh_single_flight Home.no_options
                    (Samples.home true [Home.ResponseOk Samples.one_reward])) eq_refl).
  - destruct (Home.refreshClaimableRewards Home.no_options
                (Samples.home false [Home.FetchRejected])) as [r st'] eqn:E.
    exact (proj1 (proj2 (refresh_single_flight Home.no_options
                           (Samples.home false [Home.FetchRejected])) eq_refl r st' E)).
  - destruct (Home.refreshClaimableRewards Home.no_options
                (Samples.home false [Home.ResponseNotOk])) as [r st'] eqn:E.
    exact (proj1 (proj2 (refresh_single_flight Home.no_options
                           (Samples.home false [Home.ResponseNotOk])) eq_refl r st' E)).
  - destruct (Home.refreshClaimableRewards Home.no_options
                (Samples.home false [Home.ResponseOk Samples.one_reward])) as [r st'] eqn:E.
    exact (proj1 (proj2 (refresh_single_flight Home.no_options
                           (Samples.home false [Home.ResponseOk Samples.one_reward]))
                    eq_refl r st' E)).
Defined.

(** C4 on the scenario of three attempts: two snapshots with a reward, then
    an empty one.  The refresh returns the empty snapshot after three
    fetches and two waits of 2500 ms. *)
Lemma poll_three_attempts_scenario :
  let answers := [Home.ResponseOk Samples.one_reward;
                  Home.ResponseOk Samples.one_reward;
                  Home.ResponseOk Samples.no_reward] in
  let url := Home.tokens_url true Samples.owner in
  exists st' events,
    Home.refreshClaimableRewards Samples.poll_three (Samples.home false answers)
    = (Some Samples.no_reward, st')
    /\ Home.trace st' = events
    /\ Home.schedule events
       = [Home.Fetched url; Home.Waited 2500; Home.Fetched url; Home.Waited 2500;
          Home.Fetched url]
    /\ Home.network st' = []
    /\ Home.refreshLockRef st' = false.
Proof.
  intros answers url.
  assert (Hnz : Forall (fun data : TokensResponse unit =>
                          Contracts.rewards (totalClaimable data) <> [])
                  [Samples.one_reward; Samples.one_reward])
    by (repeat constructor; discriminate).
  destruct (poll_until_zero Samples.poll_three (Samples.home false answers) Samples.owner
              [Samples.one_reward; Samples.one_reward]
              eq_refl eq_refl eq_refl eq_refl Hnz) as (_ & Hzero & _).
  exact (Hzero Samples.no_reward [] eq_refl eq_refl eq_refl).
Defined.

(* ===================================================================== *)
(** * The result cache of the routes *)
(* ===================================================================== *)

Section RoutesFacts.
Import Routes.
Context `{Host}.

Implicit Types (st : State) (refresh : option string).

(** [req.query.refresh === "true"]. *)
Lemma forceRefresh_false refresh :
  refresh <> Some "true" ->
  match refresh with Some r => String.eqb r "true" | None => false end = false.
Proof.
  intros Hne. destruct refresh as [r|]; [|reflexivity].
  apply String.eqb_neq. congruence.
Qed.

(** A request that is not served from the cache calls
    [fetchTokensByCreator] once, and stores what it returns. *)
Lemma get_api_tokens_recompute st refresh walletAddress st1 :
  JsString.truthy walletAddress = true ->
  cache_phase
    match refresh with Some r => String.eqb r "true" | None => false end
    (JsString.toLowerCase walletAddress) st = inr st1 ->
  let '(response, st') := get_api_tokens (Some walletAddress) refresh st in
  recomputations st' = recomputations st1 ++ [walletAddress]
  /\ match snd (fetchTokensByCreator (world st1) walletAddress) with
     | Some data =>
         response = data
         /\ exists now,
              tokenCache st'
              = <[JsString.toLowerCase walletAddress :=
                    {| entry_data := data; timestamp := now |}]> (tokenCache st1)
     | None => response = empty_response /\ tokenCache st' = tokenCache st1
     end.
Proof.
  intros Htruthy Hphase. unfold get_api_tokens. rewrite Htruthy. cbn [negb].
  rewrite Hphase.
  destruct (fetchTokensByCreator (world st1) walletAddress) as [w [data|]]; cbn [snd].
  - destruct (Date_now w) as [w' now]. cbn. split; [reflexivity|].
    split; [reflexivity|]. exists now. reflexivity.
  - cbn. auto.
Qed.

(** A request that is not served from the cache, in one equation: the
    discovery is called in the world the cache phase left, and its answer
    is stored with the time the clock reads after it. *)
Lemma get_api_tokens_recompute_at st refresh walletAddress st1 :
  JsString.truthy walletAddress = true ->
  cache_phase
    match refresh with Some r => String.eqb r "true" | None => false end
    (JsString.toLowerCase walletAddress) st = inr st1 ->
  get_api_tokens (Some walletAddress) refresh st
  = match fetchTokensByCreator (world st1) walletAddress with
    | (w2, Some data) =>
        (data,
         {| world := fst (Date_now w2);
            tokenCache :=
              <[JsString.toLowerCase walletAddress :=
                  {| entry_data := data; timestamp := snd (Date_now w2) |}]>
                (tokenCache st1);
            recomputations := recomputations st1 ++ [walletAddress] |})
    | (w2, None) =>
        (empty_response,
         {| world := w2;
            tokenCache := tokenCache st1;
            recomputations := recomputations st1 ++ [walletAddress] |})
    end.
Proof.
  intros Htruthy Hphase. unfold get_api_tokens. rewrite Htruthy. cbn [negb].
  rewrite Hphase.
  destruct (fetchTokensByCreator (world st1) walletAddress) as [w2 [data|]];
    [destruct (Date_now w2) as [w3 now]|]; reflexivity.
Qed.

(** A request without [refresh=true] that finds an entry younger than
    60000 ms answers with it and reads the clock, no more. *)
Lemma get_api_tokens_hit st refresh walletAddress entry :
  JsString.truthy walletAddress = true ->
  refresh <> Some "true" ->
  tokenCache st !! JsString.toLowerCase walletAddress = Some entry ->
  snd (Date_now (world st)) - timestamp entry < CACHE_TTL ->
  get_api_tokens (Some walletAddress) refresh st
  = (entry_data entry, set_world (fst (Date_now (world st))) st).
Proof.
  intros Htruthy Hrefresh Hentry Hfresh.
  unfold get_api_tokens, cache_phase. rewrite Htruthy. cbn [negb].
  rewrite (forceRefresh_false refresh Hrefresh). cbn [negb].
  rewrite Hentry.
  destruct (Date_now (world st)) as [w now]. cbn [fst snd] in *.
  apply Z.ltb_lt in Hfresh. rewrite Hfresh. reflexivity.
Qed.

(** C8.  For every wallet address, with [key] its lower-cased form:
    a request that recomputes (a put) answers with the snapshot of the
    discovery and stores it under [key] with the time the clock reads after
    the discovery, and any request for the key that follows it without
    [refresh=true] and reads the clock less than 60000 ms after that time
    (a get within the TTL of the put) answers with the stored snapshot and
    does not recompute; more generally a request without [refresh=true]
    that finds an entry younger than 60000 ms answers with it and does not
    recompute; [POST /api/cache/invalidate] answers success and removes the
    entry of [key] and no other, so that the next request for that key
    recomputes; and a request with [refresh=true] removes the entry and
    recomputes whatever the cache holds, storing the new snapshot with the
    time read after the discovery. *)
Theorem result_cache st walletAddress :
  JsString.truthy walletAddress = true ->
  let key := JsString.toLowerCase walletAddress in
  (* put, and get within the TTL of the put *)
  (forall refresh st1 w2 data,
      cache_phase
        match refresh with Some r => String.eqb r "true" | None => false end
        key st = inr st1 ->
      fetchTokensByCreator (world st1) walletAddress = (w2, Some data) ->
      let '(response, st') := get_api_tokens (Some walletAddress) refresh st in
      response = data
      /\ tokenCache st' !! key
         = Some {| entry_data := data; timestamp := snd (Date_now w2) |}
      /\ world st' = fst (Date_now w2)
      /\ recomputations st' = recomputations st1 ++ [walletAddress]
      /\ forall refresh' walletAddress',
           refresh' <> Some "true" ->
           JsString.truthy walletAddress' = true ->
           JsString.toLowerCase walletAddress' = key ->
           snd (Date_now (world st')) - snd (Date_now w2) < CACHE_TTL ->
           get_api_tokens (Some walletAddress') refresh' st'
           = (data, set_world (fst (Date_now (world st'))) st'))
  (* get within the TTL *)
  /\ (forall refresh entry,
        refresh <> Some "true" ->
        tokenCache st !! key = Some entry ->
        snd (Date_now (world st)) - timestamp entry < CACHE_TTL ->
        get_api_tokens (Some walletAddress) refresh st
        = (entry_data entry, set_world (fst (Date_now (world st))) st))
  (* invalidate, then get *)
  /\ (let done := post_cache_invalidate (Some (FieldString walletAddress)) st in
      let st1 := snd done in
      fst done = Contracts.Normal true
      /\ tokenCache st1 !! key = None
      /\ (forall k, k <> key -> tokenCache st1 !! k = tokenCache st !! k)
      /\ recomputations st1 = recomputations st
      /\ world st1 = world st
      /\ forall refresh walletAddress',
           JsString.truthy walletAddress' = true ->
           JsString.toLowerCase walletAddress' = key ->
           recomputations (snd (get_api_tokens (Some walletAddress') refresh st1))
           = recomputations st ++ [walletAddress'])
  (* refresh=true *)
  /\ (let '(response, st') := get_api_tokens (Some walletAddress) (Some "true") st in
      recomputations st' = recomputations st ++ [walletAddress]
      /\ match fetchTokensByCreator (world st) walletAddress with
         | (w2, Some data) =>
             response = data
             /\ tokenCache st' !! key
                = Some {| entry_data := data; timestamp := snd (Date_now w2) |}
             /\ world st' = fst (Date_now w2)
         | (w2, None) =>
             response = empty_response
             /\ tokenCache st' !! key = None
             /\ world st' = w2
         end).
Proof.
  intros Htruthy key. split; [|split; [|split]].
  - intros refresh st1 w2 data Hphase Hfetch.
    rewrite (get_api_tokens_recompute_at st refresh walletAddress st1 Htruthy Hphase), Hfetch.
    cbn [world tokenCache recomputations].
    split; [reflexivity|]. split; [apply lookup_insert_eq|].
    split; [reflexivity|]. split; [reflexivity|].
    intros refresh' walletAddress' Hrefresh' Htruthy' Hkey Hfresh.
    rewrite (get_api_tokens_hit _ refresh' walletAddress'
               {| entry_data := data; timestamp := snd (Date_now w2) |}
               Htruthy' Hrefresh');
      [reflexivity | cbn [tokenCache]; rewrite Hkey; apply lookup_insert_eq | exact Hfresh].
  - intros refresh entry Hrefresh Hentry Hfresh.
    exact (get_api_tokens_hit st refresh walletAddress entry Htruthy Hrefresh Hentry Hfresh).
  - unfold post_cache_invalidate. rewrite Htruthy. cbn [fst snd].
    split; [reflexivity|].
    split; [apply lookup_delete_eq|].
    split; [intros k Hk; apply lookup_delete_ne; unfold key in Hk; congruence|].
    split; [reflexivity|]. split; [reflexivity|].
    intros refresh walletAddress' Htruthy' Hkey.
    set (st1 := set_tokenCache (delete (JsString.toLowerCase walletAddress) (tokenCache st)) st).
    assert (Hgone : tokenCache st1 !! JsString.toLowerCase walletAddress' = None).
    { rewrite Hkey. apply lookup_delete_eq. }
    assert (Hphase : exists st2,
               cache_phase
                 match refresh with Some r => String.eqb r "true" | None => false end
                 (JsString.toLowerCase walletAddress') st1 = inr st2
               /\ recomputations st2 = recomputations st).
    { unfold cache_phase. rewrite Hgone.
      destruct (match refresh with Some r => String.eqb r "true" | None => false end);
        cbn [negb]; eexists; (split; [reflexivity|]); reflexivity. }
    destruct Hphase as (st2 & Hphase & Hrec).
    rewrite (get_api_tokens_recompute_at st1 refresh walletAddress' st2 Htruthy' Hphase).
    destruct (fetchTokensByCreator (world st2) walletAddress') as [w2 [data|]];
      cbn [snd recomputations]; rewrite Hrec; reflexivity.
  - rewrite (get_api_tokens_recompute_at st (Some "true") walletAddress
               (set_tokenCache (delete key (tokenCache st)) st) Htruthy eq_refl).
    change (world (set_tokenCache (delete key (tokenCache st)) st)) with (world st).
    destruct (fetchTokensByCreator (world st) walletAddress) as [w2 [data|]];
      cbn [world tokenCache recomputations set_tokenCache].
    + split; [reflexivity|]. split; [reflexivity|].
      split; [apply lookup_insert_eq | reflexivity].
    + split; [reflexivity|]. split; [reflexivity|].
      split; [apply lookup_delete_eq | reflexivity].
Qed.

End RoutesFacts.

(** C8 on a sample server whose clock moves on by one second at every
    reading: a first request stores the snapshot under the lower-cased key
    with the time 0 the clock read after the discovery; a second one, with
    the address spelled otherwise, reads 1000, is answered from the cache
    and recomputes nothing; after an invalidation the next request
    recomputes. *)
Lemma result_cache_sample :
  let st1 := snd (Routes.get_api_tokens (H := Samples.host)
                    (Some Samples.owner_mixed_case) None Samples.fresh_server) in
  Routes.recomputations st1 = [Samples.owner_mixed_case]
  /\ Routes.tokenCache st1 !! JsString.toLowerCase Samples.owner
     = Some (@Routes.Build_CacheEntry Samples.host Samples.one_reward 0)
  /\ Routes.get_api_tokens (Some Samples.owner) None st1
     = (Samples.one_reward, Routes.set_world (H := Samples.host) 2000%Z st1)
  /\ Routes.recomputations
       (snd (Routes.get_api_tokens (Some Samples.owner) None
               (snd (Routes.post_cache_invalidate
                       (Some (Routes.FieldString Samples.owner)) st1))))
     = [Samples.owner_mixed_case; Samples.owner].
Proof.
  intros st1.
  destruct (result_cache (H := Samples.host) Samples.fresh_server Samples.owner_mixed_case
              eq_refl) as (Hput & _).
  specialize (Hput None Samples.fresh_server 0%Z Samples.one_reward eq_refl eq_refl).
  fold st1 in Hput.
  destruct (Routes.get_api_tokens (H := Samples.host)
              (Some Samples.owner_mixed_case) None Samples.fresh_server)
    as [response st'] eqn:Hrun.
  cbn [snd] in st1. subst st1.
  destruct Hput as (_ & Hentry & _ & Hrec & Hget).
  destruct (result_cache (H := Samples.host) st' Samples.owner eq_refl)
    as (_ & _ & (_ & _ & _ & _ & _ & Hmiss) & _).
  split; [exact Hrec|]. split; [exact Hentry|]. split.
  - rewrite (Hget None Samples.owner ltac:(discriminate) eq_refl eq_refl);
      [|injection Hrun as _ <-; vm_compute; reflexivity].
    injection Hrun as _ <-. reflexivity.
  - rewrite (Hmiss None Samples.owner eq_refl eq_refl), Hrec. reflexivity.
Defined.

(* ===================================================================== *)
(** * Token metadata *)
(* ===================================================================== *)

Section MetadataFacts.
Import Contracts.
Context `{Chain}.

Local Arguments JsString.toLowerCase : simpl never.

Implicit Types (st : State) (address : string).

(** C9.  [getTokenMetadata] never throws.  An address found in the cache
    is answered from it, without a request.  The wrapped-native address
    is answered with the hard-coded metadata and cached, without a
    request.  Any other address costs the two contract reads: when both
    succeed the metadata is returned and cached under the lower-cased
    address; when one fails the fallback (first 8 characters of the
    address, 18 decimals) is returned and the cache is left as it was, so
    that the next call asks again.  No call removes or replaces an entry
    of the cache. *)
Theorem getTokenMetadata_degrades st address :
  let key := JsString.toLowerCase address in
  let run := getTokenMetadata address st in
  (exists metadata st', run = (Normal metadata, st'))
  /\ (forall k m, tokenMetadataCache st !! k = Some m ->
                  tokenMetadataCache (snd run) !! k = Some m)
  /\ (weth_consistent (tokenMetadataCache st) ->
      weth_consistent (tokenMetadataCache (snd run)))
  /\ (forall m, tokenMetadataCache st !! key = Some m -> run = (Normal m, st))
  /\ (key = JsString.toLowerCase WETH_ADDRESS ->
      requests (snd run) = requests st
      /\ world (snd run) = world st
      /\ (weth_consistent (tokenMetadataCache st) -> fst run = Normal WETH_METADATA)
      /\ (tokenMetadataCache st !! key = None ->
          fst run = Normal WETH_METADATA
          /\ tokenMetadataCache (snd run) !! key = Some WETH_METADATA))
  /\ (tokenMetadataCache st !! key = None ->
      key <> JsString.toLowerCase WETH_ADDRESS ->
      let '(w1, read_symbol) := readSymbol (world st) address in
      let '(w2, read_decimals) := readDecimals w1 address in
      let sent := requests st ++ [ReadContractRequest address "symbol";
                                  ReadContractRequest address "decimals"] in
      match read_symbol, read_decimals with
      | Some s, Some d =>
          run = (Normal {| symbol := s; decimals := d |},
                 {| world := w2;
                    tokenMetadataCache :=
                      <[key := {| symbol := s; decimals := d |}]> (tokenMetadataCache st);
                    requests := sent |})
      | _, _ =>
          run = (Normal (fallback_metadata address),
                 {| world := w2;
                    tokenMetadataCache := tokenMetadataCache st;
                    requests := sent |})
      end).
Proof.
  intros key run. subst run. unfold getTokenMetadata, bind, get_cache. fold key.
  destruct (tokenMetadataCache st !! key) as [cached|] eqn:Hcached.
  { (* answered from the cache *)
    cbn. split; [eauto|]. split; [auto|]. split; [auto|].
    split; [intros m Hm; inversion Hm; subst; reflexivity|].
    split; [|discriminate].
    intros Hweth. split; [reflexivity|]. split; [reflexivity|].
    split; [|discriminate].
    intros Hc. f_equal. apply Hc. rewrite <- Hweth. exact Hcached. }
  destruct (String.eqb key (JsString.toLowerCase WETH_ADDRESS)) eqn:Hweth.
  { (* the wrapped-native token *)
    apply String.eqb_eq in Hweth. cbn.
    split; [eauto|]. split.
    { intros k m Hm. rewrite lookup_insert_ne; [exact Hm|]. congruence. }
    split.
    { intros Hc m. rewrite <- Hweth, lookup_insert_eq.
      intros E. inversion E. reflexivity. }
    split; [discriminate|]. split; [|contradiction].
    intros _. split; [reflexivity|]. split; [reflexivity|].
    split; [reflexivity|]. intros _. split; [reflexivity|]. apply lookup_insert_eq. }
  apply String.eqb_neq in Hweth.
  unfold try_catch, Promise_all, publicClient_readSymbol, publicClient_readDecimals,
    cache_set, ret.
  cbn [world tokenMetadataCache requests].
  destruct (readSymbol (world st) address) as [w1 [s|]];
    cbn [world tokenMetadataCache requests];
    destruct (readDecimals w1 address) as [w2 [d|]]; cbn;
    rewrite <- ?app_assoc; cbn [app].
  all: split; [do 2 eexists; reflexivity|].
  all: split;
    [intros k m Hm;
     first [exact Hm
           | destruct (decide (key = k)) as [->|Hk];
             [congruence | rewrite lookup_insert_ne; auto]]|].
  all: split;
    [intros Hc m;
     first [apply Hc | rewrite lookup_insert_ne; [apply Hc | congruence]]|].
  all: split; [discriminate|].
  all: split; [contradiction|].
  all: intros _ _; reflexivity.
Qed.

End MetadataFacts.

(* ===================================================================== *)
(** * Insertion-ordered maps *)
(* ===================================================================== *)

Section JsMapFacts.
Context {V : Type}.

Implicit Types (m : JsMap.t V) (k : string) (v : V) (kvs : list (string * V)).

Lemma JsMap_get_set k k' v m :
  JsMap.get k (JsMap.set k' v m) = if String.eqb k' k then Some v else JsMap.get k m.
Proof.
  induction m as [|[k0 v0] m IH]; cbn.
  - destruct (String.eqb k' k); reflexivity.
  - destruct (String.eqb k0 k') eqn:E0; cbn.
    + apply String.eqb_eq in E0. subst k0.
      destruct (String.eqb k' k); reflexivity.
    + destruct (String.eqb k0 k) eqn:E1; [|exact IH].
      apply String.eqb_eq in E1. subst k0. rewrite String.eqb_sym, E0. reflexivity.
Qed.

Lemma JsMap_keys_set k v m :
  JsMap.keys (JsMap.set k v m)
  = if decide (k ∈ JsMap.keys m) then JsMap.keys m else JsMap.keys m ++ [k].
Proof.
  unfold JsMap.keys.
  induction m as [|[k0 v0] m IH]; cbn [JsMap.set map fst].
  - rewrite decide_False; [reflexivity | apply not_elem_of_nil].
  - destruct (String.eqb k0 k) eqn:E0; cbn [map fst].
    + apply String.eqb_eq in E0. subst k0.
      rewrite decide_True; [reflexivity | left].
    + apply String.eqb_neq in E0. rewrite IH.
      destruct (decide (k ∈ map fst m)) as [Hin|Hn].
      * rewrite decide_True; [reflexivity | right; exact Hin].
      * rewrite decide_False; [reflexivity|].
        intros Hin'. apply elem_of_cons in Hin'. destruct Hin'; [congruence | contradiction].
Qed.

Lemma JsMap_get_is_Some k m : is_Some (JsMap.get k m) <-> k ∈ JsMap.keys m.
Proof.
  induction m as [|[k0 v0] m IH]; cbn.
  - split; [intros [? ?]; discriminate | intros Hin; inversion Hin].
  - destruct (String.eqb k0 k) eqn:E0.
    + apply String.eqb_eq in E0. subst k0. split; [intros _; left | eauto].
    + apply String.eqb_neq in E0. rewrite IH. rewrite elem_of_cons.
      split; [auto | intros [?|?]; [congruence | auto]].
Qed.

Lemma JsMap_keys_set_NoDup k v m :
  NoDup (JsMap.keys m) -> NoDup (JsMap.keys (JsMap.set k v m)).
Proof.
  intros Hnd. rewrite JsMap_keys_set.
  destruct (decide (k ∈ JsMap.keys m)) as [|Hn]; [exact Hnd|].
  apply NoDup_app. split; [exact Hnd|]. split.
  - intros x Hx Hx'. apply list_elem_of_singleton in Hx'. subst. contradiction.
  - apply NoDup_singleton.
Qed.

(** Setting a list of bindings, first to last. *)
Lemma set_all_keys kvs : forall m k,
  k ∈ JsMap.keys (fold_left (fun m kv => JsMap.set (fst kv) (snd kv) m) kvs m)
  <-> k ∈ JsMap.keys m \/ k ∈ map fst kvs.
Proof.
  induction kvs as [|[k0 v0] kvs IH]; intros m k; cbn [fold_left map fst snd].
  - split; [auto | intros [?|Hin]; [auto | inversion Hin]].
  - rewrite IH, JsMap_keys_set, elem_of_cons.
    destruct (decide (k0 ∈ JsMap.keys m)) as [Hin|Hn].
    + split; [tauto | intros [?|[->|?]]; auto].
    + rewrite elem_of_app, list_elem_of_singleton. tauto.
Qed.

Lemma set_all_NoDup kvs : forall m,
  NoDup (JsMap.keys m) ->
  NoDup (JsMap.keys (fold_left (fun m kv => JsMap.set (fst kv) (snd kv) m) kvs m)).
Proof.
  induction kvs as [|[k0 v0] kvs IH]; intros m Hnd; cbn [fold_left fst snd]; [exact Hnd|].
  apply IH, JsMap_keys_set_NoDup, Hnd.
Qed.

(** The value of a key is the one of its last binding in the list. *)
Lemma set_all_get_last kvs : forall m i k v,
  kvs !! i = Some (k, v) ->
  (forall j v', (i < j)%nat -> kvs !! j <> Some (k, v')) ->
  JsMap.get k (fold_left (fun m kv => JsMap.set (fst kv) (snd kv) m) kvs m) = Some v.
Proof.
  induction kvs as [|[k0 v0] kvs IH] using rev_ind; intros m i k v Hi Hlast.
  - rewrite lookup_nil in Hi. discriminate.
  - rewrite fold_left_app. cbn [fold_left fst snd]. rewrite JsMap_get_set.
    destruct (decide (i < length kvs)%nat) as [Hlt|Hge].
    + rewrite lookup_app_l in Hi by exact Hlt.
      assert (Hne : k0 <> k).
      { intros ->. apply (Hlast (length kvs) v0 Hlt).
        rewrite lookup_app_r by lia. rewrite Nat.sub_diag. reflexivity. }
      apply String.eqb_neq in Hne. rewrite Hne.
      apply (IH m i k v Hi). intros j v' Hj Hjv.
      apply (Hlast j v' Hj). apply lookup_app_l_Some. exact Hjv.
    + rewrite lookup_app_r in Hi by lia.
      destruct (i - length kvs)%nat as [|n] eqn:E; [|destruct n; discriminate].
      cbn in Hi. inversion Hi; subst. rewrite String.eqb_refl. reflexivity.
Qed.

(** A key that the list binds has the value of one of its bindings. *)
Lemma set_all_get_bound kvs : forall m k,
  k ∈ map fst kvs ->
  exists v, (k, v) ∈ kvs
            /\ JsMap.get k (fold_left (fun m kv => JsMap.set (fst kv) (snd kv) m) kvs m) = Some v.
Proof.
  induction kvs as [|[k0 v0] kvs IH] using rev_ind; intros m k Hin.
  - inversion Hin.
  - rewrite fold_left_app. cbn [fold_left fst snd]. rewrite JsMap_get_set.
    destruct (String.eqb k0 k) eqn:E.
    + apply String.eqb_eq in E. subst k0. exists v0. split; [|reflexivity].
      apply elem_of_app. right. left.
    + apply String.eqb_neq in E. rewrite map_app, elem_of_app in Hin.
      destruct Hin as [Hin|Hin].
      * destruct (IH m k Hin) as (v & Hv & Hget). exists v. split; [|exact Hget].
        apply elem_of_app. left. exact Hv.
      * cbn in Hin. apply list_elem_of_singleton in Hin. congruence.
Qed.

End JsMapFacts.

(* ===================================================================== *)
(** * The batched balance reader *)
(* ===================================================================== *)

Section ReaderFacts.
Import Contracts.
Context `{Chain}.

Implicit Types (st : State) (feeOwner : string) (chunk : list string).

(** The loop over [multicallResults] sets, index by index, the address at
    that index to the amount recorded for the result at that index. *)
Lemma results_loop (multicallResults : list MulticallResult) (tokenAddresses : list string) :
  length multicallResults = length tokenAddresses ->
  forall k results,
    (k <= length multicallResults)%nat ->
    fold_left
      (fun results i =>
         match multicallResults !! i, tokenAddresses !! i with
         | Some result, Some tokenAddress =>
             match result with
             | Success r => JsMap.set tokenAddress r results
             | Failure => JsMap.set tokenAddress 0 results
             end
         | _, _ => results
         end)
      (seq 0 k) results
    = fold_left (fun m kv => JsMap.set (fst kv) (snd kv) m)
        (zip (take k tokenAddresses) (map recorded_amount (take k multicallResults)))
        results.
Proof.
  intros Hlen k. induction k as [|k IH]; intros results Hk; [reflexivity|].
  rewrite seq_S, fold_left_app, IH by lia. cbn [fold_left Nat.add].
  destruct (lookup_lt_is_Some_2 multicallResults k ltac:(lia)) as [result Hr].
  destruct (lookup_lt_is_Some_2 tokenAddresses k ltac:(lia)) as [a Ha].
  rewrite Hr, Ha.
  rewrite (take_S_r _ _ _ Hr), (take_S_r _ _ _ Ha), map_app.
  rewrite zip_with_app by (rewrite length_map, !length_take; lia).
  rewrite fold_left_app. cbn [fold_left map zip_with fst snd].
  destruct result; reflexivity.
Qed.

Lemma zero_loop chunk : forall (results : JsMap.t Z),
  fold_left (fun results addr => JsMap.set addr 0 results) chunk results
  = fold_left (fun m kv => JsMap.set (fst kv) (snd kv) m)
      (zip chunk (replicate (length chunk) 0)) results.
Proof.
  induction chunk as [|a chunk IH]; intros results; [reflexivity|].
  cbn [fold_left length replicate zip_with fst snd]. apply IH.
Qed.

Lemma recorded_amounts_length answer n : length (recorded_amounts answer n) = n.
Proof.
  destruct answer; cbn; [rewrite length_map, length_seq | rewrite length_replicate];
    reflexivity.
Qed.

(** The reader, in one equation. *)
Lemma getFeesForAddressesMulticall_eq st feeOwner chunk :
  getFeesForAddressesMulticall feeOwner chunk st
  = match chunk with
    | [] => (Normal [], st)
    | _ =>
        let contracts := availableFees_calls feeOwner chunk in
        let '(w, answer) := multicall (world st) contracts in
        (Normal (fold_left (fun m kv => JsMap.set (fst kv) (snd kv) m)
                   (zip chunk (recorded_amounts answer (length chunk))) []),
         {| world := w;
            tokenMetadataCache := tokenMetadataCache st;
            requests := requests st ++ [MulticallRequest contracts] |})
    end.
Proof.
  unfold getFeesForAddressesMulticall.
  destruct chunk as [|a0 chunk0]; [reflexivity|].
  set (chunk := a0 :: chunk0).
  change (length chunk =? 0)%nat with false. cbv iota.
  fold (availableFees_calls feeOwner chunk).
  unfold try_catch, bind, publicClient_multicall, ret.
  destruct (multicall (world st) (availableFees_calls feeOwner chunk)) as [w [outcome|]].
  - cbv beta iota zeta. f_equal.
    assert (Hn : length (availableFees_calls feeOwner chunk) = length chunk)
      by apply length_map.
    rewrite Hn.
    rewrite results_loop; rewrite ?length_map, ?length_seq; auto.
    rewrite !firstn_all2 by (rewrite ?length_map, ?length_seq; lia).
    unfold JsMap.empty, recorded_amounts. rewrite map_map. reflexivity.
  - cbv beta iota zeta. f_equal. rewrite zero_loop. reflexivity.
Qed.

Lemma map_fst_zip {A B : Type} (l : list A) : forall (k : list B),
  (length l <= length k)%nat -> map fst (zip l k) = l.
Proof.
  induction l as [|x l IH]; intros [|y k] Hlen; cbn in *; try reflexivity; try lia.
  rewrite IH by lia. reflexivity.
Qed.

Lemma lookup_map_seq {A : Type} (f : nat -> A) (n i : nat) :
  (i < n)%nat -> map f (seq 0 n) !! i = Some (f i).
Proof.
  intros Hi. change (map f (seq 0 n)) with (f <$> seq 0 n).
  rewrite list_lookup_fmap, lookup_seq_lt by exact Hi. reflexivity.
Qed.

(** C6.  The batched read of a chunk never throws.  Every address of the
    chunk, and nothing else, is given an amount.  When the multicall
    answers, an item that failed gives its address the amount zero and an
    item that succeeded gives it its raw result (for an address the chunk
    repeats, the last of its items decides).  When the multicall request
    throws, every address of the chunk is given zero.  The metadata cache is
    not touched, and the chunk costs one request (none when it is empty). *)
Theorem getFeesForAddressesMulticall_isolates_failures st feeOwner chunk :
  let contracts := availableFees_calls feeOwner chunk in
  let answer := snd (multicall (world st) contracts) in
  exists results st',
    getFeesForAddressesMulticall feeOwner chunk st = (Normal results, st')
    /\ tokenMetadataCache st' = tokenMetadataCache st
    /\ (forall a, is_Some (JsMap.get a results) <-> a ∈ chunk)
    /\ NoDup (JsMap.keys results)
    /\ (chunk = [] -> results = [] /\ st' = st)
    /\ (chunk <> [] -> requests st' = requests st ++ [MulticallRequest contracts])
    /\ match answer with
       | Some outcome =>
           forall i a,
             chunk !! i = Some a ->
             (forall j, (i < j)%nat -> chunk !! j <> Some a) ->
             JsMap.get a results
             = Some (match outcome i with Success r => r | Failure => 0 end)
       | None => forall a, a ∈ chunk -> JsMap.get a results = Some 0
       end.
Proof.
  intros contracts answer. rewrite getFeesForAddressesMulticall_eq.
  destruct chunk as [|a0 chunk0].
  - exists [], st. repeat split; auto; try congruence.
    + intros [? ?]. discriminate.
    + intros Hin. inversion Hin.
    + constructor.
    + destruct answer; [intros i a Hi | intros a Hin]; [discriminate | inversion Hin].
  - set (chunk := a0 :: chunk0) in *. subst answer. fold contracts. cbv zeta.
    destruct (multicall (world st) contracts) as [w answer]. cbn [snd].
    pose proof (recorded_amounts_length answer (length chunk)) as Hlen.
    set (amounts := recorded_amounts answer (length chunk)) in *.
    do 2 eexists. split; [reflexivity|]. cbn [tokenMetadataCache requests].
    split; [reflexivity|]. split; [|split; [|split; [|split]]].
    + intros a. rewrite JsMap_get_is_Some, set_all_keys, map_fst_zip by lia.
      split; [intros [Hin|Hin]; [inversion Hin | exact Hin] | auto].
    + apply set_all_NoDup. constructor.
    + discriminate.
    + reflexivity.
    + destruct answer as [outcome|].
      * intros i a Hi Hlast.
        assert (Hlt : (i < length chunk)%nat) by (eapply lookup_lt_Some; exact Hi).
        apply (set_all_get_last _ _ i).
        -- apply lookup_zip_with_Some. do 2 eexists. split; [reflexivity|].
           split; [exact Hi|]. unfold amounts, recorded_amounts.
           rewrite lookup_map_seq by exact Hlt. unfold recorded_amount.
           reflexivity.
        -- intros j v' Hj Hjv. apply lookup_zip_with_Some in Hjv.
           destruct Hjv as (x & y & Hxy & Hx & _). inversion Hxy; subst.
           exact (Hlast j Hj Hx).
      * intros a Hin.
        destruct (set_all_get_bound (zip chunk amounts) [] a) as (v & Hv & Hget).
        { rewrite map_fst_zip by lia. exact Hin. }
        rewrite Hget. f_equal.
        apply elem_of_zip_r in Hv. unfold amounts, recorded_amounts in Hv.
        apply elem_of_replicate in Hv. tauto.
Qed.

End ReaderFacts.

(* ===================================================================== *)
(** * Aggregation *)
(* ===================================================================== *)

Section AggregationFacts.
Import Contracts.
Context `{Chain} `{Intl}.

Implicit Types (st : State) (feeOwner : string) (acc : JsMap.t Z * list string).

Local Arguments JsString.toLowerCase : simpl never.

(** A positive bigint does not print as ["0"]. *)
Lemma toString_positive (z : Z) : 0 < z -> BigInt.toString z <> "0".
Proof.
  intros Hz Heq. destruct z as [|p|p]; try lia.
  unfold BigInt.toString in Heq. cbn [Z.to_int NilZero.string_of_int] in Heq.
  pose proof (NilZero.usu (Pos.to_uint p) (DecimalPos.Unsigned.to_uint_nonnil p)) as Husu.
  rewrite Heq in Husu. cbn in Husu. inversion Husu as [Hd].
  apply (DecimalPos.Unsigned.to_uint_nonzero p). symmetry. exact Hd.
Qed.

Lemma multicalls_app (a b : list Request) :
  multicalls (a ++ b) = multicalls a ++ multicalls b.
Proof. apply omap_app. Qed.

(** What the aggregation needs of the reader. *)
Lemma getFees_normal st feeOwner chunk :
  exists results st',
    getFeesForAddressesMulticall feeOwner chunk st = (Normal results, st')
    /\ tokenMetadataCache st' = tokenMetadataCache st
    /\ (forall a, is_Some (JsMap.get a results) <-> a ∈ chunk)
    /\ NoDup (JsMap.keys results)
    /\ multicalls (requests st')
       = multicalls (requests st)
         ++ match chunk with [] => [] | _ => [availableFees_calls feeOwner chunk] end.
Proof.
  rewrite getFeesForAddressesMulticall_eq.
  destruct chunk as [|a0 chunk0].
  - exists [], st. rewrite app_nil_r. repeat split; auto.
    + intros [? ?]. discriminate.
    + intros Hin. inversion Hin.
    + constructor.
  - set (chunk := a0 :: chunk0) in *. cbv zeta.
    destruct (multicall (world st) (availableFees_calls feeOwner chunk)) as [w answer].
    pose proof (recorded_amounts_length answer (length chunk)) as Hlen.
    do 2 eexists. split; [reflexivity|]. cbn [tokenMetadataCache requests].
    split; [reflexivity|]. split; [|split].
    + intros a. rewrite JsMap_get_is_Some, set_all_keys, map_fst_zip by lia.
      split; [intros [Hin|Hin]; [inversion Hin | exact Hin] | auto].
    + apply set_all_NoDup. constructor.
    + rewrite multicalls_app. reflexivity.
Qed.

(** What the aggregation needs of the metadata resolver. *)
Lemma getTokenMetadata_normal st address :
  exists metadata st',
    getTokenMetadata address st = (Normal metadata, st')
    /\ multicalls (requests st') = multicalls (requests st).
Proof.
  unfold getTokenMetadata, bind, get_cache.
  destruct (tokenMetadataCache st !! JsString.toLowerCase address) as [cached|].
  { cbn. eauto. }
  destruct (String.eqb (JsString.toLowerCase address) (JsString.toLowerCase WETH_ADDRESS)).
  { cbn. eauto. }
  unfold try_catch, Promise_all, publicClient_readSymbol, publicClient_readDecimals,
    cache_set, ret.
  cbn [world tokenMetadataCache requests].
  destruct (readSymbol (world st) address) as [w1 [s|]];
    cbn [world tokenMetadataCache requests];
    destruct (readDecimals w1 address) as [w2 [d|]]; cbn [world tokenMetadataCache requests].
  all: do 2 eexists; (split; [reflexivity|]); cbn [requests];
    rewrite !multicalls_app; cbn; rewrite !app_nil_r; reflexivity.
Qed.

(** The batches are the input cut into consecutive pieces of at most 500
    addresses, none of them empty. *)
Lemma batches_spec (allAddresses : list string) (fuel : nat) : forall i,
  (length allAddresses <= i + fuel)%nat ->
  concat (batches fuel allAddresses i) = drop i allAddresses
  /\ Forall (fun batch => (0 < length batch <= MULTICALL_BATCH_SIZE)%nat)
       (batches fuel allAddresses i).
Proof.
  induction fuel as [|fuel IH]; intros i Hfuel; cbn [batches].
  - split; [|constructor]. rewrite drop_ge by lia. reflexivity.
  - destruct (i <? length allAddresses)%nat eqn:Hi.
    + apply Nat.ltb_lt in Hi.
      assert (Hpos : (0 < MULTICALL_BATCH_SIZE)%nat) by (unfold MULTICALL_BATCH_SIZE; lia).
      destruct (IH (i + MULTICALL_BATCH_SIZE)%nat ltac:(lia)) as [Hcat Hall].
      split.
      * cbn [concat]. rewrite Hcat, <- drop_drop. apply take_drop.
      * constructor; [|exact Hall].
        rewrite length_take, length_drop. lia.
    + apply Nat.ltb_ge in Hi. split; [|constructor].
      rewrite drop_ge by lia. reflexivity.
Qed.

(** The loop of [getTotalClaimable] reads its batches one after the other
    and absorbs each result map; it does not run out of fuel. *)
Lemma batch_loop_eq feeOwner (allAddresses : list string) (fuel : nat) : forall i acc st,
  (length allAddresses <= i + fuel)%nat ->
  batch_loop fuel feeOwner allAddresses i acc st
  = let '(maps, st') := read_batches feeOwner (batches fuel allAddresses i) st in
    (Normal (fold_left absorb maps acc), st').
Proof.
  induction fuel as [|fuel IH]; intros i acc st Hfuel; cbn [batch_loop batches].
  - assert (Hi : (i <? length allAddresses)%nat = false) by (apply Nat.ltb_ge; lia).
    rewrite Hi. reflexivity.
  - destruct (i <? length allAddresses)%nat eqn:Hi; [|reflexivity].
    cbn [read_batches]. unfold bind.
    destruct (getFees_normal st feeOwner (take MULTICALL_BATCH_SIZE (drop i allAddresses)))
      as (results & st1 & Hrun & _).
    rewrite Hrun.
    assert (Hpos : (0 < MULTICALL_BATCH_SIZE)%nat) by (unfold MULTICALL_BATCH_SIZE; lia).
    rewrite IH by lia.
    destruct (read_batches feeOwner
                (batches fuel allAddresses (i + MULTICALL_BATCH_SIZE)) st1) as [maps st2].
    reflexivity.
Qed.

(** Reading batches: one result map per batch, over the addresses of the
    batch, and one multicall request per batch. *)
Lemma read_batches_spec feeOwner (bs : list (list string)) : forall st,
  Forall (fun batch => batch <> []) bs ->
  let '(maps, st') := read_batches feeOwner bs st in
  Forall2 (fun batch m =>
             (forall a, is_Some (JsMap.get a m) <-> a ∈ batch)
             /\ NoDup (JsMap.keys m)) bs maps
  /\ multicalls (requests st')
     = multicalls (requests st) ++ map (availableFees_calls feeOwner) bs
  /\ tokenMetadataCache st' = tokenMetadataCache st.
Proof.
  induction bs as [|batch bs IH]; intros st Hne; cbn [read_batches].
  - rewrite app_nil_r. repeat split; constructor.
  - inversion Hne as [|? ? Hb Hbs]; subst.
    destruct (getFees_normal st feeOwner batch)
      as (results & st1 & Hrun & Hcache & Hkeys & Hnd & Hreq).
    rewrite Hrun. specialize (IH st1 Hbs).
    destruct (read_batches feeOwner bs st1) as [maps st2].
    destruct IH as (Hall & Hreq2 & Hcache2).
    split; [constructor; auto|]. split; [|congruence].
    rewrite Hreq2, Hreq. destruct batch; [congruence|].
    rewrite <- app_assoc. reflexivity.
Qed.

Lemma record_fees_positive acc (entry : string * Z) :
  positive_fees acc -> positive_fees (record_fees acc entry).
Proof.
  destruct acc as [fees pushed], entry as [a z]. unfold positive_fees, record_fees.
  cbn [fst snd]. intros [Hpushed Hpos].
  destruct (z >? 0)%Z eqn:Hz; cbn [fst snd]; [|split; assumption].
  apply Z.gtb_lt in Hz. split.
  - intros x Hx. rewrite JsMap_get_set.
    destruct (String.eqb a x) eqn:E; [eauto|].
    apply String.eqb_neq in E.
    apply elem_of_app in Hx. destruct Hx as [Hx|Hx]; [auto|].
    apply list_elem_of_singleton in Hx. congruence.
  - intros x zx. rewrite JsMap_get_set.
    destruct (String.eqb a x); [intros E; inversion E; subst; exact Hz | apply Hpos].
Qed.

Lemma absorb_all_positive (maps : list (JsMap.t Z)) : forall acc,
  positive_fees acc -> positive_fees (fold_left absorb maps acc).
Proof.
  induction maps as [|m maps IH]; intros acc Hacc; cbn [fold_left]; [exact Hacc|].
  apply IH. unfold absorb, JsMap.entries.
  clear IH. revert acc Hacc. induction m as [|entry m IHm]; intros acc Hacc; cbn [fold_left].
  - exact Hacc.
  - apply IHm, record_fees_positive, Hacc.
Qed.

(** The rewards loop: one reward per address pushed, in order, each with
    the amount recorded for its address; it sends no multicall. *)
Lemma build_rewards_spec (fees : JsMap.t Z) (pushed : list string) :
  forall (built : list RewardAsset) st,
    (forall a, a ∈ pushed -> is_Some (JsMap.get a fees)) ->
    exists rs st',
      build_rewards fees pushed built st = (Normal (built ++ rs), st')
      /\ map address rs = pushed
      /\ Forall (fun r => exists z, JsMap.get (address r) fees = Some z
                                    /\ amount r = BigInt.toString z) rs
      /\ multicalls (requests st') = multicalls (requests st).
Proof.
  induction pushed as [|a pushed IH]; intros built st Hfees; cbn [build_rewards].
  - exists [], st. rewrite app_nil_r. repeat split; auto.
  - unfold bind at 1.
    destruct (getTokenMetadata_normal st a) as (metadata & st1 & Hmeta & Hreq1).
    rewrite Hmeta.
    destruct (Hfees a ltac:(left)) as [z Hz]. rewrite Hz.
    destruct (IH (built ++
                  [{| address := a;
                      reward_symbol := symbol metadata;
                      reward_decimals := decimals metadata;
                      amount := BigInt.toString z;
                      formattedAmount := formatTokenAmount z (decimals metadata) |}])
                st1 ltac:(intros x Hx; apply Hfees; right; exact Hx))
      as (rs & st' & Hrun & Hmap & Hall & Hreq).
    eexists (_ :: rs), st'. rewrite Hrun, <- app_assoc. cbn [app map address].
    split; [reflexivity|]. split; [f_equal; exact Hmap|].
    split; [|congruence].
    constructor; [|exact Hall]. exists z. cbn [address amount]. auto.
Qed.

Lemma drop_0_concat (allAddresses : list string) :
  concat (batches (length allAddresses) allAddresses 0) = allAddresses.
Proof.
  destruct (batches_spec allAddresses (length allAddresses) 0 ltac:(lia)) as [Hcat _].
  rewrite Hcat. apply drop_0.
Qed.

Lemma batches_nonempty (allAddresses : list string) (fuel i : nat) :
  (length allAddresses <= i + fuel)%nat ->
  Forall (fun batch => batch <> []) (batches fuel allAddresses i).
Proof.
  intros Hfuel. destruct (batches_spec allAddresses fuel i Hfuel) as [_ Hall].
  eapply Forall_impl; [exact Hall|]. intros batch [Hpos _] ->. cbn in Hpos. lia.
Qed.

(** C2.  For every owner and candidate list, [getTotalClaimable] returns a
    snapshot (it does not throw); the multicalls it sends read
    [availableFees] of the owner for the candidates followed by the
    wrapped-native address, in this order; no reward of the snapshot has
    the amount ["0"] (each amount is the text of a positive integer); and
    [tokenAddresses] is the sequence of the addresses of [rewards]. *)
Theorem getTotalClaimable_snapshot st feeOwner (candidates : list string) :
  exists snapshot st',
    getTotalClaimable feeOwner candidates st = (Normal snapshot, st')
    /\ concat (multicalls (requests st'))
       = concat (multicalls (requests st))
         ++ availableFees_calls feeOwner (candidates ++ [WETH_ADDRESS])
    /\ Forall (fun r => amount r <> "0"
                        /\ exists z, 0 < z /\ amount r = BigInt.toString z)
         (rewards snapshot)
    /\ map address (rewards snapshot) = tokenAddresses snapshot.
Proof.
  unfold getTotalClaimable. set (allAddresses := candidates ++ [WETH_ADDRESS]).
  unfold bind at 1. rewrite batch_loop_eq by lia.
  pose proof (read_batches_spec feeOwner (batches (length allAddresses) allAddresses 0) st
                (batches_nonempty allAddresses (length allAddresses) 0 ltac:(lia))) as Hread.
  destruct (read_batches feeOwner (batches (length allAddresses) allAddresses 0) st)
    as [maps st1].
  destruct Hread as (_ & Hreq1 & _).
  assert (Hpos : positive_fees (fold_left absorb maps (JsMap.empty, []))).
  { apply absorb_all_positive. split; [intros a Ha; inversion Ha | intros a z Hz; discriminate]. }
  destruct (fold_left absorb maps (JsMap.empty, [])) as [fees pushed].
  destruct Hpos as [Hpushed Hpositive]. cbn [fst snd] in *.
  unfold bind.
  destruct (build_rewards_spec fees pushed [] st1 Hpushed)
    as (rs & st' & Hrun & Hmap & Hall & Hreq).
  rewrite Hrun. cbn [app]. unfold ret.
  do 2 eexists. split; [reflexivity|]. cbn [rewards tokenAddresses].
  split; [|split; [|exact Hmap]].
  - rewrite Hreq, Hreq1, concat_app. f_equal.
    unfold availableFees_calls. rewrite <- concat_map, drop_0_concat. reflexivity.
  - eapply Forall_impl; [exact Hall|]. intros r (z & Hz & Hamount).
    apply Hpositive in Hz. split; [|eauto].
    rewrite Hamount. apply toString_positive, Hz.
Qed.

Lemma assigned_iff (a : string) (m : JsMap.t Z) (batch : list string) :
  (forall x, is_Some (JsMap.get x m) <-> x ∈ batch) ->
  assigned a m = true <-> a ∈ batch.
Proof.
  intros Hkeys. rewrite <- Hkeys. unfold assigned.
  destruct (JsMap.get a m); split; eauto; try discriminate.
  intros [? ?]. discriminate.
Qed.

Lemma assignments_cons (a : string) (m : JsMap.t Z) (maps : list (JsMap.t Z)) :
  assignments a (m :: maps)
  = ((if assigned a m then 1 else 0) + assignments a maps)%nat.
Proof. unfold assignments. cbn [List.filter]. destruct (assigned a m); reflexivity. Qed.

(** An address of no batch is given no amount. *)
Lemma assignments_none (a : string) (bs : list (list string)) (maps : list (JsMap.t Z)) :
  Forall2 (fun batch m =>
             (forall x, is_Some (JsMap.get x m) <-> x ∈ batch)
             /\ NoDup (JsMap.keys m)) bs maps ->
  a ∉ concat bs -> assignments a maps = 0%nat.
Proof.
  intros Hmaps. induction Hmaps as [|batch m bs' maps' [Hkeys _] _ IH]; intros Hnot;
    [reflexivity|].
  rewrite assignments_cons. cbn [concat] in Hnot.
  destruct (assigned a m) eqn:Ha.
  - exfalso. apply Hnot, elem_of_app. left. apply (assigned_iff a m batch Hkeys). exact Ha.
  - rewrite IH; [reflexivity|]. intros Hx. apply Hnot, elem_of_app. right. exact Hx.
Qed.

(** An address of some batch is given an amount at least once. *)
Lemma assignments_some (a : string) (bs : list (list string)) (maps : list (JsMap.t Z)) :
  Forall2 (fun batch m =>
             (forall x, is_Some (JsMap.get x m) <-> x ∈ batch)
             /\ NoDup (JsMap.keys m)) bs maps ->
  a ∈ concat bs -> (1 <= assignments a maps)%nat.
Proof.
  intros Hmaps. induction Hmaps as [|batch m bs' maps' [Hkeys _] _ IH]; intros Hin.
  - inversion Hin.
  - rewrite assignments_cons. cbn [concat] in Hin. apply elem_of_app in Hin.
    destruct (assigned a m) eqn:Ha; [lia|].
    destruct Hin as [Hin|Hin]; [|specialize (IH Hin); lia].
    apply (assigned_iff a m batch Hkeys) in Hin. congruence.
Qed.

(** When no address is repeated, an address is given an amount once. *)
Lemma assignments_once (a : string) (bs : list (list string)) (maps : list (JsMap.t Z)) :
  Forall2 (fun batch m =>
             (forall x, is_Some (JsMap.get x m) <-> x ∈ batch)
             /\ NoDup (JsMap.keys m)) bs maps ->
  NoDup (concat bs) -> a ∈ concat bs -> assignments a maps = 1%nat.
Proof.
  intros Hmaps. induction Hmaps as [|batch m bs' maps' [Hkeys Hnd] Hrest IH]; intros Hnodup Hin.
  - inversion Hin.
  - rewrite assignments_cons. cbn [concat] in Hnodup, Hin.
    apply NoDup_app in Hnodup. destruct Hnodup as (_ & Hdisjoint & Hnodup').
    apply elem_of_app in Hin.
    destruct (assigned a m) eqn:Ha.
    + apply (assigned_iff a m batch Hkeys) in Ha.
      rewrite (assignments_none a bs' maps' Hrest); [reflexivity|].
      apply Hdisjoint. exact Ha.
    + destruct Hin as [Hin|Hin]; [|rewrite IH by assumption; reflexivity].
      apply (assigned_iff a m batch Hkeys) in Hin. congruence.
Qed.

(** C7, as amended.  The aggregation cuts the address list (the candidates
    and the wrapped-native address after them) into consecutive chunks of
    1 to 500 addresses, reads them one after the other, and works on the
    result maps of these reads.  Each result map gives an amount to the
    addresses of its chunk and to no other, once each; so every input
    address is given an amount at least once, and exactly once when no
    address is repeated in the list. *)
Theorem batches_cover_input st feeOwner (candidates : list string) :
  let allAddresses := candidates ++ [WETH_ADDRESS] in
  let bs := batches (length allAddresses) allAddresses 0 in
  let maps := fst (read_batches feeOwner bs st) in
  concat bs = allAddresses
  /\ Forall (fun batch => (0 < length batch <= 500)%nat) bs
  /\ Forall2 (fun batch m =>
                (forall x, is_Some (JsMap.get x m) <-> x ∈ batch)
                /\ NoDup (JsMap.keys m)) bs maps
  /\ batch_loop (length allAddresses) feeOwner allAddresses 0 (JsMap.empty, []) st
     = (Normal (fold_left absorb maps (JsMap.empty, [])),
        snd (read_batches feeOwner bs st))
  /\ (forall a, a ∈ allAddresses -> (1 <= assignments a maps)%nat)
  /\ (NoDup allAddresses -> forall a, a ∈ allAddresses -> assignments a maps = 1%nat).
Proof.
  intros allAddresses bs maps.
  pose proof (drop_0_concat allAddresses) as Hcat. fold bs in Hcat.
  destruct (batches_spec allAddresses (length allAddresses) 0 ltac:(lia)) as [_ Hsizes].
  pose proof (read_batches_spec feeOwner bs st
                (batches_nonempty allAddresses (length allAddresses) 0 ltac:(lia))) as Hread.
  pose proof (batch_loop_eq feeOwner allAddresses (length allAddresses) 0
                (JsMap.empty, []) st ltac:(lia)) as Hloop.
  fold bs in Hloop. subst maps.
  destruct (read_batches feeOwner bs st) as [maps st1]. cbn [fst snd].
  destruct Hread as (Hmaps & _ & _).
  split; [exact Hcat|]. split; [exact Hsizes|]. split; [exact Hmaps|].
  split; [exact Hloop|]. rewrite <- Hcat. split.
  - intros a. apply assignments_some. exact Hmaps.
  - intros Hnodup a. apply assignments_once; assumption.
Qed.

End AggregationFacts.

Lemma distinct_NoDup (l : list string) : Samples.distinct l = true -> NoDup l.
Proof.
  induction l as [|a l IH]; intros Hd; [constructor|].
  cbn [Samples.distinct] in Hd. apply andb_true_iff in Hd. destruct Hd as [Ha Hl].
  constructor; [|exact (IH Hl)].
  intros Hin. apply negb_true_iff in Ha.
  assert (Hex : existsb (String.eqb a) l = true).
  { apply existsb_exists. exists a. split; [|apply String.eqb_refl].
    apply list_elem_of_In. exact Hin. }
  congruence.
Qed.

(** C7 on a list without repetition that is longer than a chunk: 600
    candidates and the wrapped-native address are read as a chunk of 500
    and a chunk of 101, and each of the 601 addresses is given an amount
    once. *)
Lemma batches_cover_input_sample :
  let allAddresses := Samples.many_tokens ++ [Contracts.WETH_ADDRESS] in
  let bs := Contracts.batches (length allAddresses) allAddresses 0 in
  let maps :=
    fst (Contracts.read_batches (H := Samples.chain) Samples.owner bs
           Samples.fresh_contracts) in
  length allAddresses = 601%nat
  /\ map (@length string) bs = [500; 101]%nat
  /\ NoDup allAddresses
  /\ Forall (fun a => Contracts.assignments a maps = 1%nat) allAddresses.
Proof.
  intros allAddresses bs maps.
  assert (Hnodup : NoDup allAddresses)
    by (apply distinct_NoDup; vm_compute; reflexivity).
  split; [vm_compute; reflexivity|]. split; [vm_compute; reflexivity|].
  split; [exact Hnodup|].
  destruct (batches_cover_input (H := Samples.chain) Samples.fresh_contracts
              Samples.owner Samples.many_tokens) as (_ & _ & _ & _ & _ & Honce).
  apply Forall_forall. exact (Honce Hnodup).
Defined.

(** C7, as stated, fails on a list that repeats an address across two
    chunks: with the wrapped-native address first among 500 candidates, the
    first chunk and the second (the address appended) both give it an
    amount, and the snapshot lists it twice. *)
Lemma batches_assign_twice :
  let candidates := Contracts.WETH_ADDRESS :: Samples.other_tokens in
  let allAddresses := candidates ++ [Contracts.WETH_ADDRESS] in
  let maps :=
    fst (Contracts.read_batches (H := Samples.chain) Samples.owner
           (Contracts.batches (length allAddresses) allAddresses 0)
           Samples.fresh_contracts) in
  length allAddresses = 501%nat
  /\ Contracts.assignments Contracts.WETH_ADDRESS maps = 2%nat
  /\ fst (Contracts.getTotalClaimable (H := Samples.chain) (H0 := Samples.intl)
            Samples.owner candidates Samples.fresh_contracts)
     = Contracts.Normal
         {| Contracts.rewards := [Samples.weth_reward; Samples.weth_reward];
            Contracts.tokenAddresses := [Contracts.WETH_ADDRESS; Contracts.WETH_ADDRESS] |}.
Proof. vm_compute. repeat split. Qed.

(* ===================================================================== *)
(** * Numbers and their texts *)
(* ===================================================================== *)

Section NumberFacts.
Import JsNumber.

Local Open Scope Q_scope.
Local Open Scope string_scope.

(** ** Powers of two *)


Lemma pow2_pos e : 0 < pow2 e.
Proof. unfold pow2. apply Qpower_0_lt. reflexivity. Qed.

Lemma pow2_plus a b : pow2 (a + b) == pow2 a * pow2 b.
Proof. unfold pow2. apply Qpower_plus. discriminate. Qed.

Lemma pow2_le a b : (a <= b)%Z -> pow2 a <= pow2 b.
Proof. intros. unfold pow2. apply Qpower_le_compat_l; [assumption | discriminate]. Qed.

Lemma pow2_lt a b : (a < b)%Z -> pow2 a < pow2 b.
Proof. intros. unfold pow2. apply Qpower_lt_compat_l; [assumption | reflexivity]. Qed.

Lemma pow2_Z e : (0 <= e)%Z -> pow2 e == inject_Z (2 ^ e).
Proof. intros He. unfold pow2. rewrite Zpower_Qpower by exact He. reflexivity. Qed.

Lemma inject_Z_lt a b : (a < b)%Z -> inject_Z a < inject_Z b.
Proof. rewrite <- Zlt_Qlt. auto. Qed.

Lemma inject_Z_le a b : (a <= b)%Z -> inject_Z a <= inject_Z b.
Proof. rewrite <- Zle_Qle. auto. Qed.

(** The bounds of a positive rational by powers of two. *)
Lemma log2_bounds x :
  0 < x ->
  let c := (Z.log2 (Qnum x) - Z.log2 (Zpos (Qden x)))%Z in
  pow2 (c - 1) < x /\ x < pow2 (c + 1).
Proof.
  intros Hx c. destruct x as [p q]. cbn [Qnum Qden] in c.
  assert (Hp : (0 < p)%Z).
  { unfold Qlt in Hx. cbn in Hx. lia. }
  set (a := Z.log2 p) in *. set (b := Z.log2 (Z.pos q)) in *.
  destruct (Z.log2_spec p Hp) as [Hpl Hpu]. fold a in Hpl, Hpu.
  destruct (Z.log2_spec (Z.pos q) ltac:(lia)) as [Hql Hqu]. fold b in Hql, Hqu.
  assert (Ha : (0 <= a)%Z) by apply Z.log2_nonneg.
  assert (Hb : (0 <= b)%Z) by apply Z.log2_nonneg.
  assert (Hq0 : 0 < inject_Z (Z.pos q)) by reflexivity.
  assert (Hx' : p # q == inject_Z p / inject_Z (Z.pos q)) by apply Qmake_Qdiv.
  apply inject_Z_le in Hpl, Hql. apply inject_Z_lt in Hpu, Hqu.
  change (Z.succ a) with (a + 1)%Z in Hpu. change (Z.succ b) with (b + 1)%Z in Hqu.
  rewrite <- pow2_Z in Hpl, Hpu, Hql, Hqu by lia.
  split.
  - rewrite Hx'. apply Qlt_shift_div_l; [exact Hq0|].
    apply Qlt_le_trans with (pow2 (c - 1) * pow2 (b + 1)).
    + apply Qmult_lt_l; [apply pow2_pos | exact Hqu].
    + rewrite <- pow2_plus. replace (c - 1 + (b + 1))%Z with a by (unfold c; lia). exact Hpl.
  - rewrite Hx'. apply Qlt_shift_div_r; [exact Hq0|].
    apply Qlt_le_trans with (pow2 (c + 1) * pow2 b).
    + rewrite <- pow2_plus. replace (c + 1 + b)%Z with (a + 1)%Z by (unfold c; lia). exact Hpu.
    + apply Qmult_le_l; [apply pow2_pos | exact Hql].
Qed.

Lemma ilog2_spec x : 0 < x -> pow2 (ilog2 x) <= x /\ x < pow2 (ilog2 x + 1).
Proof.
  intros Hx. destruct (log2_bounds x Hx) as [Hl Hu]. unfold ilog2.
  set (c := (Z.log2 (Qnum x) - Z.log2 (Zpos (Qden x)))%Z) in *.
  destruct (Qle_bool (pow2 c) x) eqn:Hc.
  - apply Qle_bool_iff in Hc. auto.
  - split; [apply Qlt_le_weak; exact Hl|].
    replace (c - 1 + 1)%Z with c by lia.
    apply Qnot_le_lt. intros Hle. apply Qle_bool_iff in Hle. congruence.
Qed.

Lemma ilog2_unique x e :
  pow2 e <= x -> x < pow2 (e + 1) -> ilog2 x = e.
Proof.
  intros Hl Hu.
  assert (Hx : 0 < x) by (eapply Qlt_le_trans; [apply pow2_pos | exact Hl]).
  destruct (ilog2_spec x Hx) as [Hl' Hu'].
  assert (H1 : (ilog2 x < e + 1)%Z).
  { apply (Qpower_lt_compat_l_inv 2); [|reflexivity]. fold (pow2 (ilog2 x)) (pow2 (e + 1)).
    eapply Qle_lt_trans; eassumption. }
  assert (H2 : (e < ilog2 x + 1)%Z).
  { apply (Qpower_lt_compat_l_inv 2); [|reflexivity]. fold (pow2 e) (pow2 (ilog2 x + 1)).
    eapply Qle_lt_trans; eassumption. }
  lia.
Qed.

Lemma ilog2_comp x y : 0 < x -> x == y -> ilog2 x = ilog2 y.
Proof.
  intros Hx Hxy. symmetry. destruct (ilog2_spec x Hx) as [Hl Hu].
  apply ilog2_unique; rewrite <- Hxy; assumption.
Qed.

Lemma ilog2_mono x y : 0 < x -> x <= y -> (ilog2 x <= ilog2 y)%Z.
Proof.
  intros Hx Hxy.
  assert (Hy : 0 < y) by (eapply Qlt_le_trans; eassumption).
  destruct (ilog2_spec x Hx) as [Hl _]. destruct (ilog2_spec y Hy) as [_ Hu].
  assert (H1 : (ilog2 x < ilog2 y + 1)%Z).
  { apply (Qpower_lt_compat_l_inv 2); [|reflexivity].
    fold (pow2 (ilog2 x)) (pow2 (ilog2 y + 1)).
    eapply Qle_lt_trans; [exact Hl|]. eapply Qle_lt_trans; eassumption. }
  lia.
Qed.

(** ** Rounding to an integer *)

Lemma Qfloor_bounds x : inject_Z (Qfloor x) <= x /\ x < inject_Z (Qfloor x) + 1.
Proof.
  split; [apply Qfloor_le|].
  pose proof (Qlt_floor x) as H. rewrite inject_Z_plus in H. exact H.
Qed.

Lemma round_half_even_cases x :
  let f := Qfloor x in
  (round_half_even x = f /\ x - inject_Z f <= 1 # 2)
  \/ (round_half_even x = (f + 1)%Z /\ 1 # 2 <= x - inject_Z f).
Proof.
  intros f. unfold round_half_even. fold f.
  destruct (Qcompare_spec (x - inject_Z f) (1 # 2)) as [He|Hl|Hg].
  - destruct (Z.even f); [left | right]; split; auto; rewrite He; apply Qle_refl.
  - left. split; [reflexivity | apply Qlt_le_weak; exact Hl].
  - right. split; [reflexivity | apply Qlt_le_weak; exact Hg].
Qed.

Lemma round_half_even_comp x y : x == y -> round_half_even x = round_half_even y.
Proof.
  intros Hxy. unfold round_half_even.
  rewrite (Qfloor_comp x y Hxy).
  assert (Hc : Qcompare (x - inject_Z (Qfloor y)) (1 # 2)
               = Qcompare (y - inject_Z (Qfloor y)) (1 # 2)).
  { apply Qcompare_comp; [rewrite Hxy|]; reflexivity. }
  rewrite Hc. reflexivity.
Qed.

Lemma round_half_even_Z n : round_half_even (inject_Z n) = n.
Proof.
  unfold round_half_even. rewrite Qfloor_Z.
  assert (Hc : Qcompare (inject_Z n - inject_Z n) (1 # 2) = Lt).
  { apply Qlt_alt. unfold Qminus. rewrite Qplus_opp_r. reflexivity. }
  rewrite Hc. reflexivity.
Qed.

Lemma round_half_even_mono x y : x <= y -> (round_half_even x <= round_half_even y)%Z.
Proof.
  intros Hxy.
  pose proof (Qfloor_resp_le x y Hxy) as Hf.
  destruct (Z.eq_dec (Qfloor x) (Qfloor y)) as [Heq|Hne].
  - unfold round_half_even. rewrite Heq.
    set (f := Qfloor y).
    destruct (Qcompare_spec (x - inject_Z f) (1 # 2)) as [He|Hl|Hg];
      destruct (Qcompare_spec (y - inject_Z f) (1 # 2)) as [He'|Hl'|Hg'];
      try destruct (Z.even f); try lia; exfalso; lra.
  - destruct (round_half_even_cases x) as [[Hx _]|[Hx _]];
      destruct (round_half_even_cases y) as [[Hy _]|[Hy _]]; lia.
Qed.

Lemma round_half_even_ge x n : inject_Z n <= x -> (n <= round_half_even x)%Z.
Proof.
  intros H. rewrite <- (round_half_even_Z n). apply round_half_even_mono, H.
Qed.

Lemma round_half_even_le x n : x <= inject_Z n -> (round_half_even x <= n)%Z.
Proof.
  intros H. rewrite <- (round_half_even_Z n). apply round_half_even_mono, H.
Qed.

(** ** Rounding to binary64 *)

Lemma round_pos_rounded x :
  round_pos x = if Qle_bool (pow2 1024) (rounded x) then PosInfinity else Finite (rounded x).
Proof. reflexivity. Qed.

Lemma ulp_exponent_comp x y : 0 < x -> x == y -> ulp_exponent x = ulp_exponent y.
Proof. intros Hx Hxy. unfold ulp_exponent. rewrite (ilog2_comp x y Hx Hxy). reflexivity. Qed.

Lemma round_pos_comp x y : 0 < x -> x == y -> round_pos x = round_pos y.
Proof.
  intros Hx Hxy. unfold round_pos, rounded.
  rewrite (ulp_exponent_comp x y Hx Hxy).
  rewrite (round_half_even_comp (x / pow2 (ulp_exponent y)) (y / pow2 (ulp_exponent y)))
    by (rewrite Hxy; reflexivity).
  reflexivity.
Qed.

Lemma of_rational_comp x y : x == y -> of_rational x = of_rational y.
Proof.
  intros Hxy. unfold of_rational.
  rewrite (Qcompare_comp x y Hxy 0 0 ltac:(reflexivity)).
  destruct (Qcompare_spec y 0) as [He|Hl|Hg]; [reflexivity| |].
  - rewrite (round_pos_comp (- x) (- y)); [reflexivity | lra | rewrite Hxy; reflexivity].
  - apply round_pos_comp; [lra | exact Hxy].
Qed.

Lemma div_pow2_le x y e : x <= y -> x / pow2 e <= y / pow2 e.
Proof.
  intros Hxy. apply Qle_shift_div_l; [apply pow2_pos|].
  unfold Qdiv. rewrite <- Qmult_assoc, (Qmult_comm (/ pow2 e)), Qmult_inv_r, Qmult_1_r.
  - exact Hxy.
  - intros H0. pose proof (pow2_pos e). lra.
Qed.

Lemma div_pow2_eq e1 e2 : pow2 e1 / pow2 e2 == pow2 (e1 - e2).
Proof. unfold pow2. rewrite Qpower_minus by discriminate. reflexivity. Qed.

Lemma rounded_mono x y : 0 < x -> x <= y -> rounded x <= rounded y.
Proof.
  intros Hx Hxy.
  assert (Hy : 0 < y) by (eapply Qlt_le_trans; eassumption).
  pose proof (ilog2_mono x y Hx Hxy) as Hlog.
  destruct (ilog2_spec x Hx) as [_ Hxu]. destruct (ilog2_spec y Hy) as [Hyl _].
  unfold rounded, ulp_exponent.
  set (Ex := (Z.max (ilog2 x) (-1022) - 52)%Z).
  set (Ey := (Z.max (ilog2 y) (-1022) - 52)%Z).
  assert (HE : (Ex <= Ey)%Z) by (unfold Ex, Ey; lia).
  destruct (Z.eq_dec Ex Ey) as [Heq|Hne].
  - rewrite Heq. apply Qmult_le_compat_r; [|apply Qlt_le_weak, pow2_pos].
    apply inject_Z_le, round_half_even_mono, div_pow2_le, Hxy.
  - apply Qle_trans with (pow2 (Ey + 52)).
    + apply Qle_trans with (inject_Z (2 ^ 53) * pow2 Ex).
      * apply Qmult_le_compat_r; [|apply Qlt_le_weak, pow2_pos].
        apply inject_Z_le, round_half_even_le.
        assert (H53 : inject_Z (2 ^ 53) == pow2 (Ex + 53) / pow2 Ex).
        { rewrite div_pow2_eq. replace (Ex + 53 - Ex)%Z with 53%Z by lia.
          symmetry. apply pow2_Z. lia. }
        rewrite H53. apply div_pow2_le. apply Qlt_le_weak.
        eapply Qlt_le_trans; [exact Hxu|]. apply pow2_le. unfold Ex. lia.
      * rewrite <- pow2_Z by lia. rewrite <- pow2_plus. apply pow2_le. lia.
    + assert (Hnormal : (Ey + 52 = ilog2 y)%Z) by (unfold Ex, Ey in *; lia).
      apply Qle_trans with (inject_Z (2 ^ 52) * pow2 Ey).
      * rewrite <- pow2_Z by lia. rewrite <- pow2_plus.
        replace (52 + Ey)%Z with (Ey + 52)%Z by lia. apply Qle_refl.
      * apply Qmult_le_compat_r; [|apply Qlt_le_weak, pow2_pos].
        apply inject_Z_le, round_half_even_ge.
        assert (H52 : inject_Z (2 ^ 52) == pow2 (Ey + 52) / pow2 Ey).
        { rewrite div_pow2_eq. replace (Ey + 52 - Ey)%Z with 52%Z by lia.
          symmetry. apply pow2_Z. lia. }
        rewrite H52. apply div_pow2_le. rewrite Hnormal. exact Hyl.
Qed.

Lemma round_pos_mono x y : 0 < x -> x <= y -> lt (round_pos y) (round_pos x) = false.
Proof.
  intros Hx Hxy. pose proof (rounded_mono x y Hx Hxy) as Hr.
  rewrite !round_pos_rounded.
  destruct (Qle_bool (pow2 1024) (rounded x)) eqn:Hox;
    destruct (Qle_bool (pow2 1024) (rounded y)) eqn:Hoy; cbn [lt]; try reflexivity.
  - apply Qle_bool_iff in Hox.
    assert (Hoy' : Qle_bool (pow2 1024) (rounded y) = true)
      by (apply Qle_bool_iff; eapply Qle_trans; eassumption).
    congruence.
  - destruct (Qcompare_spec (rounded y) (rounded x)) as [He|Hl|Hg]; try reflexivity.
    exfalso. lra.
Qed.

(** ** Decimal texts *)


Lemma string_app_cons (x : ascii) (a b : string) :
  (String x a ++ b)%string = String x (a ++ b).
Proof. reflexivity. Qed.

Lemma string_app_nil_l (b : string) : (EmptyString ++ b)%string = b.
Proof. reflexivity. Qed.

Lemma string_app_assoc (a b c : string) : ((a ++ b) ++ c = a ++ (b ++ c))%string.
Proof.
  induction a as [|x a IH]; [reflexivity|].
  rewrite !string_app_cons, IH. reflexivity.
Qed.

Lemma string_app_nil_r (a : string) : (a ++ EmptyString)%string = a.
Proof.
  induction a as [|x a IH]; [reflexivity|]. rewrite string_app_cons, IH. reflexivity.
Qed.

Lemma string_length_app (a b : string) :
  String.length (a ++ b) = (String.length a + String.length b)%nat.
Proof.
  induction a as [|x a IH]; [reflexivity|].
  rewrite string_app_cons. cbn [String.length]. rewrite IH. reflexivity.
Qed.

Lemma length_replicate_string n c : String.length (JsString.replicate n c) = n.
Proof. induction n as [|n IH]; cbn; [reflexivity | f_equal; exact IH]. Qed.

Lemma all_digits_app (a b : string) :
  all_digits (a ++ b) = all_digits a && all_digits b.
Proof.
  induction a as [|x a IH]; [reflexivity|].
  rewrite string_app_cons. cbn [all_digits]. rewrite IH. apply Bool.andb_assoc.
Qed.

Lemma all_digits_zeros n : all_digits (JsString.replicate n "0"%char) = true.
Proof. induction n as [|n IH]; cbn; [reflexivity | exact IH]. Qed.

Lemma digits_value_app (a b : string) : forall acc,
  digits_value acc (a ++ b) = digits_value (digits_value acc a) b.
Proof.
  induction a as [|x a IH]; intros acc; [reflexivity|].
  rewrite string_app_cons. cbn [digits_value]. apply IH.
Qed.

Lemma digits_value_zeros n : forall acc,
  digits_value acc (JsString.replicate n "0"%char) = (acc * 10 ^ Z.of_nat n)%Z.
Proof.
  induction n as [|n IH]; intros acc.
  - cbn. lia.
  - cbn [JsString.replicate digits_value]. rewrite IH.
    change (Z.of_nat (nat_of_ascii "0") - 48)%Z with 0%Z.
    rewrite Nat2Z.inj_succ, Z.pow_succ_r by lia. lia.
Qed.

(** *** The digits of a bigint *)

Lemma string_of_uint_digits (d : Decimal.uint) :
  all_digits (NilEmpty.string_of_uint d) = true.
Proof. induction d; cbn; auto. Qed.

Lemma string_of_uint_value (d : Decimal.uint) : forall acc : positive,
  digits_value (Z.pos acc) (NilEmpty.string_of_uint d) = Z.pos (Pos.of_uint_acc d acc).
Proof.
  induction d; intros acc; cbn [NilEmpty.string_of_uint digits_value Pos.of_uint_acc];
    try reflexivity; rewrite <- IHd; f_equal;
    rewrite ?Pos2Z.inj_add, ?Pos2Z.inj_mul;
    match goal with
    | |- context [Z.of_nat (nat_of_ascii ?c)] =>
        let v := eval vm_compute in (Z.of_nat (nat_of_ascii c)) in
        change (Z.of_nat (nat_of_ascii c)) with v
    end; lia.
Qed.

Lemma string_of_uint_value_0 (d : Decimal.uint) :
  digits_value 0 (NilEmpty.string_of_uint d) = Z.of_N (Pos.of_uint d).
Proof.
  induction d; cbn [NilEmpty.string_of_uint digits_value Pos.of_uint]; try reflexivity;
    try exact IHd;
    match goal with
    | |- _ = Z.of_N (N.pos (Pos.of_uint_acc _ ?k)) => exact (string_of_uint_value d k)
    end.
Qed.

Lemma toString_digits (a : Z) :
  (0 <= a)%Z ->
  all_digits (BigInt.toString a) = true
  /\ BigInt.toString a <> EmptyString
  /\ digits_value 0 (BigInt.toString a) = a.
Proof.
  intros Ha. destruct a as [|p|p]; [repeat split; discriminate | | lia].
  unfold BigInt.toString. cbn [Z.to_int NilZero.string_of_int].
  pose proof (DecimalPos.Unsigned.to_uint_nonnil p) as Hnil.
  assert (Hs : NilZero.string_of_uint (Pos.to_uint p) = NilEmpty.string_of_uint (Pos.to_uint p)).
  { destruct (Pos.to_uint p); [congruence | reflexivity ..]. }
  rewrite Hs. split; [apply string_of_uint_digits|]. split.
  - destruct (Pos.to_uint p); [congruence | discriminate ..].
  - rewrite string_of_uint_value_0, DecimalPos.Unsigned.of_to. reflexivity.
Qed.

(** *** Pieces of texts *)

Lemma substring_all (s : string) : String.substring 0 (String.length s) s = s.
Proof. induction s as [|c s IH]; cbn; [reflexivity | f_equal; exact IH]. Qed.

Lemma substring_split (s : string) : forall n,
  (n <= String.length s)%nat ->
  (String.substring 0 n s ++ String.substring n (String.length s - n) s)%string = s.
Proof.
  induction s as [|c s IH]; intros n Hn.
  - destruct n; reflexivity.
  - destruct n as [|n].
    + cbn [String.substring]. rewrite string_app_nil_l.
      change (String.length (String c s) - 0)%nat with (S (String.length s)).
      cbn [String.substring]. f_equal. apply substring_all.
    + cbn [String.substring String.length Nat.sub]. rewrite string_app_cons. f_equal.
      apply IH. cbn in Hn. lia.
Qed.

Lemma substring_tail_length (s : string) : forall n,
  (n <= String.length s)%nat ->
  String.length (String.substring n (String.length s - n) s) = (String.length s - n)%nat.
Proof.
  induction s as [|c s IH]; intros n Hn.
  - destruct n; reflexivity.
  - destruct n as [|n].
    + change (String.length (String c s) - 0)%nat with (String.length (String c s)).
      rewrite substring_all. reflexivity.
    + cbn [String.substring String.length Nat.sub]. apply IH. cbn in Hn. lia.
Qed.

Lemma string_rev_app (a b : string) : JsString.rev (a ++ b) = (JsString.rev b ++ JsString.rev a)%string.
Proof.
  induction a as [|x a IH].
  - rewrite string_app_nil_l. cbn [JsString.rev]. rewrite string_app_nil_r. reflexivity.
  - rewrite string_app_cons. cbn [JsString.rev]. rewrite IH, string_app_assoc. reflexivity.
Qed.

Lemma string_rev_involutive (s : string) : JsString.rev (JsString.rev s) = s.
Proof.
  induction s as [|x s IH]; [reflexivity|].
  cbn [JsString.rev]. rewrite string_rev_app, IH. reflexivity.
Qed.

Lemma string_rev_zeros n : JsString.rev (JsString.replicate n "0"%char) = JsString.replicate n "0"%char.
Proof.
  induction n as [|n IH]; [reflexivity|].
  cbn [JsString.replicate JsString.rev]. rewrite IH. clear IH.
  induction n as [|n IH]; [reflexivity|].
  cbn [JsString.replicate]. rewrite string_app_cons, IH. reflexivity.
Qed.

Lemma drop_leading_zeros_spec (t : string) :
  exists k, t = (JsString.replicate k "0"%char ++ JsString.drop_leading_zeros t)%string.
Proof.
  induction t as [|c t [k IH]]; [exists 0%nat; reflexivity|].
  destruct (Ascii.ascii_dec c "0"%char) as [->|Hc].
  - exists (S k). cbn [JsString.drop_leading_zeros JsString.replicate].
    rewrite string_app_cons. f_equal. exact IH.
  - exists 0%nat. rewrite string_app_nil_l.
    destruct c as [[] [] [] [] [] [] [] []]; try reflexivity. congruence.
Qed.

Lemma strip_trailing_zeros_spec (s : string) :
  exists k, s = (JsString.strip_trailing_zeros s ++ JsString.replicate k "0"%char)%string.
Proof.
  unfold JsString.strip_trailing_zeros.
  destruct (drop_leading_zeros_spec (JsString.rev s)) as [k Hk].
  exists k. rewrite <- (string_rev_involutive s) at 1. rewrite Hk at 1.
  rewrite string_rev_app, string_rev_zeros. reflexivity.
Qed.

Lemma span_digits_app (i r : string) :
  all_digits i = true ->
  match r with EmptyString => True | String c _ => is_digit c = false end ->
  span_digits (i ++ r) = (i, r).
Proof.
  intros Hi Hr. induction i as [|c i IH].
  - rewrite string_app_nil_l. destruct r as [|c r]; [reflexivity|].
    cbn [span_digits]. rewrite Hr. reflexivity.
  - cbn [all_digits] in Hi. apply andb_prop in Hi. destruct Hi as [Hc Hi].
    rewrite string_app_cons. cbn [span_digits]. rewrite Hc, (IH Hi). reflexivity.
Qed.

Lemma split_sign_digit (c : ascii) (s : string) :
  is_digit c = true -> split_sign (String c s) = (false, String c s).
Proof.
  intros Hc. destruct c as [[] [] [] [] [] [] [] []]; try reflexivity; discriminate Hc.
Qed.

Lemma prefix_minus_digit (c : ascii) (s : string) :
  is_digit c = true -> String.prefix "-" (String c s) = false.
Proof.
  intros Hc. destruct c as [[] [] [] [] [] [] [] []]; try reflexivity; discriminate Hc.
Qed.

(** *** [parseFloat] after [formatUnits] *)

Lemma padStart0_spec (n : nat) (s : string) :
  all_digits s = true ->
  all_digits (JsString.padStart0 n s) = true
  /\ digits_value 0 (JsString.padStart0 n s) = digits_value 0 s
  /\ (n <= String.length (JsString.padStart0 n s))%nat.
Proof.
  intros Hs. unfold JsString.padStart0.
  rewrite all_digits_app, all_digits_zeros, Hs, digits_value_app, digits_value_zeros,
    string_length_app, length_replicate_string.
  split; [reflexivity|]. split; [f_equal; lia | lia].
Qed.

Lemma inject_Z_pow10_nonzero (n : nat) : ~ inject_Z (10 ^ Z.of_nat n) == 0.
Proof.
  intros H0. assert (Hpos : (0 < 10 ^ Z.of_nat n)%Z) by (apply Z.pow_pos_nonneg; lia).
  apply inject_Z_lt in Hpos. rewrite H0 in Hpos. apply (Qlt_irrefl 0). exact Hpos.
Qed.

Lemma parseFloat_formatUnits (a : Z) (d : nat) :
  (0 <= a)%Z ->
  parseFloat (Contracts.formatUnits a d)
  = of_rational (inject_Z a / inject_Z (10 ^ Z.of_nat d)).
Proof.
  intros Ha. destruct (toString_digits a Ha) as (Hdig & Hne & Hval).
  unfold Contracts.formatUnits. cbv zeta.
  destruct (BigInt.toString a) as [|c0 rest0] eqn:Hd0; [congruence|].
  assert (Hc0 : is_digit c0 = true).
  { cbn [all_digits] in Hdig. apply andb_prop in Hdig. tauto. }
  rewrite !(prefix_minus_digit c0 rest0 Hc0). cbv iota.
  destruct (padStart0_spec d (String c0 rest0) Hdig) as (Hpdig & Hpval & Hplen).
  rewrite Hval in Hpval.
  set (display := JsString.padStart0 d (String c0 rest0)) in *.
  unfold JsString.slice, JsString.slice_from. rewrite Nat.sub_0_r.
  set (n := (String.length display - d)%nat).
  pose proof (substring_split display n ltac:(lia)) as Hsplit.
  pose proof (substring_tail_length display n ltac:(lia)) as Hflen.
  set (whole := String.substring 0 n display) in *.
  set (F0 := String.substring n (String.length display - n) display) in *.
  destruct (strip_trailing_zeros_spec F0) as [k HF0].
  set (F := JsString.strip_trailing_zeros F0) in *.
  assert (Hd : d = (String.length F + k)%nat).
  { rewrite HF0, string_length_app, length_replicate_string in Hflen. lia. }
  rewrite <- Hsplit, HF0 in Hpdig, Hpval.
  rewrite !all_digits_app in Hpdig.
  apply andb_prop in Hpdig. destruct Hpdig as [Hwhole HF].
  apply andb_prop in HF. destruct HF as [HF _].
  rewrite <- string_app_assoc, digits_value_app, digits_value_zeros in Hpval.
  (* the integer part as printed *)
  set (intpart := if JsString.truthy whole then whole else "0").
  assert (Hint : exists ci i', intpart = String ci i' /\ is_digit ci = true
                               /\ all_digits intpart = true
                               /\ digits_value 0 (intpart ++ F) = digits_value 0 (whole ++ F)).
  { unfold intpart. destruct whole as [|ci i'].
    - exists "0"%char, EmptyString. repeat split.
    - cbn [all_digits] in Hwhole. apply andb_prop in Hwhole. destruct Hwhole as [Hci Hi'].
      exists ci, i'. cbn [JsString.truthy all_digits]. rewrite Hci, Hi'. repeat split. }
  destruct Hint as (ci & i' & Hintpart & Hci & Hidig & Hival).
  set (rest := if JsString.truthy F then ("." ++ F)%string else EmptyString).
  assert (Hrest : match rest with EmptyString => True | String c _ => is_digit c = false end).
  { unfold rest. destruct (JsString.truthy F); [reflexivity | exact Logic.I]. }
  assert (Hfrac : fraction_digits rest = F).
  { unfold rest. destruct F as [|cf f'] eqn:HFeq; [reflexivity|].
    cbn [JsString.truthy]. rewrite string_app_cons, string_app_nil_l.
    cbn [fraction_digits].
    pose proof (span_digits_app (String cf f') EmptyString HF Logic.I) as Hsp.
    rewrite string_app_nil_r in Hsp. rewrite Hsp. reflexivity. }
  rewrite string_app_nil_l.
  unfold parseFloat.
  rewrite Hintpart at 1. rewrite string_app_cons, (split_sign_digit ci _ Hci).
  rewrite <- string_app_cons, <- Hintpart.
  rewrite (span_digits_app intpart rest Hidig Hrest), Hfrac.
  rewrite Hintpart at 1. rewrite string_app_cons. cbv iota.
  rewrite <- string_app_cons, <- Hintpart, Hival.
  apply of_rational_comp.
  rewrite <- Hpval, Hd, Nat2Z.inj_add, Z.pow_add_r by lia.
  rewrite !inject_Z_mult.
  pose proof (inject_Z_pow10_nonzero (String.length F)) as HA.
  pose proof (inject_Z_pow10_nonzero k) as HB.
  field. split; assumption.
Qed.

(** ** The bands of [formatTokenAmount] *)

Lemma rounded_nonneg x : 0 < x -> 0 <= rounded x.
Proof.
  intros Hx. unfold rounded.
  apply Qmult_le_0_compat; [|apply Qlt_le_weak, pow2_pos].
  change 0 with (inject_Z 0). apply inject_Z_le, round_half_even_ge.
  change (inject_Z 0) with 0. apply Qle_shift_div_l; [apply pow2_pos|].
  rewrite Qmult_0_l. apply Qlt_le_weak, Hx.
Qed.

Lemma of_rational_0 x : x == 0 -> of_rational x = Finite 0.
Proof. intros Hx. rewrite (of_rational_comp x 0 Hx). reflexivity. Qed.

Lemma of_rational_pos x : 0 < x -> of_rational x = round_pos x.
Proof.
  intros Hx. unfold of_rational.
  destruct (Qcompare_spec x 0) as [He|Hl|Hg]; [| |reflexivity]; exfalso; lra.
Qed.

(** Rounding keeps the order. *)
Lemma of_rational_mono x y :
  0 <= x -> x <= y -> lt (of_rational y) (of_rational x) = false.
Proof.
  intros Hx Hxy.
  destruct (Qlt_le_dec 0 x) as [Hpos|Hzero].
  - rewrite !of_rational_pos by lra. apply round_pos_mono; assumption.
  - rewrite (of_rational_0 x) by lra.
    destruct (Qlt_le_dec 0 y) as [Hypos|Hyzero].
    + rewrite of_rational_pos by exact Hypos. rewrite round_pos_rounded.
      pose proof (rounded_nonneg y Hypos) as Hr.
      destruct (Qle_bool (pow2 1024) (rounded y)); [reflexivity|].
      cbn [lt]. destruct (Qcompare_spec (rounded y) 0) as [He|Hl|Hg]; try reflexivity.
      exfalso. lra.
    + rewrite (of_rational_0 y) by lra. reflexivity.
Qed.

(** A value at or above a positive number that does not round to zero does
    not round to zero. *)
Lemma of_rational_nonzero c x :
  0 < c -> 0 < rounded c -> c <= x -> is_zero (of_rational x) = false.
Proof.
  intros Hc Hrc Hcx. rewrite of_rational_pos by lra. rewrite round_pos_rounded.
  pose proof (rounded_mono c x Hc Hcx) as Hr.
  destruct (Qle_bool (pow2 1024) (rounded x)); [reflexivity|].
  cbn [is_zero]. destruct (Qeq_bool (rounded x) 0) eqn:He; [|reflexivity].
  apply Qeq_bool_iff in He. exfalso. lra.
Qed.


End NumberFacts.

Section Bands.
Import JsNumber Contracts.
Context `{Intl}.

Local Open Scope Q_scope.
Local Open Scope string_scope.

Lemma scaled_nonneg (amount : Z) (decimals : nat) :
  (0 <= amount)%Z -> 0 <= inject_Z amount / inject_Z (10 ^ Z.of_nat decimals).
Proof.
  intros Ha. apply Qle_shift_div_l.
  - change 0 with (inject_Z 0). apply inject_Z_lt, Z.pow_pos_nonneg; lia.
  - rewrite Qmult_0_l. change 0 with (inject_Z 0). apply inject_Z_le, Ha.
Qed.

Lemma rounded_0_0001_pos : 0 < rounded (1 # 10000).
Proof. vm_compute. reflexivity. Qed.

(** C5, as amended.  For every non-negative integer amount and decimal
    count, the text is a function of the two (and of the host's Intl in the
    last band).  With [v = amount / 10 ^ decimals] and [num] the double
    nearest to [v], which is the number the code parses and tests, the text
    is ["0"] when [num] is zero, [num.toExponential(4)] when
    [num < 0.0001], [num.toFixed(6)] when [num < 1], [num.toFixed(4)] when
    [num < 1000], and the en-US Intl format of [num] with at most 2 fraction
    digits otherwise.  Rounding keeps the order, so [num] is on the side of
    each threshold where [v] is, or on the threshold: a [v] of zero gives
    ["0"], a [v] from 0.0001 on gives neither ["0"] nor scientific notation,
    a [v] from 1 on gives no 6-digit text, a [v] from 1000 on gives the
    grouped text; and a [v] of exactly 0.0001, 1 and 1000 gives
    ["0.000100"], ["1.0000"] and the grouped text of 1000. *)
Theorem formatTokenAmount_bands (amount : Z) (decimals : nat) :
  (0 <= amount)%Z ->
  let v := inject_Z amount / inject_Z (10 ^ Z.of_nat decimals) in
  let num := of_rational v in
  let result := formatTokenAmount amount decimals in
  parseFloat (formatUnits amount decimals) = num
  /\ result
     = (if is_zero num then "0"%string
        else if lt num lit_0_0001 then toExponential 4 num
        else if lt num lit_1 then toFixed 6 num
        else if lt num lit_1000 then toFixed 4 num
        else NumberFormat_format "en-US" 2 num)
  /\ (v == 0 -> result = "0"%string)
  /\ (v < 1 # 10000 -> lt lit_0_0001 num = false)
  /\ (1 # 10000 <= v -> is_zero num = false /\ lt num lit_0_0001 = false)
  /\ (v < 1 -> lt lit_1 num = false)
  /\ (1 <= v -> lt num lit_1 = false)
  /\ (v < 1000 -> lt lit_1000 num = false)
  /\ (1000 <= v -> result = NumberFormat_format "en-US" 2 num)
  /\ (v == 1 # 10000 -> result = "0.000100"%string)
  /\ (v == 1 -> result = "1.0000"%string)
  /\ (v == 1000 -> result = NumberFormat_format "en-US" 2 lit_1000).
Proof.
  intros Ha v num result.
  pose proof (parseFloat_formatUnits amount decimals Ha) as Hnum. fold v num in Hnum.
  pose proof (scaled_nonneg amount decimals Ha) as Hv. fold v in Hv.
  assert (Hres : result
     = (if is_zero num then "0"%string
        else if lt num lit_0_0001 then toExponential 4 num
        else if lt num lit_1 then toFixed 6 num
        else if lt num lit_1000 then toFixed 4 num
        else NumberFormat_format "en-US" 2 num)).
  { unfold result, formatTokenAmount. cbv zeta. rewrite Hnum. reflexivity. }
  assert (Hlow : 1 # 10000 <= v -> is_zero num = false /\ lt num lit_0_0001 = false).
  { intros Hge. split.
    - apply (of_rational_nonzero (1 # 10000)); [reflexivity | apply rounded_0_0001_pos | exact Hge].
    - apply of_rational_mono; [discriminate | exact Hge]. }
  assert (Hone : 1 <= v -> lt num lit_1 = false).
  { intros Hge. apply of_rational_mono; [discriminate | exact Hge]. }
  assert (Hat : forall c, v == c -> num = of_rational c).
  { intros c Hc. apply of_rational_comp, Hc. }
  split; [exact Hnum|]. split; [exact Hres|].
  split; [intros H0; rewrite Hres, (Hat 0 H0); reflexivity|].
  split; [intros Hlt; apply of_rational_mono; [exact Hv | apply Qlt_le_weak, Hlt]|].
  split; [exact Hlow|].
  split; [intros Hlt; apply of_rational_mono; [exact Hv | apply Qlt_le_weak, Hlt]|].
  split; [exact Hone|].
  split; [intros Hlt; apply of_rational_mono; [exact Hv | apply Qlt_le_weak, Hlt]|].
  split.
  { intros Hge. rewrite Hres.
    destruct Hlow as [Hz Hl1]; [lra|]. rewrite Hz, Hl1, Hone by lra.
    assert (Hl3 : lt num lit_1000 = false)
      by (apply of_rational_mono; [discriminate | exact Hge]).
    rewrite Hl3. reflexivity. }
  split; [intros Hc; rewrite Hres, (Hat _ Hc); vm_compute; reflexivity|].
  split; [intros Hc; rewrite Hres, (Hat _ Hc); vm_compute; reflexivity|].
  intros Hc. rewrite Hres, (Hat _ Hc). reflexivity.
Qed.

End Bands.

Section FixedPoint.
Import JsNumber.

Local Open Scope string_scope.

Lemma substring_head_length (s : string) : forall n,
  (n <= String.length s)%nat -> String.length (String.substring 0 n s) = n.
Proof.
  induction s as [|c s IH]; intros n Hn.
  - destruct n; [reflexivity | cbn in Hn; lia].
  - destruct n as [|n]; [reflexivity|].
    cbn [String.substring String.length]. f_equal. apply IH. cbn in Hn. lia.
Qed.

(** [toFixed(f)] of a finite number that is not negative writes an integer
    part, a point, and [f] digits. *)
Lemma toFixed_shape (f : nat) (x : Q) :
  (0 < f)%nat -> (0 <= x)%Q ->
  exists a b,
    toFixed f (Finite x) = (a ++ "." ++ b)%string
    /\ String.length b = f
    /\ (0 < String.length a)%nat.
Proof.
  intros Hf Hx. unfold toFixed.
  apply Qle_bool_iff in Hx. rewrite Hx. rewrite string_app_nil_l.
  destruct f as [|f']; [lia|].
  set (f := S f') in *.
  set (m0 := if (round_half_up (Qabs x * pow10 (Z.of_nat f)) =? 0)%Z
             then "0" else digits (round_half_up (Qabs x * pow10 (Z.of_nat f)))).
  set (m := if (String.length m0 <=? f)%nat
            then (JsString.replicate (f + 1 - String.length m0) "0"%char ++ m0)%string
            else m0).
  assert (Hm : (f < String.length m)%nat).
  { unfold m. destruct (String.length m0 <=? f)%nat eqn:Hle.
    - apply Nat.leb_le in Hle.
      rewrite string_length_app, length_replicate_string. lia.
    - apply Nat.leb_gt in Hle. exact Hle. }
  unfold JsString.slice, JsString.slice_from. rewrite Nat.sub_0_r.
  do 2 eexists. split; [reflexivity|]. split.
  - rewrite substring_tail_length by lia. lia.
  - rewrite substring_head_length by lia. lia.
Qed.

End FixedPoint.

(** C5 on sample amounts, with the sample Intl: half a token of 18
    decimals is written with 6 fraction digits, one token with 4, a
    thousand tokens and [12 * 10 ^ 23] units of 6 decimals grouped, one
    unit of 18 decimals in scientific notation, and nothing as ["0"]. *)
Lemma formatTokenAmount_bands_sample :
  Contracts.formatTokenAmount (H := Samples.intl) 500000000000000000 18 = "0.500000"
  /\ Contracts.formatTokenAmount (H := Samples.intl) 1000000000000000000 18 = "1.0000"
  /\ Contracts.formatTokenAmount (H := Samples.intl) 1000000000000000000000 18 = "1,000"
  /\ Contracts.formatTokenAmount (H := Samples.intl) 1200000000000000000000000 6
     = "1,200,000,000,000,000,000"
  /\ Contracts.formatTokenAmount (H := Samples.intl) 100000000000000 18 = "0.000100"
  /\ Contracts.formatTokenAmount (H := Samples.intl) 1 18 = "1.0000e-18"
  /\ Contracts.formatTokenAmount (H := Samples.intl) 0 18 = "0".
Proof.
  refine (conj _ (conj _ (conj _ (conj _ (conj _ (conj _ _)))))).
  - destruct (formatTokenAmount_bands (H := Samples.intl) 500000000000000000 18
                (Pos2Z.is_nonneg _)) as (_ & Hres & _).
    rewrite Hres. vm_compute. reflexivity.
  - destruct (formatTokenAmount_bands (H := Samples.intl) 1000000000000000000 18
                (Pos2Z.is_nonneg _)) as (_ & _ & _ & _ & _ & _ & _ & _ & _ & _ & Hone & _).
    apply Hone. reflexivity.
  - destruct (formatTokenAmount_bands (H := Samples.intl) 1000000000000000000000 18
                (Pos2Z.is_nonneg _)) as (_ & _ & _ & _ & _ & _ & _ & _ & _ & _ & _ & Hk).
    rewrite Hk by reflexivity. vm_compute. reflexivity.
  - destruct (formatTokenAmount_bands (H := Samples.intl) 1200000000000000000000000 6
                (Pos2Z.is_nonneg _)) as (_ & _ & _ & _ & _ & _ & _ & _ & Hbig & _).
    rewrite Hbig by (vm_compute; discriminate). vm_compute. reflexivity.
  - destruct (formatTokenAmount_bands (H := Samples.intl) 100000000000000 18
                (Pos2Z.is_nonneg _)) as (_ & _ & _ & _ & _ & _ & _ & _ & _ & Hlow & _).
    apply Hlow. reflexivity.
  - destruct (formatTokenAmount_bands (H := Samples.intl) 1 18
                (Pos2Z.is_nonneg _)) as (_ & Hres & _).
    rewrite Hres. vm_compute. reflexivity.
  - destruct (formatTokenAmount_bands (H := Samples.intl) 0 18
                (Z.le_refl 0)) as (_ & _ & Hzero & _).
    apply Hzero. reflexivity.
Defined.

(** C5, as stated, fails just under a threshold: [10 ^ 18 - 1] units of 18
    decimals are [0.999999999999999999], inside the band of 6 fraction
    digits, and the text is ["1.0000"], since the nearest double is 1. *)
Lemma formatTokenAmount_rounds_across_band :
  let amount := 999999999999999999 in
  let v := (inject_Z amount / inject_Z (10 ^ 18))%Q in
  ((1 # 10000) <= v)%Q /\ (v < 1)%Q
  /\ Contracts.formatUnits amount 18 = "0.999999999999999999"
  /\ JsNumber.lt (JsNumber.parseFloat "0.999999999999999999") Contracts.lit_1 = false
  /\ Contracts.formatTokenAmount (H := Samples.intl) amount 18 = "1.0000"
  /\ JsNumber.toFixed 6 (JsNumber.parseFloat "0.999999999999999999") = "1.000000".
Proof.
  intros amount v.
  split; [vm_compute; discriminate|].
  split; [vm_compute; reflexivity|].
  split; [vm_compute; reflexivity|].
  split; [vm_compute; reflexivity|].
  split; vm_compute; reflexivity.
Qed.

(* ===================================================================== *)
(** * More of the result cache *)
(* ===================================================================== *)

Section CacheFacts.
Import Routes.
Context `{Host}.

Implicit Types (st : State) (refresh : option string).

(** X1.  An entry of the result cache that is 60000 ms old or older is
    not served; the bound itself counts as expired.  A request without
    [refresh=true] that finds such an entry calls the discovery once, in
    the world its clock reading left.  When the discovery answers, the
    answer is sent and replaces the entry, with the time read after the
    discovery; when it fails, the empty body is sent and the stale entry
    stays where it was. *)
Theorem expired_entry_recomputed st walletAddress refresh entry :
  JsString.truthy walletAddress = true ->
  refresh <> Some "true" ->
  tokenCache st !! JsString.toLowerCase walletAddress = Some entry ->
  CACHE_TTL <= snd (Date_now (world st)) - timestamp entry ->
  let key := JsString.toLowerCase walletAddress in
  let w1 := fst (Date_now (world st)) in
  let '(response, st') := get_api_tokens (Some walletAddress) refresh st in
  recomputations st' = recomputations st ++ [walletAddress]
  /\ match fetchTokensByCreator w1 walletAddress with
     | (w2, Some data) =>
         response = data
         /\ tokenCache st'
            = <[key := {| entry_data := data; timestamp := snd (Date_now w2) |}]> (tokenCache st)
         /\ world st' = fst (Date_now w2)
     | (w2, None) =>
         response = empty_response
         /\ tokenCache st' = tokenCache st
         /\ world st' = w2
     end.
Proof.
  intros Htruthy Hrefresh Hentry Hold key w1.
  unfold get_api_tokens, cache_phase. rewrite Htruthy. cbn [negb].
  rewrite (forceRefresh_false refresh Hrefresh). cbn [negb].
  rewrite Hentry.
  subst w1 key. destruct (Date_now (world st)) as [w now]. cbn [fst snd] in *.
  assert (Hmiss : (now - timestamp entry <? CACHE_TTL)%Z = false) by (apply Z.ltb_ge; exact Hold).
  rewrite Hmiss. cbn [world set_world tokenCache recomputations].
  destruct (fetchTokensByCreator w walletAddress) as [w2 [data|]].
  - destruct (Date_now w2) as [w3 now2]. cbn. auto.
  - cbn. auto.
Qed.

(** X2.  Wallets do not interfere in the result cache.  [GET /api/tokens]
    for a wallet leaves the entries of every other key as they are; the
    body it sends depends on the cache through the entry of its own key
    alone; and no [POST /api/cache/invalidate] changes that body, whatever
    its request body holds, unless it names the same key. *)
Theorem wallets_do_not_interfere st walletAddress refresh :
  let key := JsString.toLowerCase walletAddress in
  (forall k, k <> key ->
     tokenCache (snd (get_api_tokens (Some walletAddress) refresh st)) !! k
     = tokenCache st !! k)
  /\ (forall cache',
        cache' !! key = tokenCache st !! key ->
        fst (get_api_tokens (Some walletAddress) refresh (set_tokenCache cache' st))
        = fst (get_api_tokens (Some walletAddress) refresh st))
  /\ (forall body,
        (forall other, body = Some (FieldString other) ->
                       JsString.toLowerCase other <> key) ->
        fst (get_api_tokens (Some walletAddress) refresh
               (snd (post_cache_invalidate body st)))
        = fst (get_api_tokens (Some walletAddress) refresh st)).
Proof.
  intros key.
  assert (Hsame : forall cache',
        cache' !! key = tokenCache st !! key ->
        fst (get_api_tokens (Some walletAddress) refresh (set_tokenCache cache' st))
        = fst (get_api_tokens (Some walletAddress) refresh st)).
  { intros cache' Hsame. unfold get_api_tokens.
    destruct (JsString.truthy walletAddress); cbn [negb]; [|reflexivity].
    fold key. unfold cache_phase.
    destruct (match refresh with Some r => String.eqb r "true" | None => false end);
      cbn [negb world tokenCache set_tokenCache set_world recomputations].
    - destruct (fetchTokensByCreator (world st) walletAddress) as [w [data|]];
        [destruct (Date_now w)|]; reflexivity.
    - rewrite Hsame. destruct (tokenCache st !! key) as [cached|].
      + destruct (Date_now (world st)) as [w now].
        destruct (now - timestamp cached <? CACHE_TTL)%Z; [reflexivity|].
        cbn [world tokenCache set_tokenCache set_world recomputations].
        destruct (fetchTokensByCreator w walletAddress) as [w2 [data|]];
          [destruct (Date_now w2)|]; reflexivity.
      + cbn [world tokenCache set_tokenCache set_world recomputations].
        destruct (fetchTokensByCreator (world st) walletAddress) as [w [data|]];
          [destruct (Date_now w)|]; reflexivity. }
  split; [|split; [exact Hsame|]].
  - intros k Hk. unfold get_api_tokens.
    destruct (JsString.truthy walletAddress); cbn [negb]; [|reflexivity].
    fold key. unfold cache_phase.
    destruct (match refresh with Some r => String.eqb r "true" | None => false end);
      cbn [negb world tokenCache set_tokenCache set_world recomputations].
    + destruct (fetchTokensByCreator (world st) walletAddress) as [w [data|]].
      * destruct (Date_now w). cbn. rewrite lookup_insert_ne by congruence.
        apply lookup_delete_ne. congruence.
      * cbn. apply lookup_delete_ne. congruence.
    + destruct (tokenCache st !! key) as [cached|].
      * destruct (Date_now (world st)) as [w now].
        destruct (now - timestamp cached <? CACHE_TTL)%Z; [reflexivity|].
        cbn [world tokenCache set_tokenCache set_world recomputations].
        destruct (fetchTokensByCreator w walletAddress) as [w2 [data|]].
        -- destruct (Date_now w2). cbn. apply lookup_insert_ne. congruence.
        -- reflexivity.
      * destruct (fetchTokensByCreator (world st) walletAddress) as [w [data|]].
        -- destruct (Date_now w). cbn. apply lookup_insert_ne. congruence.
        -- reflexivity.
  - intros body Hother. unfold post_cache_invalidate.
    destruct body as [[|other|[|]]|]; cbn [snd]; try reflexivity.
    destruct (JsString.truthy other); cbn [snd]; [|reflexivity].
    apply Hsame. apply lookup_delete_ne. exact (Hother other eq_refl).
Qed.

(** X3.  A failed discovery is not cached.  When a request that finds no
    entry for its key, or that carries [refresh=true], meets a discovery
    that fails, it sends the empty body and leaves the key without an
    entry; so the next request for the key, however the address is spelled
    and whatever its [refresh] field, calls the discovery again. *)
Theorem failed_discovery_not_cached st walletAddress refresh :
  JsString.truthy walletAddress = true ->
  refresh = Some "true" \/ tokenCache st !! JsString.toLowerCase walletAddress = None ->
  snd (fetchTokensByCreator (world st) walletAddress) = None ->
  let key := JsString.toLowerCase walletAddress in
  let '(response, st') := get_api_tokens (Some walletAddress) refresh st in
  response = empty_response
  /\ tokenCache st' !! key = None
  /\ recomputations st' = recomputations st ++ [walletAddress]
  /\ forall refresh' walletAddress',
       JsString.truthy walletAddress' = true ->
       JsString.toLowerCase walletAddress' = key ->
       recomputations (snd (get_api_tokens (Some walletAddress') refresh' st'))
       = recomputations st ++ [walletAddress; walletAddress'].
Proof.
  intros Htruthy Hmiss Hfail key.
  assert (Hphase : exists st1,
             cache_phase
               match refresh with Some r => String.eqb r "true" | None => false end
               key st = inr st1
             /\ world st1 = world st
             /\ recomputations st1 = recomputations st
             /\ tokenCache st1 !! key = None).
  { unfold cache_phase.
    destruct Hmiss as [-> | Hnone].
    - cbn [String.eqb Ascii.eqb Bool.eqb negb]. eexists. split; [reflexivity|].
      cbn. repeat split. apply lookup_delete_eq.
    - destruct (match refresh with Some r => String.eqb r "true" | None => false end);
        cbn [negb].
      + eexists. split; [reflexivity|]. cbn. repeat split. apply lookup_delete_eq.
      + fold key in Hnone. rewrite Hnone. eexists. split; [reflexivity|]. auto. }
  destruct Hphase as (st1 & Hphase & Hw & Hrec & Hnone).
  pose proof (get_api_tokens_recompute st refresh walletAddress st1 Htruthy Hphase) as Hrun.
  destruct (get_api_tokens (Some walletAddress) refresh st) as [response st'].
  rewrite Hw, Hfail in Hrun. destruct Hrun as (Hrec' & Hresp & Hcache).
  split; [exact Hresp|]. split; [rewrite Hcache; exact Hnone|].
  split; [rewrite Hrec', Hrec; reflexivity|].
  intros refresh' walletAddress' Htruthy' Hkey.
  assert (Hphase' : exists st2,
             cache_phase
               match refresh' with Some r => String.eqb r "true" | None => false end
               (JsString.toLowerCase walletAddress') st' = inr st2
             /\ recomputations st2 = recomputations st').
  { unfold cache_phase. rewrite Hkey, Hcache, Hnone.
    destruct (match refresh' with Some r => String.eqb r "true" | None => false end);
      cbn [negb]; eexists; (split; [reflexivity|]); reflexivity. }
  destruct Hphase' as (st2 & Hphase' & Hrec2).
  pose proof (get_api_tokens_recompute st' refresh' walletAddress' st2 Htruthy' Hphase')
    as Hrun'.
  destruct (get_api_tokens (Some walletAddress') refresh' st') as [response' st''].
  cbn [snd]. destruct Hrun' as [Hrun' _].
  rewrite Hrun', Hrec2, Hrec', Hrec, <- app_assoc. reflexivity.
Qed.

(** X4.  [POST /api/cache/invalidate] answers success or throws before it
    answers.  It answers success exactly when the body is there and its
    [walletAddress] is absent, falsy or a string; a truthy [walletAddress]
    that is no string, and a request without a body, make it throw, and
    then the state is left as it was.  A string that is not empty has the
    entry of its lower-cased form removed.  The handler is idempotent,
    leaves the world and the list of recomputations alone, adds no entry
    and changes none; and it leaves the whole state as it was when the
    wallet is the empty string or has no entry. *)
Theorem invalidate_idempotent st (body : option BodyField) :
  let done := post_cache_invalidate body st in
  (fst done = Contracts.Normal true
   <-> match body with
       | Some FieldAbsent | Some (FieldString _) | Some (FieldOther false) => True
       | Some (FieldOther true) | None => False
       end)
  /\ (fst done = Contracts.Normal true
      \/ (exists e, fst done = Contracts.Throw e) /\ snd done = st)
  /\ (forall w, body = Some (FieldString w) ->
                JsString.truthy w = true ->
                tokenCache (snd done) = delete (JsString.toLowerCase w) (tokenCache st))
  /\ post_cache_invalidate body (snd done) = done
  /\ world (snd done) = world st
  /\ recomputations (snd done) = recomputations st
  /\ (forall k entry, tokenCache (snd done) !! k = Some entry ->
                      tokenCache st !! k = Some entry)
  /\ (match body with
      | Some (FieldString w) =>
          JsString.truthy w = false \/ tokenCache st !! JsString.toLowerCase w = None
      | _ => True
      end -> snd done = st).
Proof.
  unfold post_cache_invalidate.
  destruct body as [[|w|[|]]|]; [|destruct (JsString.truthy w) eqn:Htruthy| | |];
    cbn [fst snd].
  2:{ split; [tauto|]. split; [left; reflexivity|].
      split; [intros w' Hw' _; inversion Hw'; subst; reflexivity|].
      split.
      { unfold set_tokenCache. cbn [world tokenCache recomputations].
        rewrite delete_delete_eq. reflexivity. }
      split; [reflexivity|]. split; [reflexivity|]. split.
      { intros k entry. cbn [tokenCache set_tokenCache].
        intros Hk. apply lookup_delete_Some in Hk. tauto. }
      intros [Hf | Hnone]; [discriminate|].
      destruct st as [w0 cache recs]. unfold set_tokenCache. cbn in *.
      f_equal. apply delete_id. exact Hnone. }
  all: split; [split; [intros Hd; first [exact Logic.I | discriminate]
                      | intros Hb; first [reflexivity | contradiction]]|].
  all: split; [first [left; reflexivity | right; split; [eexists; reflexivity | reflexivity]]|].
  all: split; [intros w' Hw' Ht; inversion Hw'; subst; congruence|].
  all: repeat split; auto.
Qed.

End CacheFacts.

(** X1 on a sample server: an entry stored at 0 is not served when the
    clock reads 60000; the discovery is called and its answer replaces the
    entry, with the time read after it. *)
Lemma expired_entry_recomputed_sample :
  let '(response, st') :=
    Routes.get_api_tokens (Some Samples.owner) None Samples.stale_server in
  response = Samples.one_reward
  /\ Routes.recomputations st' = [Samples.owner]
  /\ Routes.tokenCache st' !! JsString.toLowerCase Samples.owner
     = Some (@Routes.Build_CacheEntry Samples.host Samples.one_reward 61000).
Proof.
  pose proof (expired_entry_recomputed (H := Samples.host) Samples.stale_server
                Samples.owner None
                (@Routes.Build_CacheEntry Samples.host Samples.no_reward 0)
                eq_refl ltac:(discriminate) ltac:(vm_compute; reflexivity)
                ltac:(vm_compute; discriminate)) as Hrun.
  cbv zeta in Hrun.
  destruct (Routes.get_api_tokens (Some Samples.owner) None Samples.stale_server)
    as [response st'].
  change (fetchTokensByCreator
            (fst (Date_now (Routes.world Samples.stale_server))) Samples.owner)
    with (61000%Z, Some Samples.one_reward) in Hrun.
  destruct Hrun as (Hrec & Hresp & Hcache & _).
  split; [exact Hresp|]. split; [exact Hrec|].
  rewrite Hcache. apply lookup_insert_eq.
Defined.

(** X3 on a sample server whose discovery fails: the first request
    stores nothing, and the second calls the discovery again. *)
Lemma failed_discovery_not_cached_sample :
  let '(response, st') :=
    Routes.get_api_tokens (Some Samples.owner) None Samples.failing_server in
  response = empty_response
  /\ Routes.tokenCache st' !! JsString.toLowerCase Samples.owner = None
  /\ Routes.recomputations
       (snd (Routes.get_api_tokens (Some Samples.owner_mixed_case) None st'))
     = [Samples.owner; Samples.owner_mixed_case].
Proof.
  pose proof (failed_discovery_not_cached (H := Samples.failing_host)
                Samples.failing_server Samples.owner None
                eq_refl (or_intror eq_refl) eq_refl) as Hrun.
  cbv zeta in Hrun.
  destruct (Routes.get_api_tokens (Some Samples.owner) None Samples.failing_server)
    as [response st'].
  destruct Hrun as (Hresp & Hcache & _ & Hnext).
  split; [exact Hresp|]. split; [exact Hcache|].
  exact (Hnext None Samples.owner_mixed_case eq_refl eq_refl).
Defined.

(* ===================================================================== *)
(** * More of the refresh controller *)
(* ===================================================================== *)

Section RefreshFacts.
Import Home.
Context {Token : Type}.

Implicit Types (st : Home.State Token) (options : Options).
Implicit Types (data : TokensResponse Token).

(** X5.  Without [pollForZero] an admitted refresh makes one fetch and
    no wait, whatever [maxRetries] and [intervalMs] say.  It returns the
    body of the answer, or null when the fetch is rejected or the response
    is not ok; it consumes one answer of the network, and it leaves the
    guard and [isRefreshing] cleared. *)
Theorem refresh_without_polling_fetches_once options st address :
  pollForZero options <> Some true ->
  wallet_address st = Some address ->
  JsString.truthy address = true ->
  refreshLockRef st = false ->
  let url := tokens_url (default false (forceRefresh options)) address in
  exists st' events,
    refreshClaimableRewards options st
    = (match network st with ResponseOk body :: _ => Some body | _ => None end, st')
    /\ trace st' = trace st ++ events
    /\ schedule events = [Fetched url]
    /\ network st' = tail (network st)
    /\ refreshLockRef st' = false
    /\ isRefreshing st' = false.
Proof.
  intros Hpoll Hw Htruthy Hlock url.
  rewrite (refresh_admitted options st address Hw Htruthy Hlock).
  assert (Hp : default false (pollForZero options) = false).
  { destruct (pollForZero options) as [[|]|]; [congruence | reflexivity | reflexivity]. }
  rewrite Hp. cbv zeta iota.
  change (Z.to_nat 1) with 1%nat. cbn [attempts_loop]. unfold fetch_json.
  cbn [network emit set_refreshing].
  fold (tokens_url (default false (forceRefresh options)) address). fold url.
  destruct (network st) as [|[| |body] rest];
    cbv beta iota zeta; rewrite ?Hp; cbv beta iota zeta;
    do 2 eexists; (split; [reflexivity|]);
    unfold set_refreshing, emit;
    cbn [trace network refreshLockRef isRefreshing wallet_address tail];
    rewrite <- ?app_assoc;
    (split; [reflexivity|]); repeat split.
Qed.

(** X6.  A poll stops at the first fetch that fails.  When the fetches
    bring snapshots with rewards left and then, before [maxRetries] is
    reached, a fetch is rejected or not ok, the refresh returns null, not
    the last snapshot it fetched; it has made one fetch more than it got
    snapshots, with a wait before each fetch but the first, and it makes
    no fetch after the failed one; the guard and [isRefreshing] are
    cleared. *)
Theorem poll_stops_at_failed_fetch options st address
    (nonzero : list (TokensResponse Token)) (failure : FetchOutcome Token)
    (rest : list (FetchOutcome Token)) :
  pollForZero options = Some true ->
  wallet_address st = Some address ->
  JsString.truthy address = true ->
  refreshLockRef st = false ->
  Forall (fun data => Contracts.rewards (totalClaimable data) <> []) nonzero ->
  Z.of_nat (length nonzero) < default 6 (maxRetries options) ->
  failure = FetchRejected \/ failure = ResponseNotOk ->
  network st = map ResponseOk nonzero ++ failure :: rest ->
  let ms := default 2500 (intervalMs options) in
  let url := tokens_url (default false (forceRefresh options)) address in
  exists st' events,
    refreshClaimableRewards options st = (None, st')
    /\ trace st' = trace st ++ events
    /\ schedule events = separated (length nonzero + 1) url ms
    /\ network st' = rest
    /\ refreshLockRef st' = false
    /\ isRefreshing st' = false.
Proof.
  intros Hpoll Hw Htruthy Hlock Hnz Hlen Hfail Hnet ms url.
  rewrite (refresh_admitted options st address Hw Htruthy Hlock).
  rewrite Hpoll.
  change (default false (Some true)) with true. cbv beta iota zeta.
  set (maxAttempts := default 6 (maxRetries options)) in *.
  fold ms.
  set (fr := default false (forceRefresh options)) in *.
  set (st1 := emit (SetQueryData None) (set_refreshing true st)).
  assert (Hn1 : network st1 = network st) by reflexivity.
  destruct (attempts_loop_nonzero_prefix nonzero (Z.to_nat maxAttempts) 1 maxAttempts
              fr ms address None st1 (failure :: rest) Hnz
              ltac:(rewrite Hn1; exact Hnet) ltac:(lia) ltac:(lia))
    as (st_k & Hloop & Hnetk & Hwk & Hlk & Hrk & evs & Htk & Hsk).
  rewrite Hloop.
  destruct (Z.to_nat maxAttempts - length nonzero)%nat as [|remaining] eqn:Hrem; [lia|].
  cbn [attempts_loop]. unfold fetch_json. rewrite Hnetk.
  exists (set_refreshing false
            (emit (Fetched (tokens_url fr address))
               {| wallet_address := wallet_address st_k;
                  refreshLockRef := refreshLockRef st_k;
                  isRefreshing := isRefreshing st_k;
                  network := rest;
                  trace := trace st_k |})).
  exists ((SetQueryData None, true) :: evs
          ++ [(Fetched (tokens_url fr address), refreshLockRef st_k)]).
  split; [destruct Hfail as [-> | ->]; reflexivity|].
  cbn. rewrite Htk. unfold st1. cbn. rewrite <- !app_assoc. split; [reflexivity|].
  split; [|auto].
  change (schedule (evs ++ [(Fetched (tokens_url fr address), refreshLockRef st_k)])
          = separated (length nonzero + 1) url ms).
  rewrite schedule_app, Hsk, Nat.add_1_r. apply separated_snoc.
Qed.

End RefreshFacts.

(** X5 on a sample page: with [maxRetries] 9 and no [pollForZero], one
    fetch is made and the second answer of the network is left. *)
Lemma refresh_without_polling_sample :
  exists st',
    Home.refreshClaimableRewards
      {| Home.forceRefresh := Some true; Home.pollForZero := None;
         Home.maxRetries := Some 9; Home.intervalMs := None |}
      (Samples.home false [Home.ResponseOk Samples.one_reward;
                           Home.ResponseOk Samples.no_reward])
    = (Some Samples.one_reward, st')
    /\ Home.schedule (Home.trace st') = [Home.Fetched (Home.tokens_url true Samples.owner)]
    /\ Home.network st' = [Home.ResponseOk Samples.no_reward].
Proof.
  destruct (refresh_without_polling_fetches_once
              {| Home.forceRefresh := Some true; Home.pollForZero := None;
                 Home.maxRetries := Some 9; Home.intervalMs := None |}
              (Samples.home false [Home.ResponseOk Samples.one_reward;
                                   Home.ResponseOk Samples.no_reward])
              Samples.owner ltac:(discriminate) eq_refl eq_refl eq_refl)
    as (st' & events & Hrun & Htrace & Hschedule & Hnet & _).
  exists st'. split; [exact Hrun|]. split; [|exact Hnet].
  rewrite Htrace. exact Hschedule.
Defined.

(** X6 on a sample page: a snapshot with a reward and then a response
    that is not ok give null after two fetches and one wait. *)
Lemma poll_stops_at_failed_fetch_sample :
  exists st',
    Home.refreshClaimableRewards Samples.poll_three
      (Samples.home false [Home.ResponseOk Samples.one_reward; Home.ResponseNotOk;
                           Home.ResponseOk Samples.no_reward])
    = (None, st')
    /\ Home.schedule (Home.trace st')
       = [Home.Fetched (Home.tokens_url true Samples.owner); Home.Waited 2500;
          Home.Fetched (Home.tokens_url true Samples.owner)]
    /\ Home.network st' = [Home.ResponseOk Samples.no_reward].
Proof.
  assert (Hnz : Forall (fun data : TokensResponse unit =>
                          Contracts.rewards (totalClaimable data) <> [])
                  [Samples.one_reward])
    by (repeat constructor; discriminate).
  destruct (poll_stops_at_failed_fetch Samples.poll_three
              (Samples.home false [Home.ResponseOk Samples.one_reward; Home.ResponseNotOk;
                                   Home.ResponseOk Samples.no_reward])
              Samples.owner [Samples.one_reward] Home.ResponseNotOk
              [Home.ResponseOk Samples.no_reward]
              eq_refl eq_refl eq_refl eq_refl Hnz ltac:(vm_compute; reflexivity)
              (or_intror eq_refl) eq_refl)
    as (st' & events & Hrun & Htrace & Hschedule & Hnet & _).
  exists st'. split; [exact Hrun|]. split; [|exact Hnet].
  rewrite Htrace. exact Hschedule.
Defined.

(* ===================================================================== *)
(** * More of the aggregation *)
(* ===================================================================== *)

Section SnapshotFacts.
Import Contracts.
Context `{Chain} `{Intl}.

Implicit Types (st : State) (feeOwner : string) (acc : JsMap.t Z * list string).

Local Arguments JsString.toLowerCase : simpl never.

(** Setting a key the map does not hold appends the binding. *)
Lemma JsMap_set_fresh {V : Type} (k : string) (v : V) (m : JsMap.t V) :
  k ∉ JsMap.keys m -> JsMap.set k v m = m ++ [(k, v)].
Proof.
  unfold JsMap.keys. induction m as [|[k0 v0] m IH]; intros Hk; [reflexivity|].
  cbn [JsMap.set map fst] in *. apply not_elem_of_cons in Hk. destruct Hk as [Hne Hk].
  assert (E : String.eqb k0 k = false) by (apply String.eqb_neq; congruence).
  rewrite E. cbn [app]. f_equal. apply IH, Hk.
Qed.

(** Setting bindings of distinct keys, none of them held, appends them. *)
Lemma set_all_fresh {V : Type} (kvs : list (string * V)) : forall (m : JsMap.t V),
  NoDup (map fst kvs) ->
  (forall k, k ∈ map fst kvs -> k ∉ JsMap.keys m) ->
  fold_left (fun m kv => JsMap.set (fst kv) (snd kv) m) kvs m = m ++ kvs.
Proof.
  induction kvs as [|[k v] kvs IH]; intros m Hnd Hfresh; cbn [fold_left fst snd].
  - rewrite app_nil_r. reflexivity.
  - cbn [map fst] in Hnd. apply NoDup_cons in Hnd. destruct Hnd as [Hk Hnd].
    rewrite JsMap_set_fresh by (apply Hfresh; left).
    rewrite IH; [rewrite <- app_assoc; reflexivity | exact Hnd |].
    intros k' Hk' Hin. unfold JsMap.keys in Hin. rewrite map_app in Hin.
    apply elem_of_app in Hin. destruct Hin as [Hin|Hin].
    + apply (Hfresh k'); [right; exact Hk' | exact Hin].
    + cbn in Hin. apply list_elem_of_singleton in Hin. subst k'. contradiction.
Qed.

(** The result map of a chunk without repetition binds its addresses, in
    order, to the amounts recorded. *)
Lemma getFees_NoDup st feeOwner chunk :
  NoDup chunk ->
  let answer := snd (multicall (world st) (availableFees_calls feeOwner chunk)) in
  fst (getFeesForAddressesMulticall feeOwner chunk st)
  = Normal (zip chunk (recorded_amounts answer (length chunk))).
Proof.
  intros Hnd answer. rewrite getFeesForAddressesMulticall_eq.
  destruct chunk as [|a0 chunk0]; [reflexivity|].
  set (chunk := a0 :: chunk0) in *. subst answer. cbv zeta.
  destruct (multicall (world st) (availableFees_calls feeOwner chunk)) as [w answer].
  cbn [fst snd]. f_equal.
  pose proof (recorded_amounts_length answer (length chunk)) as Hlen.
  rewrite set_all_fresh; [reflexivity | |].
  - rewrite map_fst_zip by lia. exact Hnd.
  - intros k _ Hin. inversion Hin.
Qed.

(** What the loop over the result maps pushes and records. *)
Lemma record_fees_all (entries : list (string * Z)) : forall acc,
  fold_left record_fees entries acc
  = (fold_left (fun m kv => JsMap.set (fst kv) (snd kv) m)
       (List.filter (fun e => (snd e >? 0)%Z) entries) (fst acc),
     snd acc ++ map fst (List.filter (fun e => (snd e >? 0)%Z) entries)).
Proof.
  induction entries as [|[a z] entries IH]; intros [fees pushed]; cbn [fold_left List.filter fst snd].
  - rewrite app_nil_r. reflexivity.
  - rewrite IH. unfold record_fees. destruct (z >? 0)%Z; cbn [fst snd fold_left map].
    + rewrite <- app_assoc. reflexivity.
    + reflexivity.
Qed.

Lemma absorb_all (maps : list (JsMap.t Z)) : forall acc,
  fold_left absorb maps acc
  = (fold_left (fun m kv => JsMap.set (fst kv) (snd kv) m)
       (List.filter (fun e => (snd e >? 0)%Z) (concat maps)) (fst acc),
     snd acc ++ map fst (List.filter (fun e => (snd e >? 0)%Z) (concat maps))).
Proof.
  induction maps as [|m maps IH]; intros [fees pushed]; cbn [fold_left concat fst snd].
  - rewrite app_nil_r. reflexivity.
  - rewrite IH. unfold absorb, JsMap.entries. rewrite record_fees_all. cbn [fst snd].
    rewrite List.filter_app, fold_left_app, map_app, <- app_assoc. reflexivity.
Qed.

(** The requests of the metadata resolver: none, or the two reads of the
    address. *)
Lemma getTokenMetadata_reads st address :
  exists metadata st' reads,
    getTokenMetadata address st = (Normal metadata, st')
    /\ requests st' = requests st ++ reads
    /\ (reads = []
        \/ reads = [ReadContractRequest address "symbol";
                    ReadContractRequest address "decimals"]
           /\ JsString.toLowerCase address <> JsString.toLowerCase WETH_ADDRESS).
Proof.
  unfold getTokenMetadata, bind, get_cache.
  destruct (tokenMetadataCache st !! JsString.toLowerCase address) as [cached|].
  { cbn. exists cached, st, []. rewrite app_nil_r. auto. }
  destruct (String.eqb (JsString.toLowerCase address) (JsString.toLowerCase WETH_ADDRESS))
    eqn:Hweth.
  { cbn. do 2 eexists. exists []. rewrite app_nil_r. auto. }
  apply String.eqb_neq in Hweth.
  unfold try_catch, Promise_all, publicClient_readSymbol, publicClient_readDecimals,
    cache_set, ret.
  cbn [world tokenMetadataCache requests].
  destruct (readSymbol (world st) address) as [w1 [s|]];
    cbn [world tokenMetadataCache requests];
    destruct (readDecimals w1 address) as [w2 [d|]]; cbn [world tokenMetadataCache requests].
  all: do 3 eexists; (split; [reflexivity|]); cbn [requests];
    rewrite <- app_assoc; cbn [app]; auto.
Qed.

(** The rewards loop, with what it sends and how it fills a reward. *)
Lemma build_rewards_full (fees : JsMap.t Z) (pushed : list string) :
  forall (built : list RewardAsset) st,
    (forall a, a ∈ pushed -> is_Some (JsMap.get a fees)) ->
    exists rs st' reads,
      build_rewards fees pushed built st = (Normal (built ++ rs), st')
      /\ map address rs = pushed
      /\ Forall (fun r => exists z,
                   JsMap.get (address r) fees = Some z
                   /\ amount r = BigInt.toString z
                   /\ formattedAmount r = formatTokenAmount z (reward_decimals r)) rs
      /\ requests st' = requests st ++ reads
      /\ Forall (fun q => exists a f,
                   q = ReadContractRequest a f
                   /\ a ∈ pushed
                   /\ JsString.toLowerCase a <> JsString.toLowerCase WETH_ADDRESS) reads
      /\ (length reads <= 2 * length pushed)%nat.
Proof.
  induction pushed as [|a pushed IH]; intros built st Hfees; cbn [build_rewards].
  - exists [], st, []. rewrite !app_nil_r. repeat split; auto.
  - unfold bind at 1.
    destruct (getTokenMetadata_reads st a) as (metadata & st1 & reads1 & Hmeta & Hreq1 & Hreads1).
    rewrite Hmeta.
    destruct (Hfees a ltac:(left)) as [z Hz]. rewrite Hz.
    destruct (IH (built ++
                  [{| address := a;
                      reward_symbol := symbol metadata;
                      reward_decimals := decimals metadata;
                      amount := BigInt.toString z;
                      formattedAmount := formatTokenAmount z (decimals metadata) |}])
                st1 ltac:(intros x Hx; apply Hfees; right; exact Hx))
      as (rs & st' & reads & Hrun & Hmap & Hall & Hreq & Hreads & Hlen).
    eexists (_ :: rs), st', (reads1 ++ reads). rewrite Hrun, <- app_assoc. cbn [app map address].
    split; [reflexivity|]. split; [f_equal; exact Hmap|].
    split.
    { constructor; [|exact Hall]. exists z. cbn. auto. }
    split; [rewrite Hreq, Hreq1, <- app_assoc; reflexivity|].
    split.
    { apply Forall_app. split.
      - destruct Hreads1 as [-> | [-> Hweth]]; repeat constructor; do 2 eexists;
          (split; [reflexivity | split; [left | exact Hweth]]).
      - eapply Forall_impl; [exact Hreads|]. intros q (x & f & Hq & Hx & Hweth).
        exists x, f. split; [exact Hq | split; [right; exact Hx | exact Hweth]]. }
    rewrite length_app. cbn [length].
    destruct Hreads1 as [-> | [-> _]]; cbn [length]; lia.
Qed.

Lemma set_all_sublist {V : Type} (kvs : list (string * V)) : forall (m : JsMap.t V),
  exists l,
    JsMap.keys (fold_left (fun m kv => JsMap.set (fst kv) (snd kv) m) kvs m)
    = JsMap.keys m ++ l
    /\ l `sublist_of` map fst kvs.
Proof.
  induction kvs as [|[k v] kvs IH]; intros m; cbn [fold_left map fst snd].
  - exists []. rewrite app_nil_r. split; [reflexivity | constructor].
  - destruct (IH (JsMap.set k v m)) as (l & Hkeys & Hsub).
    rewrite Hkeys, JsMap_keys_set.
    destruct (decide (k ∈ JsMap.keys m)).
    + exists l. split; [reflexivity | apply sublist_cons, Hsub].
    + exists (k :: l). rewrite <- app_assoc. split; [reflexivity | apply sublist_skip, Hsub].
Qed.

Lemma set_all_values {V : Type} (P : V -> Prop) (kvs : list (string * V)) :
  forall (m : JsMap.t V),
    Forall (fun e => P (snd e)) kvs ->
    Forall (fun e => P (snd e)) m ->
    Forall (fun e => P (snd e))
      (fold_left (fun m kv => JsMap.set (fst kv) (snd kv) m) kvs m).
Proof.
  induction kvs as [|[k v] kvs IH]; intros m Hkvs Hm; cbn [fold_left fst snd]; [exact Hm|].
  inversion Hkvs as [|? ? Hv Hrest]; subst. cbn [snd] in Hv.
  apply IH; [exact Hrest|].
  clear IH Hkvs Hrest. induction m as [|[k0 v0] m IHm]; cbn [JsMap.set].
  - constructor; [exact Hv | constructor].
  - inversion Hm as [|? ? Hhead Hm']; subst.
    destruct (String.eqb k0 k); constructor; auto.
Qed.

(** The reader, with what is sent and the keys of the result map. *)
Lemma getFees_full st feeOwner chunk :
  chunk <> [] ->
  exists results st',
    getFeesForAddressesMulticall feeOwner chunk st = (Normal results, st')
    /\ JsMap.keys results `sublist_of` chunk
    /\ (NoDup chunk -> JsMap.keys results = chunk)
    /\ ((forall w calls, snd (multicall w calls) = None) ->
        Forall (fun e => snd e = 0) results)
    /\ requests st'
       = requests st ++ [MulticallRequest (availableFees_calls feeOwner chunk)].
Proof.
  intros Hne. rewrite getFeesForAddressesMulticall_eq.
  destruct chunk as [|a0 chunk0]; [congruence|].
  set (chunk := a0 :: chunk0) in *. cbv zeta.
  destruct (multicall (world st) (availableFees_calls feeOwner chunk)) as [w answer] eqn:Hcall.
  pose proof (recorded_amounts_length answer (length chunk)) as Hlen.
  do 2 eexists. split; [reflexivity|]. cbn [requests].
  split; [|split; [|split; [|reflexivity]]].
  - destruct (set_all_sublist (zip chunk (recorded_amounts answer (length chunk))) [])
      as (l & Hkeys & Hsub).
    rewrite Hkeys. cbn [JsMap.keys map app]. rewrite map_fst_zip in Hsub by lia. exact Hsub.
  - intros Hnd. rewrite set_all_fresh.
    + cbn [app]. unfold JsMap.keys. apply map_fst_zip. lia.
    + rewrite map_fst_zip by lia. exact Hnd.
    + intros k _ Hin. inversion Hin.
  - intros Hdown. specialize (Hdown (world st) (availableFees_calls feeOwner chunk)).
    rewrite Hcall in Hdown. cbn [snd] in Hdown. subst answer.
    apply (set_all_values (fun v => v = 0)); [|constructor].
    apply Forall_forall. intros [k v] Hin. cbn [snd].
    apply elem_of_zip_r in Hin. cbn [recorded_amounts] in Hin.
    apply elem_of_replicate in Hin. tauto.
Qed.

(** Reading batches, with what is sent and the keys of the maps. *)
Lemma read_batches_full feeOwner (bs : list (list string)) : forall st,
  Forall (fun batch => batch <> []) bs ->
  let '(maps, st') := read_batches feeOwner bs st in
  Forall2 (fun batch m =>
             JsMap.keys m `sublist_of` batch
             /\ (NoDup batch -> JsMap.keys m = batch)
             /\ ((forall w calls, snd (multicall w calls) = None) ->
                 Forall (fun e => snd e = 0) m)) bs maps
  /\ requests st'
     = requests st ++ map (fun batch => MulticallRequest (availableFees_calls feeOwner batch)) bs.
Proof.
  induction bs as [|batch bs IH]; intros st Hne; cbn [read_batches].
  - rewrite app_nil_r. split; constructor.
  - inversion Hne as [|? ? Hb Hbs]; subst.
    destruct (getFees_full st feeOwner batch Hb)
      as (results & st1 & Hrun & Hsub & Hkeys & Hdown & Hreq).
    rewrite Hrun. specialize (IH st1 Hbs).
    destruct (read_batches feeOwner bs st1) as [maps st2].
    destruct IH as (Hall & Hreq2).
    split; [constructor; auto|].
    rewrite Hreq2, Hreq, <- app_assoc. reflexivity.
Qed.

(** The aggregation in one statement: the batches are read, the bindings
    with a positive amount are kept in the order of the result maps, and
    one reward is built for each of them. *)
Lemma getTotalClaimable_full st feeOwner (candidates : list string) :
  let allAddresses := candidates ++ [WETH_ADDRESS] in
  let bs := batches (length allAddresses) allAddresses 0 in
  let maps := fst (read_batches feeOwner bs st) in
  let st1 := snd (read_batches feeOwner bs st) in
  let positive := List.filter (fun e => (snd e >? 0)%Z) (concat maps) in
  exists snapshot st' reads,
    getTotalClaimable feeOwner candidates st = (Normal snapshot, st')
    /\ tokenAddresses snapshot = map fst positive
    /\ map address (rewards snapshot) = map fst positive
    /\ Forall (fun r => exists z,
                 0 < z
                 /\ JsMap.get (address r)
                      (fold_left (fun m kv => JsMap.set (fst kv) (snd kv) m) positive [])
                    = Some z
                 /\ amount r = BigInt.toString z
                 /\ formattedAmount r = formatTokenAmount z (reward_decimals r))
         (rewards snapshot)
    /\ requests st' = requests st1 ++ reads
    /\ Forall (fun q => exists a f,
                 q = ReadContractRequest a f
                 /\ a ∈ map fst positive
                 /\ JsString.toLowerCase a <> JsString.toLowerCase WETH_ADDRESS) reads
    /\ (length reads <= 2 * length positive)%nat.
Proof.
  intros allAddresses bs maps st1 positive.
  unfold getTotalClaimable. fold allAddresses.
  unfold bind at 1. rewrite batch_loop_eq by lia. fold bs.
  subst maps st1. destruct (read_batches feeOwner bs st) as [maps st1]. cbn [fst snd] in *.
  pose proof (absorb_all_positive maps (JsMap.empty, [])
                ltac:(split; [intros a Ha; inversion Ha | intros a z Hz; discriminate]))
    as Hpos.
  rewrite absorb_all in Hpos |- *. cbn [fst snd app] in Hpos |- *. fold positive in Hpos |- *.
  destruct Hpos as [Hpushed Hpositive]. cbn [fst snd] in Hpushed, Hpositive.
  unfold bind.
  destruct (build_rewards_full _ _ [] st1 Hpushed)
    as (rs & st' & reads & Hrun & Hmap & Hall & Hreq & Hreads & Hlen).
  rewrite Hrun. cbn [app]. unfold ret.
  exists {| rewards := rs; tokenAddresses := map fst positive |}, st', reads.
  cbn [rewards tokenAddresses].
  split; [reflexivity|]. split; [reflexivity|]. split; [exact Hmap|].
  split.
  { eapply Forall_impl; [exact Hall|]. intros r (z & Hz & Ha & Hf).
    exists z. split; [exact (Hpositive _ _ Hz) | auto]. }
  split; [exact Hreq|]. split; [exact Hreads|].
  rewrite length_map in Hlen. exact Hlen.
Qed.

Lemma filter_keys_sublist (m : JsMap.t Z) (f : string * Z -> bool) :
  map fst (List.filter f m) `sublist_of` JsMap.keys m.
Proof.
  unfold JsMap.keys. induction m as [|e m IH]; cbn [List.filter map]; [constructor|].
  destruct (f e); cbn [map]; [apply sublist_skip | apply sublist_cons]; exact IH.
Qed.

Lemma concat_sublist (bs : list (list string)) (maps : list (JsMap.t Z)) :
  Forall2 (fun batch m => JsMap.keys m `sublist_of` batch) bs maps ->
  JsMap.keys (concat maps) `sublist_of` concat bs.
Proof.
  unfold JsMap.keys. induction 1 as [|batch m bs maps Hsub _ IH]; cbn [concat map].
  - constructor.
  - rewrite map_app. apply sublist_app; assumption.
Qed.

(** X7.  The snapshot keeps the order of the input.  The addresses of
    [tokenAddresses], and those of [rewards], come in the order of the
    candidate list followed by the wrapped-native address (they are a
    subsequence of it); so no address is reported that was not asked
    for. *)
Theorem snapshot_in_input_order st feeOwner (candidates : list string) :
  exists snapshot st',
    getTotalClaimable feeOwner candidates st = (Normal snapshot, st')
    /\ tokenAddresses snapshot `sublist_of` candidates ++ [WETH_ADDRESS]
    /\ map address (rewards snapshot) `sublist_of` candidates ++ [WETH_ADDRESS]
    /\ (forall a, a ∈ tokenAddresses snapshot -> a ∈ candidates \/ a = WETH_ADDRESS).
Proof.
  destruct (getTotalClaimable_full st feeOwner candidates)
    as (snapshot & st' & reads & Hrun & Haddr & Hrew & _).
  set (allAddresses := candidates ++ [WETH_ADDRESS]) in *.
  set (bs := batches (length allAddresses) allAddresses 0) in *.
  pose proof (read_batches_full feeOwner bs st
                (batches_nonempty allAddresses (length allAddresses) 0 ltac:(lia))) as Hread.
  destruct (read_batches feeOwner bs st) as [maps st1]. cbn [fst snd] in *.
  destruct Hread as [Hmaps _].
  assert (Hsub : map fst (List.filter (fun e => (snd e >? 0)%Z) (concat maps))
                 `sublist_of` allAddresses).
  { etransitivity; [apply filter_keys_sublist|].
    rewrite <- (drop_0_concat allAddresses). fold bs.
    apply concat_sublist. eapply Forall2_impl; [exact Hmaps|]. cbn. tauto. }
  exists snapshot, st'. split; [exact Hrun|].
  rewrite Haddr, Hrew. split; [exact Hsub|]. split; [exact Hsub|].
  intros a Ha. apply (elem_of_sublist _ _ _ Ha) in Hsub. rename Hsub into Ha'. clear Ha. rename Ha' into Ha.
  unfold allAddresses in Ha. apply elem_of_app in Ha. destruct Ha as [Ha|Ha]; [auto|].
  right. apply list_elem_of_singleton in Ha. exact Ha.
Qed.

(** X8.  Metadata is read for reported tokens only, after all fees are
    read.  The requests of [getTotalClaimable] are one multicall per batch,
    in order, and then [readContract] requests, each of them for an
    address of the snapshot that is not the wrapped-native one, at most
    two per address listed. *)
Theorem metadata_read_for_rewards_only st feeOwner (candidates : list string) :
  let allAddresses := candidates ++ [WETH_ADDRESS] in
  let bs := batches (length allAddresses) allAddresses 0 in
  exists snapshot st' reads,
    getTotalClaimable feeOwner candidates st = (Normal snapshot, st')
    /\ requests st'
       = requests st
         ++ map (fun batch => MulticallRequest (availableFees_calls feeOwner batch)) bs
         ++ reads
    /\ Forall (fun q => exists a f,
                 q = ReadContractRequest a f
                 /\ a ∈ tokenAddresses snapshot
                 /\ JsString.toLowerCase a <> JsString.toLowerCase WETH_ADDRESS) reads
    /\ (length reads <= 2 * length (tokenAddresses snapshot))%nat.
Proof.
  intros allAddresses bs.
  destruct (getTotalClaimable_full st feeOwner candidates)
    as (snapshot & st' & reads & Hrun & Haddr & _ & _ & Hreq & Hreads & Hlen).
  fold allAddresses bs in Hreq.
  pose proof (read_batches_full feeOwner bs st
                (batches_nonempty allAddresses (length allAddresses) 0 ltac:(lia))) as Hread.
  destruct (read_batches feeOwner bs st) as [maps st1]. cbn [fst snd] in *.
  destruct Hread as [_ Hreq1].
  exists snapshot, st', reads. split; [exact Hrun|].
  split; [rewrite Hreq, Hreq1, <- app_assoc; reflexivity|].
  rewrite Haddr, length_map. split; [exact Hreads | exact Hlen].
Qed.

(** X9.  When the chain cannot be reached (every multicall request
    throws), [getTotalClaimable] does not throw: it returns the empty
    snapshot, having sent the multicall of every batch and no metadata
    read, and leaves the metadata cache as it was. *)
Theorem unreachable_chain_gives_empty_snapshot st feeOwner (candidates : list string) :
  (forall w calls, snd (multicall w calls) = None) ->
  let allAddresses := candidates ++ [WETH_ADDRESS] in
  let bs := batches (length allAddresses) allAddresses 0 in
  exists st',
    getTotalClaimable feeOwner candidates st
    = (Normal {| rewards := []; tokenAddresses := [] |}, st')
    /\ requests st'
       = requests st
         ++ map (fun batch => MulticallRequest (availableFees_calls feeOwner batch)) bs
    /\ tokenMetadataCache st' = tokenMetadataCache st.
Proof.
  intros Hdown allAddresses bs.
  unfold getTotalClaimable. fold allAddresses.
  unfold bind at 1. rewrite batch_loop_eq by lia. fold bs.
  pose proof (read_batches_full feeOwner bs st
                (batches_nonempty allAddresses (length allAddresses) 0 ltac:(lia))) as Hread.
  pose proof (read_batches_spec feeOwner bs st
                (batches_nonempty allAddresses (length allAddresses) 0 ltac:(lia))) as Hspec.
  destruct (read_batches feeOwner bs st) as [maps st1].
  destruct Hread as [Hmaps Hreq]. destruct Hspec as (_ & _ & Hcache).
  assert (Hnone : List.filter (fun e : string * Z => (snd e >? 0)%Z) (concat maps) = []).
  { clear Hreq Hcache. induction Hmaps as [|batch m bs' maps' (_ & _ & Hzero) _ IH];
      [reflexivity|].
    cbn [concat]. rewrite List.filter_app, IH, app_nil_r.
    specialize (Hzero Hdown). clear -Hzero.
    induction Hzero as [|e m He _ IHm]; [reflexivity|].
    cbn [List.filter]. rewrite He. exact IHm. }
  rewrite absorb_all, Hnone. cbn. exists st1. auto.
Qed.

(** A list of at most 500 addresses is read as one batch. *)
Lemma batches_single (allAddresses : list string) :
  (0 < length allAddresses <= MULTICALL_BATCH_SIZE)%nat ->
  batches (length allAddresses) allAddresses 0 = [allAddresses].
Proof.
  intros [Hpos Hle]. destruct (length allAddresses) as [|n] eqn:Hlen; [lia|].
  cbn [batches]. rewrite Hlen. change (0 <? S n)%nat with true. cbv iota.
  rewrite drop_0, take_ge by lia. f_equal.
  destruct n as [|n]; [reflexivity|]. cbn [batches Nat.add].
  assert (Hge : (MULTICALL_BATCH_SIZE <? length allAddresses)%nat = false)
    by (apply Nat.ltb_ge; lia).
  rewrite Hge. reflexivity.
Qed.

Lemma filter_NoDup_keys (m : JsMap.t Z) (f : string * Z -> bool) :
  NoDup (JsMap.keys m) -> NoDup (map fst (List.filter f m)).
Proof. intros Hnd. eapply sublist_NoDup; [exact Hnd | apply filter_keys_sublist]. Qed.

(** The rewards of a map without repeated keys carry its amounts. *)
Lemma rewards_of_fees (fees : JsMap.t Z) : forall (rs : list RewardAsset) (whole : JsMap.t Z),
  NoDup (JsMap.keys whole) ->
  (forall e, e ∈ fees -> e ∈ whole) ->
  map address rs = JsMap.keys fees ->
  Forall (fun r => exists z, JsMap.get (address r) whole = Some z
                             /\ amount r = BigInt.toString z) rs ->
  map (fun r => (address r, amount r)) rs
  = map (fun e => (fst e, BigInt.toString (snd e))) fees.
Proof.
  induction fees as [|[k v] fees IH]; intros rs whole Hnd Hin Hkeys Hall.
  - destruct rs; [reflexivity | discriminate].
  - destruct rs as [|r rs]; [discriminate|].
    cbn [map JsMap.keys fst] in Hkeys. inversion Hkeys as [[Hk Hrest]].
    inversion Hall as [|? ? (z & Hz & Hamount) Hall']; subst.
    cbn [map fst snd]. f_equal.
    + f_equal. rewrite Hamount. f_equal.
      assert (Hget : JsMap.get (address r) whole = Some v).
      { specialize (Hin (address r, v) ltac:(left)).
        clear -Hnd Hin. unfold JsMap.keys in Hnd.
        induction whole as [|[k0 v0] whole IHw]; [inversion Hin|].
        cbn [map fst] in Hnd. apply NoDup_cons in Hnd. destruct Hnd as [Hk0 Hnd].
        cbn [JsMap.get]. apply elem_of_cons in Hin. destruct Hin as [Heq|Hin].
        - inversion Heq; subst. rewrite String.eqb_refl. reflexivity.
        - destruct (String.eqb k0 (address r)) eqn:E; [|exact (IHw Hnd Hin)].
          apply String.eqb_eq in E. subst k0. exfalso. apply Hk0.
          exact (list_elem_of_fmap_2 fst whole (address r, v) Hin). }
      congruence.
    + apply (IH rs whole Hnd); [|exact Hrest | exact Hall'].
      intros e He. apply Hin. right. exact He.
Qed.

(** X10.  For fewer than 500 candidates, none of them repeated and none
    the wrapped-native address, the snapshot is read off the one
    multicall: it lists, in input order, the addresses whose call
    succeeded with a positive result, and each reward carries the decimal
    text of that result. *)
Theorem snapshot_of_one_batch st feeOwner (candidates : list string) :
  (length candidates < 500)%nat ->
  NoDup (candidates ++ [WETH_ADDRESS]) ->
  let allAddresses := candidates ++ [WETH_ADDRESS] in
  let answer := snd (multicall (world st) (availableFees_calls feeOwner allAddresses)) in
  let positive :=
    List.filter (fun e => (snd e >? 0)%Z)
      (zip allAddresses (recorded_amounts answer (length allAddresses))) in
  exists snapshot st',
    getTotalClaimable feeOwner candidates st = (Normal snapshot, st')
    /\ tokenAddresses snapshot = map fst positive
    /\ map (fun r => (address r, amount r)) (rewards snapshot)
       = map (fun e => (fst e, BigInt.toString (snd e))) positive.
Proof.
  intros Hlen Hnd allAddresses answer positive.
  destruct (getTotalClaimable_full st feeOwner candidates)
    as (snapshot & st' & reads & Hrun & Haddr & Hrew & Hall & _).
  fold allAddresses in Haddr, Hrew, Hall.
  assert (Hsize : (0 < length allAddresses <= MULTICALL_BATCH_SIZE)%nat).
  { unfold allAddresses, MULTICALL_BATCH_SIZE. rewrite length_app. cbn [length]. lia. }
  rewrite (batches_single allAddresses Hsize) in Haddr, Hrew, Hall.
  cbn [read_batches] in Haddr, Hrew, Hall.
  pose proof (getFees_NoDup st feeOwner allAddresses Hnd) as Hmap. fold answer in Hmap.
  destruct (getFeesForAddressesMulticall feeOwner allAddresses st) as [[results|e] st1];
    cbn [fst] in Hmap; [|discriminate].
  inversion Hmap; subst results. cbn [fst concat] in Haddr, Hrew, Hall.
  rewrite app_nil_r in Haddr, Hrew, Hall. fold positive in Haddr, Hrew, Hall.
  assert (Hkeys : NoDup (JsMap.keys positive)).
  { apply filter_NoDup_keys. unfold JsMap.keys.
    rewrite map_fst_zip by (rewrite recorded_amounts_length; lia). exact Hnd. }
  rewrite set_all_fresh in Hall; [|exact Hkeys | intros k _ Hin; inversion Hin].
  cbn [app] in Hall.
  exists snapshot, st'. split; [exact Hrun|]. split; [exact Haddr|].
  apply (rewards_of_fees positive _ positive Hkeys); [auto | exact Hrew |].
  eapply Forall_impl; [exact Hall|]. intros r (z & _ & Hz & Hamount & _). eauto.
Qed.

(** X12.  Every reward of a snapshot is written from one amount: there is
    a positive integer of which [amount] is the decimal text and
    [formattedAmount] the text [formatTokenAmount] gives for it with the
    [decimals] of the same reward. *)
Theorem rewards_formatted_from_amount st feeOwner (candidates : list string) :
  exists snapshot st',
    getTotalClaimable feeOwner candidates st = (Normal snapshot, st')
    /\ Forall (fun r => exists z,
                 0 < z
                 /\ amount r = BigInt.toString z
                 /\ formattedAmount r = formatTokenAmount z (reward_decimals r))
         (rewards snapshot).
Proof.
  destruct (getTotalClaimable_full st feeOwner candidates)
    as (snapshot & st' & reads & Hrun & _ & _ & Hall & _).
  exists snapshot, st'. split; [exact Hrun|].
  eapply Forall_impl; [exact Hall|]. intros r (z & Hz & _ & Hamount & Hformatted). eauto.
Qed.

(** X11.  Without candidates the aggregation asks for the wrapped-native
    token alone, in one multicall of one call.  When that call succeeds with
    a positive amount the snapshot is the one reward for it, with the
    hard-coded symbol ["WETH"] and 18 decimals and no metadata read; else
    (zero, a failed call, a failed request) the snapshot is empty. *)
Theorem getTotalClaimable_without_candidates st feeOwner :
  weth_consistent (tokenMetadataCache st) ->
  let calls := availableFees_calls feeOwner [WETH_ADDRESS] in
  let fees :=
    match snd (multicall (world st) calls) with
    | Some outcome => recorded_amount (outcome 0%nat)
    | None => 0
    end in
  exists st',
    getTotalClaimable feeOwner [] st
    = (Normal
         (if (fees >? 0)%Z
          then {| rewards :=
                    [{| address := WETH_ADDRESS;
                        reward_symbol := "WETH";
                        reward_decimals := 18;
                        amount := BigInt.toString fees;
                        formattedAmount := formatTokenAmount fees 18 |}];
                  tokenAddresses := [WETH_ADDRESS] |}
          else {| rewards := []; tokenAddresses := [] |}),
       st')
    /\ requests st' = requests st ++ [MulticallRequest calls]
    /\ world st' = fst (multicall (world st) calls).
Proof.
  intros Hweth calls fees.
  unfold getTotalClaimable. cbn [app length batch_loop].
  change (0 <? 1)%nat with true. cbv iota.
  change (take MULTICALL_BATCH_SIZE (drop 0 [WETH_ADDRESS])) with [WETH_ADDRESS].
  unfold bind at 1. unfold bind at 1.
  rewrite getFeesForAddressesMulticall_eq. cbv zeta. fold calls.
  subst fees. destruct (multicall (world st) calls) as [w answer]. cbn [fst snd].
  change (0 + MULTICALL_BATCH_SIZE <? 1)%nat with false. cbv iota.
  unfold ret at 1.
  set (fees := match answer with
               | Some outcome => recorded_amount (outcome 0%nat)
               | None => 0
               end).
  assert (Hamounts : recorded_amounts answer 1 = [fees]) by (destruct answer; reflexivity).
  cbn [length]. rewrite Hamounts.
  cbn [zip_with fold_left JsMap.set fst snd JsMap.entries record_fees].
  destruct (fees >? 0)%Z eqn:Hpos.
  - cbn [JsMap.set JsMap.empty app build_rewards].
    unfold bind at 1. unfold bind at 1.
    unfold getTokenMetadata, bind, get_cache. cbn [tokenMetadataCache].
    destruct (tokenMetadataCache st !! JsString.toLowerCase WETH_ADDRESS) as [cached|] eqn:Hc.
    + rewrite (Hweth cached Hc). unfold ret. cbn [JsMap.get].
      rewrite String.eqb_refl. cbn [app]. eexists. split; [reflexivity|]. auto.
    + rewrite String.eqb_refl. unfold cache_set, ret. cbn [JsMap.get].
      rewrite String.eqb_refl. cbn [app]. eexists. split; [reflexivity|]. auto.
  - cbn [build_rewards]. unfold bind, ret. eexists. split; [reflexivity|]. auto.
Qed.

End SnapshotFacts.

(** X9 on a sample chain on which every request fails. *)
Lemma unreachable_chain_sample :
  exists st',
    Contracts.getTotalClaimable (H := Samples.unreachable_chain) (H0 := Samples.intl)
      Samples.owner Samples.few_tokens
      (@Contracts.Build_State Samples.unreachable_chain tt ∅ [])
    = (Contracts.Normal {| Contracts.rewards := []; Contracts.tokenAddresses := [] |}, st')
    /\ Contracts.requests st'
       = [Contracts.MulticallRequest
            (Contracts.availableFees_calls Samples.owner
               (Samples.few_tokens ++ [Contracts.WETH_ADDRESS]))].
Proof.
  destruct (unreachable_chain_gives_empty_snapshot
              (H := Samples.unreachable_chain) (H0 := Samples.intl)
              (@Contracts.Build_State Samples.unreachable_chain tt ∅ [])
              Samples.owner Samples.few_tokens (fun _ _ => eq_refl))
    as (st' & Hrun & Hreq & _).
  exists st'. split; [exact Hrun | exact Hreq].
Defined.

(** X10 on the sample chain: of three tokens and the wrapped-native one,
    the last alone has fees. *)
Lemma snapshot_of_one_batch_sample :
  exists snapshot st',
    Contracts.getTotalClaimable (H := Samples.chain) (H0 := Samples.intl)
      Samples.owner Samples.few_tokens Samples.fresh_contracts
    = (Contracts.Normal snapshot, st')
    /\ Contracts.tokenAddresses snapshot = [Contracts.WETH_ADDRESS]
    /\ map (fun r => (Contracts.address r, Contracts.amount r)) (Contracts.rewards snapshot)
       = [(Contracts.WETH_ADDRESS, "500000000000000000")].
Proof.
  assert (Hnodup : NoDup (Samples.few_tokens ++ [Contracts.WETH_ADDRESS]))
    by (apply (bool_decide_unpack _); vm_compute; exact I).
  destruct (snapshot_of_one_batch (H := Samples.chain) (H0 := Samples.intl)
              Samples.fresh_contracts Samples.owner Samples.few_tokens
              ltac:(cbn; lia) Hnodup)
    as (snapshot & st' & Hrun & Haddr & Hrew).
  exists snapshot, st'. split; [exact Hrun|]. split; [exact Haddr | exact Hrew].
Defined.

(** X11 on the sample chain: half an ether of fees for the
    wrapped-native token. *)
Lemma getTotalClaimable_without_candidates_sample :
  exists st',
    Contracts.getTotalClaimable (H := Samples.chain) (H0 := Samples.intl)
      Samples.owner [] Samples.fresh_contracts
    = (Contracts.Normal
         {| Contracts.rewards := [Samples.weth_reward];
            Contracts.tokenAddresses := [Contracts.WETH_ADDRESS] |}, st')
    /\ Contracts.requests st'
       = [Contracts.MulticallRequest
            (Contracts.availableFees_calls Samples.owner [Contracts.WETH_ADDRESS])].
Proof.
  assert (Hweth : Contracts.weth_consistent
                    (Contracts.tokenMetadataCache Samples.fresh_contracts)).
  { intros m Hm. cbn in Hm. rewrite lookup_empty in Hm. discriminate. }
  destruct (getTotalClaimable_without_candidates (H := Samples.chain) (H0 := Samples.intl)
              Samples.fresh_contracts Samples.owner Hweth)
    as (st' & Hrun & Hreq & _).
  exists st'. split; [|exact Hreq].
  rewrite Hrun. vm_compute. reflexivity.
Defined.

(* ===================================================================== *)
(** * Amounts that are not zero *)
(* ===================================================================== *)

Section NeverZero.
Import JsNumber Contracts.
Context `{Intl}.

Local Open Scope Q_scope.
Local Open Scope string_scope.

Lemma rounded_smallest_unit_pos : 0 < rounded (1 # 10 ^ 255).
Proof. vm_compute. reflexivity. Qed.

(** [toExponential] with fraction digits writes more than one character. *)
Lemma toExponential_length (f : nat) (x : Q) :
  (1 < String.length (toExponential (S f) (Finite x)))%nat.
Proof.
  unfold toExponential.
  destruct (if Qeq_bool (Qabs x) 0 then (0%Z, 0%Z)
            else
              if (round_half_up (Qabs x / pow10 (ilog10 (Qabs x) - Z.of_nat (S f)))
                  =? 10 ^ (Z.of_nat (S f) + 1))%Z
              then ((10 ^ Z.of_nat (S f))%Z, (ilog10 (Qabs x) + 1)%Z)
              else (round_half_up (Qabs x / pow10 (ilog10 (Qabs x) - Z.of_nat (S f))),
                    ilog10 (Qabs x))) as [n e].
  rewrite !string_length_app. cbn [String.length]. lia.
Qed.

(** X13.  A positive amount is never written as ["0"].  For a positive
    integer amount and at most 255 decimals (the range of the ERC-20
    [decimals]), the number parsed is not zero, so [formatTokenAmount]
    does not take its zero branch; and under 1000 its text, in scientific
    or in fixed notation, is longer than one character. *)
Theorem positive_amount_never_shown_as_zero (amount : Z) (decimals : nat) :
  (0 < amount)%Z ->
  (decimals <= 255)%nat ->
  let num := parseFloat (formatUnits amount decimals) in
  is_zero num = false
  /\ (lt num lit_1000 = true ->
      formatTokenAmount amount decimals <> "0"%string
      /\ (1 < String.length (formatTokenAmount amount decimals))%nat).
Proof.
  intros Hpos Hdec num.
  pose proof (parseFloat_formatUnits amount decimals ltac:(lia)) as Hnum.
  set (v := inject_Z amount / inject_Z (10 ^ Z.of_nat decimals)) in *.
  fold num in Hnum.
  assert (Hden : 0 < inject_Z (10 ^ Z.of_nat decimals)).
  { change 0 with (inject_Z 0). apply inject_Z_lt, Z.pow_pos_nonneg; lia. }
  assert (Hv : 1 # 10 ^ 255 <= v).
  { unfold v. apply Qle_shift_div_l; [exact Hden|].
    apply Qle_trans with (y := (1 # 10 ^ 255) * inject_Z (10 ^ 255)).
    - apply Qmult_le_l; [reflexivity|]. apply inject_Z_le.
      apply Z.pow_le_mono_r; lia.
    - apply Qle_trans with (y := 1); [vm_compute; discriminate|].
      change 1 with (inject_Z 1). apply inject_Z_le. lia. }
  assert (Hvpos : 0 < v) by (eapply Qlt_le_trans; [|exact Hv]; reflexivity).
  assert (Hz : is_zero num = false).
  { rewrite Hnum. apply (of_rational_nonzero (1 # 10 ^ 255));
      [reflexivity | apply rounded_smallest_unit_pos | exact Hv]. }
  split; [exact Hz|]. intros Hlt.
  assert (Hlen : (1 < String.length (formatTokenAmount amount decimals))%nat).
  { unfold formatTokenAmount. cbv zeta. fold num. rewrite Hz, Hlt.
    assert (Hfin : exists x, num = Finite x /\ 0 <= x).
    { rewrite Hnum, of_rational_pos by exact Hvpos. rewrite round_pos_rounded.
      destruct (Qle_bool (pow2 1024) (rounded v)) eqn:Hinf.
      - exfalso. rewrite Hnum, of_rational_pos, round_pos_rounded, Hinf in Hlt
          by exact Hvpos. discriminate.
      - eexists. split; [reflexivity | apply rounded_nonneg, Hvpos]. }
    destruct Hfin as (x & Hx & Hx0). rewrite Hx.
    destruct (lt (Finite x) lit_0_0001); [apply toExponential_length|].
    destruct (lt (Finite x) lit_1).
    - destruct (toFixed_shape 6 x ltac:(lia) Hx0) as (a & b & Heq & Hb & Ha).
      rewrite Heq, !string_length_app. cbn [String.length]. lia.
    - destruct (toFixed_shape 4 x ltac:(lia) Hx0) as (a & b & Heq & Hb & Ha).
      rewrite Heq, !string_length_app. cbn [String.length]. lia. }
  split; [|exact Hlen].
  intros Heq. rewrite Heq in Hlen. cbn in Hlen. lia.
Qed.

End NeverZero.

(** X13 on the smallest amount of a token with 255 decimals. *)
Lemma positive_amount_never_shown_as_zero_sample :
  JsNumber.is_zero (JsNumber.parseFloat (Contracts.formatUnits 1 255)) = false
  /\ Contracts.formatTokenAmount (H := Samples.intl) 1 255 <> "0".
Proof.
  destruct (positive_amount_never_shown_as_zero (H := Samples.intl) 1 255
              ltac:(lia) ltac:(lia)) as [Hz Hshown].
  split; [exact Hz|].
  exact (proj1 (Hshown ltac:(vm_compute; reflexivity))).
Defined.

(* ===================================================================== *)
(** * The Farcaster hook *)
(* ===================================================================== *)

Section HookFacts.
Import Farcaster.
Context `{Client}.

Implicit Types (s : Session) (params : TransactionParams).

(** What the page needs of [sendTransaction]: the state of the hook is
    left alone, the calls are provider calls, and a hash comes from a
    transaction sent from the wallet. *)
Lemma sendTransaction_calls params s :
  let '(result, s') := sendTransaction params s in
  state s' = state s
  /\ exists made,
       calls s' = calls s ++ made
       /\ Forall (fun c => match c with
                           | ChainId | SwitchEthereumChain _ | SendTransaction _ => True
                           | _ => False
                           end) made
       /\ (forall hash,
             result = TxSuccess hash ->
             exists connected tx,
               wallet (state s) = Some connected
               /\ tx_from tx = wallet_address connected
               /\ tx_to tx = params_to params
               /\ tx_data tx = params_data params
               /\ SendTransaction tx ∈ made).
Proof.
  assert (Hfail : forall e hash, transaction_failed e <> TxSuccess hash).
  { intros [m|] hash; cbn; [|discriminate].
    destruct (_ || _); [discriminate|].
    destruct (JsText.includes "revert" m); discriminate. }
  unfold sendTransaction, await.
  destruct (isInFrame (state s)) eqn:Hframe;
    [destruct (wallet (state s)) as [connected|] eqn:Hwallet|];
    [destruct (getEthereumProvider s) as [[|]|] eqn:Hprovider| |].
  all: repeat (cbn [world state calls];
               match goal with
               | |- context [eth_chainId ?w] =>
                   destruct (eth_chainId w) as [? [?|?]]
               | |- context [wallet_switchEthereumChain ?w ?c] =>
                   destruct (wallet_switchEthereumChain w c) as [? [[]|?]]
               | |- context [eth_sendTransaction ?w ?t] =>
                   destruct (eth_sendTransaction w t) as [? [?|?]]
               | |- context [if negb ?b then _ else _] => destruct b; cbn [negb]
               end).
  all: cbv beta iota zeta.
  all: split; [reflexivity|].
  all: eexists; split;
    [first [symmetry; apply app_nil_r | rewrite <- ?app_assoc; reflexivity]|].
  all: split; [repeat constructor|].
  all: intros hash Hr;
    first [discriminate
          | exfalso; exact (Hfail _ _ Hr)
          | do 2 eexists; split; [reflexivity|];
            split; [|split; [|split]];
            [| | | repeat constructor]; reflexivity].
Qed.

(** X14.  [sendTransaction] sends at most one transaction, and only on
    Base.  Outside a frame or without a wallet it asks the provider
    nothing and reports that; without a usable provider it asks nothing
    and reports that.  Otherwise it asks for the chain id; when the answer
    is ["0x2105"] it sends the transaction next; when it is another it
    asks for the switch to ["0x2105"] and sends the transaction only once
    the switch resolved, and reports "Please switch to Base network to
    claim rewards" when it was rejected; when the chain id itself was
    rejected nothing more is asked.  The transaction goes from the address
    of the wallet to the target given, with the data given, the value given
    or ["0x0"], and the chain id ["0x2105"]; the result is the hash the
    provider answered it with, or the failure read off its rejection.  The
    state of the hook is left as it was. *)
Theorem sendTransaction_sends_once_on_base params s :
  let '(result, s') := sendTransaction params s in
  state s' = state s
  /\ (isInFrame (state s) = false \/ wallet (state s) = None ->
      result = TxFailure "Wallet not connected or not in Farcaster frame" /\ s' = s)
  /\ (forall connected,
        wallet (state s) = Some connected ->
        let tx :=
          {| tx_from := wallet_address connected;
             tx_to := params_to params;
             tx_data := params_data params;
             tx_value :=
               match params_value params with
               | Some v => if JsString.truthy v then v else "0x0"
               | None => "0x0"
               end;
             tx_chainId := "0x2105" |} in
        let sent (w : ClientWorld) :=
          match eth_sendTransaction w tx with
          | (w', Resolved hash) => (TxSuccess hash, w')
          | (w', Rejected e) => (transaction_failed e, w')
          end in
        exists made,
          calls s' = calls s ++ made
          /\ (made `prefix_of` [ChainId; SendTransaction tx]
              \/ made `prefix_of` [ChainId; SwitchEthereumChain "0x2105"; SendTransaction tx])
          /\ (forall hash, result = TxSuccess hash -> SendTransaction tx ∈ made)
          /\ (getEthereumProvider s <> Some true -> made = [])
          /\ (isInFrame (state s) = true ->
              getEthereumProvider s <> Some true ->
              result = TxFailure "Ethereum provider not available" /\ s' = s)
          /\ (isInFrame (state s) = true ->
              getEthereumProvider s = Some true ->
              match eth_chainId (world s) with
              | (w1, Rejected e) =>
                  made = [ChainId]
                  /\ (result, world s') = (transaction_failed e, w1)
              | (w1, Resolved current) =>
                  if String.eqb current "0x2105"
                  then made = [ChainId; SendTransaction tx]
                       /\ (result, world s') = sent w1
                  else
                    match wallet_switchEthereumChain w1 "0x2105" with
                    | (w2, Rejected _) =>
                        made = [ChainId; SwitchEthereumChain "0x2105"]
                        /\ (result, world s')
                           = (TxFailure "Please switch to Base network to claim rewards", w2)
                    | (w2, Resolved _) =>
                        made = [ChainId; SwitchEthereumChain "0x2105"; SendTransaction tx]
                        /\ (result, world s') = sent w2
                    end
              end)).
Proof.
  assert (Hfail : forall e hash, transaction_failed e <> TxSuccess hash).
  { intros [m|] hash; cbn; [|discriminate].
    destruct (_ || _); [discriminate|].
    destruct (JsText.includes "revert" m); discriminate. }
  unfold sendTransaction, await, baseChainId.
  destruct (isInFrame (state s)) eqn:Hframe;
    [destruct (wallet (state s)) as [connected|] eqn:Hwallet|];
    [destruct (getEthereumProvider s) as [[|]|] eqn:Hprovider| |].
  all: repeat (cbn [world state calls];
               match goal with
               | |- context [eth_chainId ?w] =>
                   destruct (eth_chainId w) as [? [?|?]] eqn:?
               | |- context [wallet_switchEthereumChain ?w ?c] =>
                   destruct (wallet_switchEthereumChain w c) as [? [[]|?]] eqn:?
               | |- context [eth_sendTransaction ?w ?t] =>
                   destruct (eth_sendTransaction w t) as [? [?|?]] eqn:?
               | |- context [if negb (?c =? ?b)%string then _ else _] =>
                   destruct (c =? b)%string eqn:?; cbn [negb]
               end).
  all: cbv beta iota zeta.
  all: split; [reflexivity|].
  all: split; [intros [Hf | Hn]; first [congruence | split; reflexivity]|].
  all: intros cw Hc; try discriminate; try (inversion Hc; subst cw).
  all: eexists; split;
    [first [symmetry; apply app_nil_r | rewrite <- ?app_assoc; reflexivity]|].
  all: split; [first [left; eexists; reflexivity | right; eexists; reflexivity]|].
  all: split;
    [intros hash Hr;
     first [discriminate | exfalso; exact (Hfail _ _ Hr) | repeat constructor]|].
  all: split; [first [reflexivity | intros Hn; congruence]|].
  all: split; [intros Hf Hn; first [discriminate | congruence | split; reflexivity]|].
  all: intros Hf Hp; try discriminate.
  all: repeat match goal with
              | Heq : _ = (_, _) |- _ => rewrite Heq; clear Heq
              | Heq : (_ =? _)%string = _ |- _ => rewrite Heq; clear Heq
              end.
  all: split; reflexivity.
Qed.

Lemma sendTransaction_state params s :
  state (snd (sendTransaction params s)) = state s.
Proof.
  pose proof (sendTransaction_calls params s) as Hsend.
  destruct (sendTransaction params s) as [result s']. exact (proj1 Hsend).
Qed.

(** [waitForTransaction] answers [true] for a receipt with the status
    ["success"], asked for in a frame, and for nothing else. *)
Lemma waitForTransaction_confirms (hash : string) s :
  let '(confirmed, s') := waitForTransaction hash s in
  state s' = state s
  /\ (confirmed = true ->
      isInFrame (state s) = true
      /\ snd (waitForTransactionReceipt (world s) hash) = Resolved "success"
      /\ calls s' = calls s ++ [WaitForReceipt hash])
  /\ (calls s' = calls s \/ calls s' = calls s ++ [WaitForReceipt hash]).
Proof.
  unfold waitForTransaction, await.
  destruct (isInFrame (state s)); cbn [negb].
  2:{ split; [reflexivity|]. split; [discriminate | left; reflexivity]. }
  destruct (waitForTransactionReceipt (world s) hash) as [w [status|e]]; cbn.
  - split; [reflexivity|]. split; [|right; reflexivity].
    intros Heq. apply String.eqb_eq in Heq. subst status. auto.
  - split; [reflexivity|]. split; [discriminate | right; reflexivity].
Qed.

(** [waitForTransaction] confirms exactly the receipts with the status
    ["success"] that it asks for in a frame. *)
Lemma waitForTransaction_iff (hash : string) s :
  fst (waitForTransaction hash s) = true
  <-> isInFrame (state s) = true
      /\ snd (waitForTransactionReceipt (world s) hash) = Resolved "success".
Proof.
  unfold waitForTransaction, await.
  destruct (isInFrame (state s)); cbn [negb fst].
  2:{ split; [discriminate | intros [Hf _]; discriminate]. }
  destruct (waitForTransactionReceipt (world s) hash) as [w [status|e]]; cbn [fst snd].
  - split.
    + intros Heq. apply String.eqb_eq in Heq. subst status. auto.
    + intros [_ Heq]. inversion Heq. reflexivity.
  - split; [discriminate | intros [_ Heq]; discriminate].
Qed.

(** The page calls a failure a cancellation when the hook met an [Error]
    whose message speaks of a rejection, a denial or a cancellation. *)
Lemma transaction_failed_cancelled (e : Thrown) :
  exists error,
    transaction_failed e = TxFailure error
    /\ JsText.includes "rejected" error || JsText.includes "cancelled" error
       = match e with
         | ErrorObject message =>
             JsText.includes "rejected" message
             || JsText.includes "denied" message
             || JsText.includes "cancelled" message
         | OtherValue => false
         end.
Proof.
  destruct e as [message|]; cbn [transaction_failed].
  - destruct (JsText.includes "rejected" message) eqn:Hr; cbn [orb].
    { eexists. split; [reflexivity|]. vm_compute. reflexivity. }
    destruct (JsText.includes "denied" message) eqn:Hd; cbn [orb].
    { eexists. split; [reflexivity|]. vm_compute. reflexivity. }
    destruct (JsText.includes "cancelled" message) eqn:Hc.
    { eexists. split; [reflexivity|]. vm_compute. reflexivity. }
    exists message. split; [destruct (JsText.includes "revert" message); reflexivity|].
    rewrite Hr, Hc. reflexivity.
  - eexists. split; [reflexivity|]. vm_compute. reflexivity.
Qed.

(** What the page needs of [connectWallet]. *)
Lemma connectWallet_cases s :
  let '(result, s') := connectWallet s in
  isConnecting (state s') = false
  /\ isInFrame (state s') = isInFrame (state s)
  /\ isSDKLoaded (state s') = isSDKLoaded (state s)
  /\ context (state s') = context (state s)
  /\ match result with
     | Connected connected =>
         wallet (state s') = Some connected
         /\ error (state s') = None
         /\ if isInFrame (state s)
            then isConnected connected = true
                 /\ balance connected = 0
                 /\ calls s' = calls s ++ [RequestAccounts]
                 /\ exists others,
                      snd (eth_requestAccounts (world s))
                      = Resolved (Some (wallet_address connected :: others))
            else calls s' = calls s ++ [PostWalletConnect]
                 /\ snd (post_wallet_connect (world s)) = Resolved connected
     | ConnectError message =>
         wallet (state s') = wallet (state s)
         /\ error (state s') = Some message
         /\ isInFrame (state s) = true
         /\ (calls s' = calls s \/ calls s' = calls s ++ [RequestAccounts])
     | ConnectNull =>
         wallet (state s') = wallet (state s)
         /\ error (state s') = Some "Failed to connect wallet"
         /\ isInFrame (state s) = false
         /\ calls s' = calls s ++ [PostWalletConnect]
     end.
Proof.
  unfold connectWallet, getEthereumProvider, await, setState.
  cbn [world state calls].
  destruct (isInFrame (state s)) eqn:Hframe.
  - destruct (sdk_wallet_ethProvider (world s)) as [| |[|]];
      [| | destruct (eth_requestAccounts (world s)) as [w [[[|account others]|]|e]] |];
      cbn [world state calls connect_failed connect_done isConnecting isInFrame
           isSDKLoaded context wallet error wallet_address isConnected balance];
      rewrite ?Hframe; repeat split; eauto.
  - destruct (post_wallet_connect (world s)) as [w [data|e]];
      cbn [world state calls connect_failed connect_done isConnecting isInFrame
           isSDKLoaded context wallet error];
      rewrite ?Hframe; repeat split; auto.
Qed.

(** X15.  [connectWallet] always leaves [isConnecting] cleared and
    [isInFrame] as it was.  It resolves to a wallet exactly when it stored
    that wallet, and then the error is null; in a frame that wallet is the
    first account the provider answered, connected, with balance 0.  A
    failure in a frame resolves to an error and leaves the wallet as it
    was.  In a frame it asks at most for the accounts and never posts to
    the server; outside it posts once and asks the provider nothing. *)
Theorem connectWallet_settles s :
  let '(result, s') := connectWallet s in
  isConnecting (state s') = false
  /\ isInFrame (state s') = isInFrame (state s)
  /\ (forall connected,
        result = Connected connected <-> wallet (state s') = Some connected
                                         /\ error (state s') = None)
  /\ (forall connected,
        result = Connected connected ->
        isInFrame (state s) = true ->
        isConnected connected = true
        /\ balance connected = 0
        /\ exists others,
             snd (eth_requestAccounts (world s))
             = Resolved (Some (wallet_address connected :: others)))
  /\ (result <> ConnectNull ->
      (forall connected, result <> Connected connected) ->
      wallet (state s') = wallet (state s))
  /\ (if isInFrame (state s)
      then calls s' = calls s \/ calls s' = calls s ++ [RequestAccounts]
      else calls s' = calls s ++ [PostWalletConnect]).
Proof.
  pose proof (connectWallet_cases s) as Hcases.
  destruct (connectWallet s) as [result s'].
  destruct Hcases as (Hconnecting & Hframe & _ & _ & Hresult).
  split; [exact Hconnecting|]. split; [exact Hframe|].
  destruct result as [connected|message|].
  - destruct Hresult as (Hwallet & Herror & Hpath).
    split.
    { intros c. split.
      - intros Hc. inversion Hc; subst. auto.
      - intros [Hc _]. congruence. }
    split.
    { intros c Hc Hin. inversion Hc; subst c. rewrite Hin in Hpath.
      destruct Hpath as (? & ? & _ & ?). auto. }
    split; [intros _ Hno; exfalso; exact (Hno connected eq_refl)|].
    destruct (isInFrame (state s)); [right|]; tauto.
  - destruct Hresult as (Hwallet & Herror & Hin & Hcalls).
    split.
    { intros c. split; [discriminate|]. intros [_ Hnone]. congruence. }
    split; [discriminate|]. split; [auto|]. rewrite Hin. exact Hcalls.
  - destruct Hresult as (Hwallet & Herror & Hout & Hcalls).
    split.
    { intros c. split; [discriminate|]. intros [_ Hnone]. congruence. }
    split; [discriminate|]. split; [congruence|]. rewrite Hout. exact Hcalls.
Qed.

(** X16.  [initializeSDK] makes no call through the hook.  Unless the
    component is found unmounted (then the state is left as it was), it
    ends with [isSDKLoaded] set, no wallet and [isConnecting] cleared,
    whatever the SDK answers; [isInFrame] is set exactly when the SDK gave
    a context and [ready] resolved, and then that context is stored and
    the error is null; otherwise no context is stored.  A component that
    stays mounted always ends loaded. *)
Theorem initializeSDK_loads s :
  let s' := initializeSDK s in
  calls s' = calls s
  /\ (state s' = state s
      \/ isSDKLoaded (state s') = true
         /\ wallet (state s') = None
         /\ isConnecting (state s') = false
         /\ (isInFrame (state s') = true <->
             exists c,
               snd (sdk_context (world s)) = Resolved (Some c)
               /\ snd (sdk_actions_ready (fst (sdk_context (world s)))) = Resolved tt
               /\ context (state s') = Some c)
         /\ (isInFrame (state s') = true -> error (state s') = None)
         /\ (isInFrame (state s') = false -> context (state s') = None))
  /\ ((forall w, mounted w = true) -> isSDKLoaded (state s') = true).
Proof.
  unfold initializeSDK, initializeSDK_failed, setState.
  destruct (sdk_context (world s)) as [w1 [[c|]|e]]; cbn [fst snd world state calls].
  - destruct (mounted w1) eqn:Hm1; cbn [negb].
    2:{ split; [reflexivity|]. split; [left; reflexivity|].
        intros Hall. rewrite Hall in Hm1. discriminate. }
    destruct (sdk_actions_ready w1) as [w2 [[]|e]]; cbn [world state calls].
    + split; [reflexivity|]. split; [|reflexivity].
      right. cbn. repeat split; eauto; try discriminate.
    + destruct (mounted w2) eqn:Hm2; cbn [negb world state calls].
      * split; [reflexivity|]. split; [|reflexivity].
        right. cbn. repeat split; try discriminate.
        intros (c' & _ & Hready & _). discriminate.
      * split; [reflexivity|]. split; [left; reflexivity|].
        intros Hall. rewrite Hall in Hm2. discriminate.
  - destruct (mounted w1) eqn:Hm1; cbn [negb world state calls].
    + split; [reflexivity|]. split; [|reflexivity].
      right. cbn. repeat split; try discriminate.
      intros (c' & Hctx & _). discriminate.
    + split; [reflexivity|]. split; [left; reflexivity|].
      intros Hall. rewrite Hall in Hm1. discriminate.
  - destruct (mounted w1) eqn:Hm1; cbn [negb world state calls].
    + split; [reflexivity|]. split; [|reflexivity].
      right. cbn. repeat split; try discriminate.
      intros (c' & Hctx & _). discriminate.
    + split; [reflexivity|]. split; [left; reflexivity|].
      intros Hall. rewrite Hall in Hm1. discriminate.
Qed.

End HookFacts.

(* ===================================================================== *)
(** * Claiming and connecting *)
(* ===================================================================== *)

Section ClaimFacts.
Import Claiming.
Context `{Client} {Token : Type}.

Implicit Types (p : Page Token).

Local Ltac page_simpl :=
  cbn [session home tokensData isClaiming claimStatus transactions toasts timeouts
       set_session set_home setIsClaiming setClaimStatus setTransactions toast setTimeout
       claim_error wallet isInFrame page_totalClaimable
       Farcaster.world Farcaster.state Farcaster.calls] in *.

(** The guards of [handleClaimAll], one after the other. *)
Local Ltac claim_guards p :=
  unfold handleClaimAll, claimable;
  unfold wallet, isInFrame;
  destruct (Farcaster.wallet (Farcaster.state (session p))) as [connected|] eqn:Hwallet;
    [destruct (JsString.truthy (wallet_address connected)) eqn:Htruthy; cbn [negb andb];
     [destruct (length (Contracts.rewards (page_totalClaimable p)) =? 0)%nat eqn:Hrewards;
      cbn [negb andb];
      [|destruct (Farcaster.isInFrame (Farcaster.state (session p))) eqn:Hframe;
        cbn [negb andb];
        [destruct (isClaiming p || Home.isRefreshing (home p)) eqn:Hbusy; cbn [negb andb];
         [|destruct (length (Contracts.tokenAddresses (page_totalClaimable p)) =? 0)%nat
             eqn:Haddresses; cbn [negb andb]]|]]|]|].

Lemma handleClaimAll_blocked_frame p :
  claimable p = false ->
  session (handleClaimAll p) = session p
  /\ home (handleClaimAll p) = home p
  /\ isClaiming (handleClaimAll p) = isClaiming p
  /\ claimStatus (handleClaimAll p) = claimStatus p
  /\ transactions (handleClaimAll p) = transactions p.
Proof.
  claim_guards p; intros Hblocked; try discriminate; page_simpl; repeat split.
Qed.

(** X17.  A claim that a guard stops sends nothing.  When there is no
    wallet address, no reward or no address to claim, no frame, or a claim
    or a refresh under way, [handleClaimAll] leaves the hook (so the calls
    made), the refresh controller, [isClaiming], the claim status and the
    history as they were; at most it shows one toast, and that one is
    destructive. *)
Theorem handleClaimAll_blocked p :
  claimable p = false ->
  let p' := handleClaimAll p in
  session p' = session p
  /\ home p' = home p
  /\ isClaiming p' = isClaiming p
  /\ claimStatus p' = claimStatus p
  /\ transactions p' = transactions p
  /\ (toasts p' = toasts p
      \/ exists t, toasts p' = toasts p ++ [t] /\ destructive t = true).
Proof.
  claim_guards p; intros Hblocked; try discriminate; cbv zeta; page_simpl.
  all: repeat split; first [left; reflexivity | right; eexists; split; reflexivity].
Qed.

(** The paths of a claim that got past the guards. *)
Local Ltac claim_flow p :=
  claim_guards p; intros Hclaimable; try discriminate; cbv zeta;
  repeat (unfold refreshClaimableRewards; page_simpl;
          match goal with
          | |- context [buildBatchClaimTransaction ?a ?l] =>
              destruct (buildBatchClaimTransaction a l) as [?tx|?e] eqn:Hbuild
          | |- context [Farcaster.sendTransaction ?t ?before] =>
              pose proof (sendTransaction_calls t before) as Hsend;
              destruct (Farcaster.sendTransaction t before) as [[?hash|?error] ?s] eqn:Hsent
          | |- context [Farcaster.waitForTransaction ?sent ?before] =>
              pose proof (waitForTransaction_confirms sent before) as Hwait;
              destruct (Farcaster.waitForTransaction sent before) as [[|] ?s] eqn:Hwaited
          | |- context [Home.refreshClaimableRewards ?o ?before] =>
              destruct (Home.refreshClaimableRewards o before) as [?refreshed ?h]
                eqn:Hrefresh
          | |- context [crypto_randomUUID ?w] =>
              destruct (crypto_randomUUID w) as [? [?uuid|?e]] eqn:Huuid
          | |- context [Date_toISOString ?w] =>
              destruct (Date_toISOString w) as [? ?now] eqn:Hnow
          | |- context [if JsText.includes "rejected" ?msg || JsText.includes "cancelled" ?msg
                        then _ else _] =>
              destruct (JsText.includes "rejected" msg || JsText.includes "cancelled" msg)
                eqn:Hcancelled
          end);
  page_simpl.

(** X18.  [handleClaimAll] never leaves the page claiming.  On every path
    [isClaiming] ends as it started and the state of the hook is left
    alone; and when the claim got past the guards, [isClaiming] is cleared
    and the claim status is null at the end, whether the encoder threw, the
    wallet refused, the receipt did not confirm, or the claim
    completed. *)
Theorem handleClaimAll_settles p :
  let p' := handleClaimAll p in
  isClaiming p' = isClaiming p
  /\ Farcaster.state (session p') = Farcaster.state (session p)
  /\ (claimable p = true -> isClaiming p' = false /\ claimStatus p' = None).
Proof.
  destruct (claimable p) eqn:Hc.
  2:{ destruct (handleClaimAll_blocked_frame p Hc) as (Hs & _ & Hi & _).
      cbv zeta. rewrite Hs, Hi. split; [reflexivity|]. split; [reflexivity | discriminate]. }
  revert Hc. claim_flow p.
  all: apply orb_false_elim in Hbusy; destruct Hbusy as [Hidle _]; rewrite Hidle.
  all: repeat match goal with
              | Hx : _ /\ _ |- _ => destruct Hx
              end.
  all: split; [reflexivity|]; split; [congruence || reflexivity | auto].
Qed.

(** X19.  The history records confirmed claims only.  [handleClaimAll]
    leaves the history as it was or puts one entry in front of it; and an
    entry is added only when the claim got past the guards, the hook sent
    the transaction the encoder built and got a hash, and the receipt for
    that hash came back with the status ["success"].  The entry carries
    that hash, the type ["batch"], and the rewards, symbols and addresses
    the page showed before the claim; the last toast is "Claim
    Complete". *)
Theorem handleClaimAll_records_confirmed_claims p :
  let p' := handleClaimAll p in
  transactions p' = transactions p
  \/ exists entry connected tx hash s1,
       transactions p' = entry :: transactions p
       /\ claimable p = true
       /\ wallet p = Some connected
       /\ buildBatchClaimTransaction (wallet_address connected)
            (Contracts.tokenAddresses (page_totalClaimable p)) = Resolved tx
       /\ Farcaster.sendTransaction tx (session p) = (Farcaster.TxSuccess hash, s1)
       /\ snd (waitForTransactionReceipt (Farcaster.world s1) hash) = Resolved "success"
       /\ txHash entry = hash
       /\ type entry = "batch"
       /\ rewards entry = Contracts.rewards (page_totalClaimable p)
       /\ tokensClaimed entry
          = map Contracts.reward_symbol (Contracts.rewards (page_totalClaimable p))
       /\ poolAddresses entry = Contracts.tokenAddresses (page_totalClaimable p)
       /\ exists shown, toasts p' = shown ++ [{| title := "Claim Complete";
                                                  description :=
                                                    ("Successfully claimed "
                                                     ++ JsText.join ", "
                                                          (map (fun r =>
                                                                  (Contracts.formattedAmount r
                                                                   ++ " "
                                                                   ++ Contracts.reward_symbol r)%string)
                                                               (rewards entry)))%string;
                                                  destructive := false |}].
Proof.
  destruct (claimable p) eqn:Hc.
  2:{ left. exact (proj2 (proj2 (proj2 (proj2 (handleClaimAll_blocked_frame p Hc))))). }
  revert Hc. claim_flow p.
  all: try (left; reflexivity).
  right. destruct Hwait as (_ & Hconfirmed & _).
  destruct (Hconfirmed eq_refl) as (_ & Hreceipt & _).
  eexists _, connected, tx, hash, s.
  split; [reflexivity|]. split; [reflexivity|]. split; [reflexivity|].
  split; [exact Hbuild|]. split; [exact Hsent|]. split; [exact Hreceipt|].
  cbn [txHash type rewards tokensClaimed poolAddresses].
  repeat (split; [reflexivity|]).
  eexists. reflexivity.
Qed.

(** X20.  Balances are fetched again after a confirmed receipt, and then
    always, and not before.  When the claim got past the guards, the
    transaction was sent and its receipt reported success,
    [handleClaimAll] leaves the refresh controller as one refresh with
    [forceRefresh] and [pollForZero] for the wallet of the hook leaves it,
    whatever happens after.  In every other case (a guard stopped the
    claim, the encoder threw, the hook reported a failure, the receipt did
    not report success) it leaves the controller as it was. *)
Theorem handleClaimAll_refreshes_after_receipt p :
  let p' := handleClaimAll p in
  let refreshed (connected : Wallet) :=
    snd (Home.refreshClaimableRewards
           {| Home.forceRefresh := Some true; Home.pollForZero := Some true;
              Home.maxRetries := None; Home.intervalMs := None |}
           {| Home.wallet_address := Some (wallet_address connected);
              Home.refreshLockRef := Home.refreshLockRef (home p);
              Home.isRefreshing := Home.isRefreshing (home p);
              Home.network := Home.network (home p);
              Home.trace := Home.trace (home p) |}) in
  (home p' = home p
   \/ exists connected tx hash s1,
        claimable p = true
        /\ wallet p = Some connected
        /\ buildBatchClaimTransaction (wallet_address connected)
             (Contracts.tokenAddresses (page_totalClaimable p)) = Resolved tx
        /\ Farcaster.sendTransaction tx (session p) = (Farcaster.TxSuccess hash, s1)
        /\ snd (waitForTransactionReceipt (Farcaster.world s1) hash) = Resolved "success"
        /\ home p' = refreshed connected)
  /\ (forall connected tx hash s1,
        claimable p = true ->
        wallet p = Some connected ->
        buildBatchClaimTransaction (wallet_address connected)
          (Contracts.tokenAddresses (page_totalClaimable p)) = Resolved tx ->
        Farcaster.sendTransaction tx (session p) = (Farcaster.TxSuccess hash, s1) ->
        snd (waitForTransactionReceipt (Farcaster.world s1) hash) = Resolved "success" ->
        home p' = refreshed connected)
  /\ (claimable p = false -> home p' = home p)
  /\ (forall connected e,
        wallet p = Some connected ->
        buildBatchClaimTransaction (wallet_address connected)
          (Contracts.tokenAddresses (page_totalClaimable p)) = Rejected e ->
        home p' = home p)
  /\ (forall connected tx error s1,
        wallet p = Some connected ->
        buildBatchClaimTransaction (wallet_address connected)
          (Contracts.tokenAddresses (page_totalClaimable p)) = Resolved tx ->
        Farcaster.sendTransaction tx (session p) = (Farcaster.TxFailure error, s1) ->
        home p' = home p)
  /\ (forall connected tx hash s1,
        wallet p = Some connected ->
        buildBatchClaimTransaction (wallet_address connected)
          (Contracts.tokenAddresses (page_totalClaimable p)) = Resolved tx ->
        Farcaster.sendTransaction tx (session p) = (Farcaster.TxSuccess hash, s1) ->
        snd (waitForTransactionReceipt (Farcaster.world s1) hash) <> Resolved "success" ->
        home p' = home p).
Proof.
  destruct (claimable p) eqn:Hc.
  2:{ pose proof (proj1 (proj2 (handleClaimAll_blocked_frame p Hc))) as Hsame.
      cbv zeta. split; [left; exact Hsame|]. split; [discriminate|].
      repeat split; intros; exact Hsame. }
  revert Hc. claim_flow p.
  all: try (pose proof (proj1 (waitForTransaction_iff _ _) (f_equal fst Hwaited)) as Hyes).
  all: try (assert (Hno : ~ (Farcaster.isInFrame (Farcaster.state s) = true
                             /\ snd (waitForTransactionReceipt (Farcaster.world s) hash)
                                = Resolved "success"))
              by (intros Hboth; apply (waitForTransaction_iff hash s) in Hboth;
                  rewrite Hwaited in Hboth; discriminate)).
  all: try (destruct Hsend as [Hstate1 _]).
  all: try (destruct Hwait as (Hstate2 & _)).
  all: try (unfold wallet in Hrefresh; page_simpl;
            rewrite Hstate2, Hstate1, Hwallet in Hrefresh; cbn [option_map] in Hrefresh;
            apply (f_equal snd) in Hrefresh; cbn [snd] in Hrefresh).
  all: cbv zeta.
  all: split;
    [first [left; reflexivity
           | right; exists connected, tx, hash, s;
             split; [reflexivity|]; split; [reflexivity|];
             split; [exact Hbuild|]; split; [exact Hsent|];
             split; [exact (proj2 Hyes) | symmetry; exact Hrefresh]]|].
  all: split;
    [intros acct call hx sx _ Hwx Hbx Hsx Hrx;
     inversion Hwx; subst acct;
     rewrite Hbx in Hbuild; try discriminate; inversion Hbuild; subst;
     rewrite Hsx in Hsent; try discriminate; inversion Hsent; subst;
     first [reflexivity
           | symmetry; exact Hrefresh
           | exfalso; apply Hno; split; [rewrite Hstate1; exact Hframe | exact Hrx]]|].
  all: split; [discriminate|].
  all: split;
    [intros acct ex Hwx Hbx; inversion Hwx; subst acct;
     rewrite Hbx in Hbuild; try discriminate; reflexivity|].
  all: split;
    [intros acct call rx sx Hwx Hbx Hsx; inversion Hwx; subst acct;
     rewrite Hbx in Hbuild; try discriminate; inversion Hbuild; subst;
     rewrite Hsx in Hsent; try discriminate; reflexivity|].
  all: intros acct call hx sx Hwx Hbx Hsx Hrx; inversion Hwx; subst acct;
    rewrite Hbx in Hbuild; try discriminate; inversion Hbuild; subst;
    rewrite Hsx in Hsent; try discriminate; inversion Hsent; subst;
    first [reflexivity | exfalso; exact (Hrx (proj2 Hyes))].
Qed.

(** X21.  A refusal in the wallet is reported as a cancellation.  When a
    claim gets past the guards and the hook fails with an [Error] whose
    message speaks of a rejection, a denial or a cancellation, the page
    shows "Confirm Transaction" and then "Claim Cancelled", waits for no
    receipt, leaves the refresh controller and the history as they were,
    and ends with [isClaiming] cleared and no claim status. *)
Theorem handleClaimAll_user_rejection p (account : Wallet) (call : TransactionParams)
    (message : string) (after : Farcaster.Session) :
  claimable p = true ->
  wallet p = Some account ->
  buildBatchClaimTransaction (wallet_address account)
    (Contracts.tokenAddresses (page_totalClaimable p)) = Resolved call ->
  Farcaster.sendTransaction call (session p)
  = (Farcaster.transaction_failed (ErrorObject message), after) ->
  JsText.includes "rejected" message
  || JsText.includes "denied" message
  || JsText.includes "cancelled" message = true ->
  let p' := handleClaimAll p in
  exists confirm,
    toasts p' = toasts p
                ++ [confirm;
                    {| title := "Claim Cancelled";
                       description := "You cancelled the claim operation.";
                       destructive := true |}]
    /\ title confirm = "Confirm Transaction"
    /\ session p' = after
    /\ home p' = home p
    /\ transactions p' = transactions p
    /\ isClaiming p' = false
    /\ claimStatus p' = None.
Proof.
  intros Hc Hw Hb Hsent' Hmessage.
  destruct (transaction_failed_cancelled (ErrorObject message))
    as (err & Herr & Hcan).
  rewrite Herr in Hsent'. rewrite Hmessage in Hcan.
  revert Hc. claim_flow p.
  all: unfold wallet in Hw; rewrite Hwallet in Hw; inversion Hw; subst account.
  all: rewrite Hb in Hbuild; inversion Hbuild; subst.
  all: rewrite Hsent' in Hsent; inversion Hsent; subst.
  - rewrite <- app_assoc. eexists. cbn [app].
    split; [reflexivity|]. repeat split; reflexivity.
  - rewrite Hcan in Hcancelled. discriminate.
Qed.

(** X22.  A confirmed claim is completed.  When a claim gets past the
    guards, the hook sends the transaction and gets a hash, the receipt
    confirms and the browser gives an identifier, the page puts in front of
    the history the entry with that identifier, the hash, the time read
    after it and the rewards shown before the claim; it has refreshed with
    [forceRefresh] and [pollForZero]; it ends with [isClaiming] cleared and
    no claim status; and it has shown "Confirm Transaction" and then "Claim
    Complete". *)
Theorem handleClaimAll_completes p (account : Wallet) (call : TransactionParams)
    (sent : string) (s1 s2 : Farcaster.Session) (w1 : ClientWorld) (uuid : string) :
  claimable p = true ->
  wallet p = Some account ->
  buildBatchClaimTransaction (wallet_address account)
    (Contracts.tokenAddresses (page_totalClaimable p)) = Resolved call ->
  Farcaster.sendTransaction call (session p) = (Farcaster.TxSuccess sent, s1) ->
  Farcaster.waitForTransaction sent s1 = (true, s2) ->
  crypto_randomUUID (Farcaster.world s2) = (w1, Resolved uuid) ->
  let p' := handleClaimAll p in
  let claimed := Contracts.rewards (page_totalClaimable p) in
  transactions p'
  = {| id := uuid;
       type := "batch";
       rewards := claimed;
       tokensClaimed := map Contracts.reward_symbol claimed;
       poolAddresses := Contracts.tokenAddresses (page_totalClaimable p);
       timestamp := snd (Date_toISOString w1);
       txHash := sent |} :: transactions p
  /\ isClaiming p' = false
  /\ claimStatus p' = None
  /\ home p'
     = snd (Home.refreshClaimableRewards
              {| Home.forceRefresh := Some true; Home.pollForZero := Some true;
                 Home.maxRetries := None; Home.intervalMs := None |}
              {| Home.wallet_address := Some (wallet_address account);
                 Home.refreshLockRef := Home.refreshLockRef (home p);
                 Home.isRefreshing := Home.isRefreshing (home p);
                 Home.network := Home.network (home p);
                 Home.trace := Home.trace (home p) |})
  /\ map title (toasts p') = map title (toasts p) ++ ["Confirm Transaction"; "Claim Complete"].
Proof.
  intros Hc Hw Hb Hsent' Hwaited' Huuid'.
  revert Hc. claim_flow p.
  all: unfold wallet in Hw; rewrite Hwallet in Hw; inversion Hw; subst account.
  all: rewrite Hb in Hbuild; inversion Hbuild; subst.
  all: rewrite Hsent' in Hsent; inversion Hsent; subst.
  all: rewrite Hwaited' in Hwaited; inversion Hwaited; subst.
  all: rewrite Huuid' in Huuid; inversion Huuid; subst.
  destruct Hsend as [Hstate1 _]. destruct Hwait as (Hstate2 & _).
  unfold wallet in Hrefresh. page_simpl.
  rewrite Hstate2, Hstate1, Hwallet in Hrefresh. cbn [option_map] in Hrefresh.
  rewrite Hrefresh, Hnow. cbn [snd].
  split; [reflexivity|]. split; [reflexivity|]. split; [reflexivity|].
  split; [reflexivity|].
  rewrite !map_app, <- app_assoc. reflexivity.
Qed.

(** X23.  [handleConnect] reports what [connectWallet] did, and leaves the
    refresh controller and the history alone.  Either the hook holds a
    wallet, one toast "Wallet Connected" was shown and one refresh with
    [forceRefresh] was handed to [setTimeout] with a delay of 100 ms; or
    the wallet is as it was, the hook holds an error and nothing was
    scheduled: in a frame the error is shown in a destructive toast
    "Connection Failed", outside a frame nothing is shown.  [isConnecting]
    is cleared either way. *)
Theorem handleConnect_reports p :
  let p' := handleConnect p in
  Farcaster.isConnecting (Farcaster.state (session p')) = false
  /\ home p' = home p
  /\ transactions p' = transactions p
  /\ ((exists connected shown,
         wallet p' = Some connected
         /\ toasts p' = toasts p ++ [shown]
         /\ title shown = "Wallet Connected"
         /\ destructive shown = false
         /\ timeouts p'
            = timeouts p
              ++ [(100, {| Home.forceRefresh := Some true; Home.pollForZero := None;
                           Home.maxRetries := None; Home.intervalMs := None |})])
      \/ (exists message,
            wallet p' = wallet p
            /\ Farcaster.error (Farcaster.state (session p')) = Some message
            /\ timeouts p' = timeouts p
            /\ toasts p'
               = if isInFrame p
                 then toasts p ++ [{| title := "Connection Failed";
                                      description := message;
                                      destructive := true |}]
                 else toasts p)).
Proof.
  unfold handleConnect.
  pose proof (connectWallet_cases (session p)) as Hcases.
  destruct (Farcaster.connectWallet (session p)) as [[connected|message|] s'].
  all: destruct Hcases as (Hconnecting & _ & _ & _ & Hresult).
  all: cbv zeta; unfold wallet, isInFrame;
    cbn [session home transactions toasts timeouts toast setTimeout set_session].
  all: split; [exact Hconnecting|]; split; [reflexivity|]; split; [reflexivity|].
  - left. destruct Hresult as (Hwallet & _). do 2 eexists.
    split; [exact Hwallet|]. split; [reflexivity|]. repeat split.
  - right. destruct Hresult as (Hwallet & Herror & Hin & _). exists message.
    rewrite Hin. auto.
  - right. destruct Hresult as (Hwallet & Herror & Hout & _).
    exists "Failed to connect wallet". rewrite Hout. auto.
Qed.

End ClaimFacts.

(** X17 on a sample page outside a frame: nothing is sent, and the page
    says that claiming is unavailable. *)
Lemma handleClaimAll_blocked_sample :
  let p := Samples.claim_page Samples.denying_client false tt in
  Claiming.session (Claiming.handleClaimAll p) = Claiming.session p
  /\ Claiming.transactions (Claiming.handleClaimAll p) = []
  /\ map Claiming.title (Claiming.toasts (Claiming.handleClaimAll p))
     = ["Claiming Unavailable"].
Proof.
  intros p.
  destruct (handleClaimAll_blocked p eq_refl) as (Hsession & _ & _ & _ & Htx & _).
  split; [exact Hsession|]. split; [exact Htx|]. reflexivity.
Defined.

(** X21 on a sample page whose wallet answers "User denied transaction
    signature". *)
Lemma handleClaimAll_user_rejection_sample :
  let p := Samples.claim_page Samples.denying_client true tt in
  map Claiming.title (Claiming.toasts (Claiming.handleClaimAll p))
  = ["Confirm Transaction"; "Claim Cancelled"]
  /\ Claiming.transactions (Claiming.handleClaimAll p) = []
  /\ Claiming.isClaiming (Claiming.handleClaimAll p) = false
  /\ Claiming.home (Claiming.handleClaimAll p) = Claiming.home p.
Proof.
  intros p.
  destruct (handleClaimAll_user_rejection p
              {| wallet_address := Samples.owner; isConnected := true; balance := 0 |}
              Samples.batch_call "User denied transaction signature"
              (snd (Farcaster.sendTransaction Samples.batch_call (Claiming.session p)))
              eq_refl eq_refl eq_refl eq_refl eq_refl)
    as (confirm & Htoasts & Htitle & _ & Hhome & Htx & Hclaiming & _).
  split; [|split; [exact Htx|split; [exact Hclaiming | exact Hhome]]].
  rewrite Htoasts. cbn [map app Claiming.toasts p Samples.claim_page Claiming.title].
  rewrite Htitle. reflexivity.
Defined.

(** X22 on a sample page whose wallet signs: the entry is recorded with
    the hash and the reward shown, after one forced fetch that finds no
    reward left. *)
Lemma handleClaimAll_completes_sample :
  let c := Samples.client (Resolved "0x5e1f") in
  let p :=
    @Claiming.set_home c unit
      (Samples.home false [Home.ResponseOk Samples.no_reward])
      (Samples.claim_page c true tt) in
  map Claiming.txHash (Claiming.transactions (Claiming.handleClaimAll p)) = ["0x5e1f"]
  /\ map Claiming.rewards (Claiming.transactions (Claiming.handleClaimAll p))
     = [[Samples.weth_reward]]
  /\ Claiming.isClaiming (Claiming.handleClaimAll p) = false
  /\ map Claiming.title (Claiming.toasts (Claiming.handleClaimAll p))
     = ["Confirm Transaction"; "Claim Complete"]
  /\ Home.schedule (Home.trace (Claiming.home (Claiming.handleClaimAll p)))
     = [Home.Fetched (Home.tokens_url true Samples.owner)].
Proof.
  intros c p.
  destruct (handleClaimAll_completes p
              {| wallet_address := Samples.owner; isConnected := true; balance := 0 |}
              Samples.batch_call "0x5e1f"
              (snd (Farcaster.sendTransaction Samples.batch_call (Claiming.session p)))
              (snd (Farcaster.waitForTransaction "0x5e1f"
                      (snd (Farcaster.sendTransaction Samples.batch_call
                              (Claiming.session p)))))
              tt "7b0e3b0a-5c1d-4a57-9d0e-2f4b8c6a1e00"
              eq_refl eq_refl eq_refl eq_refl eq_refl eq_refl)
    as (Htx & Hclaiming & _ & Hhome & Htoasts).
  split; [rewrite Htx; reflexivity|]. split; [rewrite Htx; reflexivity|].
  split; [exact Hclaiming|]. split; [exact Htoasts|].
  rewrite Hhome. vm_compute. reflexivity.
Defined.

(** X20 on two sample pages: after a receipt that reports success the
    controller has made its forced fetch and used up the answer of the
    network; after a refusal in the wallet it is as it was. *)
Lemma handleClaimAll_refreshes_after_receipt_sample :
  let signing := Samples.client (Resolved "0x5e1f") in
  let p :=
    @Claiming.set_home signing unit
      (Samples.home false [Home.ResponseOk Samples.no_reward])
      (Samples.claim_page signing true tt) in
  let q :=
    @Claiming.set_home Samples.denying_client unit
      (Samples.home false [Home.ResponseOk Samples.no_reward])
      (Samples.claim_page Samples.denying_client true tt) in
  Home.schedule (Home.trace (Claiming.home (Claiming.handleClaimAll p)))
  = [Home.Fetched (Home.tokens_url true Samples.owner)]
  /\ Home.network (Claiming.home (Claiming.handleClaimAll p)) = []
  /\ Claiming.home (Claiming.handleClaimAll q) = Claiming.home q.
Proof.
  intros signing p q.
  destruct (handleClaimAll_refreshes_after_receipt p) as (_ & Hafter & _).
  destruct (handleClaimAll_refreshes_after_receipt q) as (_ & _ & _ & _ & Hfailed & _).
  rewrite (Hafter {| wallet_address := Samples.owner; isConnected := true; balance := 0 |}
             Samples.batch_call "0x5e1f"
             (snd (Farcaster.sendTransaction Samples.batch_call (Claiming.session p)))
             eq_refl eq_refl eq_refl eq_refl eq_refl).
  split; [vm_compute; reflexivity|]. split; [vm_compute; reflexivity|].
  exact (Hfailed {| wallet_address := Samples.owner; isConnected := true; balance := 0 |}
           Samples.batch_call "Transaction rejected by user"
           (snd (Farcaster.sendTransaction Samples.batch_call (Claiming.session q)))
           eq_refl eq_refl eq_refl).
Defined.

(* ===================================================================== *)
(** * The demo wallet *)
(* ===================================================================== *)

Section WalletRouteFacts.
Import WalletRoute.
Context `{Engine}.

Lemma toString16_digit (r : Q) :
  (0 <= r)%Q -> (r < 1)%Q ->
  exists c,
    toString16 (Qfloor (r * 16)%Q) = String c EmptyString
    /\ Contracts.is_hex_digit c = true
    /\ JsString.lower_ascii c = c.
Proof.
  intros H0 H1.
  assert (Hlo : 0 <= Qfloor (r * 16)%Q).
  { change 0 with (Qfloor 0). apply Qfloor_resp_le.
    apply Qmult_le_0_compat; [exact H0 | discriminate]. }
  assert (Hhi : Qfloor (r * 16)%Q < 16).
  { rewrite Zlt_Qlt. eapply Qle_lt_trans; [apply Qfloor_le|].
    change (inject_Z 16) with (1 * 16)%Q. apply Qmult_lt_compat_r; [reflexivity | exact H1]. }
  remember (Qfloor (r * 16)%Q) as n eqn:Hfloor. clear Hfloor.
  assert (Hdigit : exists k, (k < 16)%nat /\ n = Z.of_nat k)
    by (exists (Z.to_nat n); lia).
  destruct Hdigit as (k & Hk & ->).
  do 16 (destruct k as [|k];
         [eexists; (split; [vm_compute; reflexivity|]); split; vm_compute; reflexivity|]).
  lia.
Qed.

Lemma random_digits_hex (count : nat) : forall w,
  (forall w', 0 <= snd (Math_random w'))%Q ->
  (forall w', snd (Math_random w') < 1)%Q ->
  let text := JsText.join EmptyString (fst (random_digits count w)) in
  String.length text = count
  /\ Contracts.all_hex text = true
  /\ JsString.toLowerCase text = text.
Proof.
  induction count as [|count IH]; intros w Hlo Hhi; [cbn; auto|].
  cbn [random_digits].
  specialize (Hlo w) as Hlo0. specialize (Hhi w) as Hhi0.
  destruct (Math_random w) as [w1 r]. cbn [snd] in Hlo0, Hhi0.
  destruct (toString16_digit r Hlo0 Hhi0) as (c & Hc & Hhex & Hlower).
  rewrite Hc. specialize (IH w1 Hlo Hhi).
  destruct (random_digits count w1) as [rest w2]. cbn [fst] in *.
  destruct IH as (Hlen & Hall & Hlow).
  assert (Hjoin : JsText.join EmptyString (String c EmptyString :: rest)
                  = String c (JsText.join EmptyString rest)).
  { cbn [JsText.join]. destruct rest as [|d rest']; [reflexivity|].
    rewrite string_app_cons, !string_app_nil_l. reflexivity. }
  cbv zeta. rewrite Hjoin. cbn [String.length Contracts.all_hex JsString.toLowerCase].
  cbv zeta in Hlen, Hall, Hlow. rewrite Hlen, Hall, Hlow, Hhex, Hlower. auto.
Qed.

(** X24.  The demo wallet of [POST /api/wallet/connect] is well formed.
    With [Math.random] in its range (from 0, under 1), the address sent is
    ["0x"] and 40 hexadecimal digits, 42 characters in all, in lower case
    (it is its own lower-cased form, the key of the result cache), and the
    wallet is connected with balance 0. *)
Theorem demo_wallet_address_well_formed (w : EngineWorld) :
  (forall w', 0 <= snd (Math_random w'))%Q ->
  (forall w', snd (Math_random w') < 1)%Q ->
  let demo := fst (post_api_wallet_connect w) in
  String.length (wallet_address demo) = 42%nat
  /\ String.prefix "0x" (wallet_address demo) = true
  /\ Contracts.all_hex (JsString.slice_from 2 (wallet_address demo)) = true
  /\ JsString.toLowerCase (wallet_address demo) = wallet_address demo
  /\ JsString.truthy (wallet_address demo) = true
  /\ isConnected demo = true
  /\ balance demo = 0.
Proof.
  intros Hlo Hhi. unfold post_api_wallet_connect.
  pose proof (random_digits_hex 40 w Hlo Hhi) as Hdigits.
  destruct (random_digits 40 w) as [digits w']. cbn [fst] in *. cbv zeta in Hdigits.
  destruct Hdigits as (Hlen & Hall & Hlow).
  cbn [wallet_address isConnected balance].
  rewrite !string_app_cons, string_app_nil_l.
  set (text := JsText.join EmptyString digits) in *.
  cbn [String.length String.prefix JsString.toLowerCase JsString.truthy].
  rewrite Hlen. split; [reflexivity|]. split; [destruct text; reflexivity|].
  split.
  { unfold JsString.slice_from. cbn [String.length]. rewrite Hlen.
    cbn [Nat.sub String.substring].
    rewrite <- Hlen, substring_all. exact Hall. }
  split; [rewrite Hlow; reflexivity|]. auto.
Qed.

End WalletRouteFacts.

(** X24 on a sample engine whose random numbers run through the
    sixteenths. *)
Lemma demo_wallet_address_sample :
  wallet_address (fst (WalletRoute.post_api_wallet_connect (H := Samples.engine) 0))
  = "0x0123456789abcdef0123456789abcdef01234567"
  /\ String.length
       (wallet_address (fst (WalletRoute.post_api_wallet_connect (H := Samples.engine) 0)))
     = 42%nat.
Proof.
  split; [vm_compute; reflexivity|].
  refine (proj1 (demo_wallet_address_well_formed (H := Samples.engine) 0 _ _)).
  - intros w'. cbn. apply Qle_shift_div_l; [reflexivity|]. rewrite Qmult_0_l.
    change 0%Q with (inject_Z 0). rewrite <- Zle_Qle. apply Z.mod_pos_bound. lia.
  - intros w'. cbn. apply Qlt_shift_div_r; [reflexivity|]. rewrite Qmult_1_l.
    change 16%Q with (inject_Z 16). rewrite <- Zlt_Qlt. apply Z.mod_pos_bound. lia.
Defined.
